(** * A disk-backed text search engine: codec, analyzer, index and queries

    Shallow embedding of [compression_utils.cpp], [text_utils.cpp] and the
    retrieval and persistence code of [search_engine.cpp] / [search_engine.hpp].

    Conventions.
    - A C++ [int] is a [Z] inside [-2^31, 2^31); arithmetic that can leave
      that range is wrapped with [wrap_int] (two's complement).
    - A [uint8_t] / [unsigned char] is a [Z] inside [0, 256); a
      [std::vector<uint8_t>] and a [std::string] are [list Z].
    - A [uint32_t] is a [Z] inside [0, 2^32), wrapped with [wrap_u32].
    - A [size_t] used as a position or a length is a [nat].
    - A C++ exception is the [Throw] outcome of the [except] monad. *)

From Stdlib Require Import ZArith Lia List Bool Floats.
From Stdlib Require Uint63.
From Equations Require Import Equations.
From stdpp Require Import base option list gmap sorting strings.
Import ListNotations.
Local Open Scope Z_scope.
Set Warnings "-clear-no-such-hyp".

(** ** Outcomes of code that may throw *)

Inductive exception : Type :=
| invalid_argument
| out_of_range
| overflow_error
| runtime_error.

Inductive except (A : Type) : Type :=
| Ok (a : A)
| Throw (e : exception).
Arguments Ok {A} a.
Arguments Throw {A} e.

#[global] Instance except_ret : MRet except := fun A a => Ok a.
#[global] Instance except_bind : MBind except := fun A B f m =>
  match m with
  | Ok a => f a
  | Throw e => Throw e
  end.

Definition is_Ok {A} (m : except A) : Prop :=
  match m with Ok _ => True | Throw _ => False end.

(** Case analysis on a computed value that keeps the equation (used by the
    definitions with well-founded recursion). *)
Definition inspect {A : Type} (x : A) : { y : A | x = y } := exist _ x eq_refl.

(** ** Machine integers *)

Definition wrap_int (z : Z) : Z := (z + 2 ^ 31) mod 2 ^ 32 - 2 ^ 31.
Definition wrap_u32 (z : Z) : Z := z mod 2 ^ 32.
Definition wrap_u8 (z : Z) : Z := z mod 256.

Definition is_int (z : Z) : Prop := - 2 ^ 31 <= z < 2 ^ 31.
Definition is_byte (z : Z) : Prop := 0 <= z < 256.

Lemma wrap_int_small z : is_int z -> wrap_int z = z.
Proof.
  unfold is_int, wrap_int. intros H.
  rewrite Z.mod_small; lia.
Qed.

Lemma wrap_u8_small z : 0 <= z < 256 -> wrap_u8 z = z.
Proof. unfold wrap_u8. intros H. apply Z.mod_small; lia. Qed.

Lemma wrap_u32_small z : 0 <= z < 2 ^ 32 -> wrap_u32 z = z.
Proof. unfold wrap_u32. intros H. apply Z.mod_small; lia. Qed.

(** ** Bit-level facts shared by the codec and the analyzer *)

Lemma land_ones_mod z k : 0 <= k -> Z.land z (2 ^ k - 1) = z mod 2 ^ k.
Proof.
  intros Hk. rewrite <- Z.land_ones by lia.
  f_equal. rewrite Z.ones_equiv. lia.
Qed.

Lemma testbit_high_small lo k n :
  0 <= lo < 2 ^ k -> 0 <= k <= n -> Z.testbit lo n = false.
Proof.
  intros Hlo Hk.
  rewrite <- (Z.mod_small lo (2 ^ k)) by lia.
  apply Z.mod_pow2_bits_high. lia.
Qed.

Lemma land_shiftl_small hi lo k :
  0 <= k -> 0 <= lo < 2 ^ k -> Z.land (Z.shiftl hi k) lo = 0.
Proof.
  intros Hk Hlo. apply Z.bits_inj'. intros n Hn.
  rewrite Z.land_spec, Z.bits_0.
  destruct (Z.lt_ge_cases n k) as [Hlt|Hge].
  - rewrite Z.shiftl_spec_low by lia. reflexivity.
  - rewrite (testbit_high_small lo k n) by lia. apply andb_false_r.
Qed.

Lemma lor_disjoint_add hi lo k :
  0 <= k -> 0 <= lo < 2 ^ k ->
  Z.lor (Z.shiftl hi k) lo = hi * 2 ^ k + lo.
Proof.
  intros Hk Hlo.
  rewrite <- Z.shiftl_mul_pow2 by lia.
  rewrite <- Z.lxor_lor by (apply land_shiftl_small; lia).
  symmetry. apply Z.add_nocarry_lxor. apply land_shiftl_small; lia.
Qed.

Lemma lor_low_mul lo hi k :
  0 <= k -> 0 <= lo < 2 ^ k -> Z.lor lo (hi * 2 ^ k) = lo + hi * 2 ^ k.
Proof.
  intros Hk Hlo.
  rewrite <- (Z.shiftl_mul_pow2 hi k) at 1 by lia.
  rewrite Z.lor_comm, lor_disjoint_add by lia. lia.
Qed.

(** A property of all [z] below [n] checked by evaluation. *)
Lemma Z_below_forallb (P : Z -> bool) (n : nat) :
  forallb P (map Z.of_nat (seq 0 n)) = true ->
  forall z, 0 <= z < Z.of_nat n -> P z = true.
Proof.
  intros Hall z Hz.
  rewrite forallb_forall in Hall. apply Hall.
  apply in_map_iff. exists (Z.to_nat z). split; [lia|].
  apply in_seq. lia.
Qed.

Lemma low7_facts v :
  0 <= v < 128 ->
  Z.lor v 128 = v + 128 /\ Z.land (v + 128) 127 = v /\
  Z.land (v + 128) 128 = 128 /\ Z.land v 127 = v /\ Z.land v 128 = 0.
Proof.
  intros Hv.
  pose proof (Z_below_forallb
    (fun v => (Z.lor v 128 =? v + 128) && (Z.land (v + 128) 127 =? v) &&
              (Z.land (v + 128) 128 =? 128) && (Z.land v 127 =? v) &&
              (Z.land v 128 =? 0)) 128 eq_refl v Hv) as H.
  simpl in H. rewrite !andb_true_iff, !Z.eqb_eq in H.
  tauto.
Qed.

(** ** compression_utils.cpp *)

Module CompressionUtils.

(** [while (value >= 128) { output.push_back(value & 0x7F); value >>= 7; }
    output.push_back(value | 0x80);] *)
Equations? vbyteEncode_loop (value : Z) (output : list Z) : list Z
  by wf (Z.to_nat value) lt :=
  vbyteEncode_loop value output with decide (128 <= value) => {
    | left _ :=
        vbyteEncode_loop (Z.shiftr value 7)
                         (output ++ [wrap_u8 (Z.land value 0x7F)]);
    | right _ := output ++ [wrap_u8 (Z.lor value 0x80)] }.
Proof.
  rewrite Z.shiftr_div_pow2 by lia. change (2 ^ 7) with 128.
  assert (value / 128 < value) by (apply Z.div_lt; lia).
  assert (0 <= value / 128) by (apply Z.div_pos; lia).
  lia.
Qed.

Definition vbyteEncode (value : Z) (output : list Z) : except (list Z) :=
  if value <? 0 then Throw invalid_argument
  else Ok (vbyteEncode_loop value output).

(** The body of [while (offset < data.size())] in [vbyteDecode]; [rest] is
    [data] from [offset] on.  The left shift of an [int] is taken modulo
    2^32 (two's complement). *)
Fixpoint vbyteDecode_loop (rest : list Z) (offset : nat) (result shift : Z)
  : except (Z * nat) :=
  match rest with
  | [] => Ok (result, offset)
  | byte :: rest' =>
      let offset := S offset in
      let result :=
        Z.lor result (wrap_int (Z.shiftl (Z.land byte 0x7F) shift)) in
      if negb (Z.land byte 0x80 =? 0) then Ok (result, offset)
      else
        let shift := shift + 7 in
        if 28 <? shift then Throw overflow_error
        else vbyteDecode_loop rest' offset result shift
  end.

Definition vbyteDecode (data : list Z) (offset : nat) : except (Z * nat) :=
  if (length data <=? offset)%nat then Throw out_of_range
  else vbyteDecode_loop (drop offset data) offset 0 0.

(** [while (value > 0) { size++; value >>= 7; }] *)
Equations? vbyteSize_loop (value : Z) (size : nat) : nat
  by wf (Z.to_nat value) lt :=
  vbyteSize_loop value size with decide (0 < value) => {
    | left _ := vbyteSize_loop (Z.shiftr value 7) (S size);
    | right _ := size }.
Proof.
  rewrite Z.shiftr_div_pow2 by lia. change (2 ^ 7) with 128.
  assert (value / 128 < value) by (apply Z.div_lt; lia).
  assert (0 <= value / 128) by (apply Z.div_pos; lia).
  lia.
Qed.

Definition vbyteSize (value : Z) : nat :=
  if value <? 0 then 0%nat
  else if value =? 0 then 1%nat
  else vbyteSize_loop value 0.

Lemma vbyteDecode_loop_offset rest offset result shift v offset' :
  vbyteDecode_loop rest offset result shift = Ok (v, offset') ->
  (offset <= offset' <= offset + length rest)%nat /\
  (rest <> [] -> (offset < offset')%nat).
Proof.
  revert offset result shift.
  induction rest as [|byte rest IH]; intros offset result shift; simpl.
  - intros [= <- <-]. split; [lia|congruence].
  - destruct (negb (Z.land byte 128 =? 0)).
    + intros [= <- <-]. split; [lia|intros _; lia].
    + destruct (28 <? shift + 7); [discriminate|].
      intros H. apply IH in H. split; [lia|intros _; lia].
Qed.

Lemma vbyteDecode_offset data offset v offset' :
  vbyteDecode data offset = Ok (v, offset') ->
  (offset < offset' <= length data)%nat.
Proof.
  unfold vbyteDecode.
  destruct (Nat.leb_spec (length data) offset) as [Hle|Hlt]; [discriminate|].
  intros H. apply vbyteDecode_loop_offset in H.
  rewrite length_drop in H.
  destruct H as [H1 H2]. split; [|lia].
  apply H2. intros Hnil.
  apply (f_equal length) in Hnil. rewrite length_drop in Hnil. simpl in Hnil. lia.
Qed.

(** The [while (offset < data.size())] loop of [decompressPostingList]; an
    exception of [vbyteDecode] is rethrown as [runtime_error]. *)
Equations? decompress_loop (data : list Z) (offset : nat) (lastDocId : Z)
  (postings : list (Z * Z)) : except (list (Z * Z))
  by wf (length data - offset)%nat lt :=
  decompress_loop data offset lastDocId postings
    with decide (offset < length data)%nat => {
    | right _ := Ok postings;
    | left _ with inspect (vbyteDecode data offset) => {
      | exist _ (Throw e) _ := Throw runtime_error;
      | exist _ (Ok (delta, offset1)) Hdelta
          with inspect (vbyteDecode data offset1) => {
        | exist _ (Throw e) _ := Throw runtime_error;
        | exist _ (Ok (frequency, offset2)) Hfreq :=
            let lastDocId := wrap_int (lastDocId + delta) in
            decompress_loop data offset2 lastDocId
                            (postings ++ [(lastDocId, frequency)]) } } }.
Proof.
  apply vbyteDecode_offset in Hdelta, Hfreq. lia.
Qed.

Definition decompressPostingList (data : list Z) : except (list (Z * Z)) :=
  match data with
  | [] => Ok []
  | _ => decompress_loop data 0 0 []
  end.

(** The [for] loop of [compressPostingList]. *)
Fixpoint compress_loop (postings : list (Z * Z)) (lastDocId : Z)
  (compressed : list Z) : except (list Z) :=
  match postings with
  | [] => Ok compressed
  | (docId, frequency) :: postings' =>
      if docId <? lastDocId then Throw invalid_argument
      else if frequency <=? 0 then Throw invalid_argument
      else
        let delta := wrap_int (docId - lastDocId) in
        compressed ← vbyteEncode delta compressed;
        compressed ← vbyteEncode frequency compressed;
        compress_loop postings' docId compressed
  end.

Definition compressPostingList (postings : list (Z * Z)) : except (list Z) :=
  match postings with
  | [] => Ok []
  | _ => compress_loop postings 0 []
  end.


(** *** Unfolding equations of the loops *)

Lemma vbyteEncode_loop_eq value output :
  vbyteEncode_loop value output =
  if decide (128 <= value)
  then vbyteEncode_loop (Z.shiftr value 7)
                        (output ++ [wrap_u8 (Z.land value 0x7F)])
  else output ++ [wrap_u8 (Z.lor value 0x80)].
Proof.
  rewrite vbyteEncode_loop_equation_1.
  destruct (decide (128 <= value)); reflexivity.
Qed.

Lemma vbyteSize_loop_eq value size :
  vbyteSize_loop value size =
  if decide (0 < value) then vbyteSize_loop (Z.shiftr value 7) (S size)
  else size.
Proof.
  rewrite vbyteSize_loop_equation_1.
  destruct (decide (0 < value)); reflexivity.
Qed.

Lemma decompress_loop_eq data offset lastDocId postings :
  decompress_loop data offset lastDocId postings =
  if decide (offset < length data)%nat then
    match vbyteDecode data offset with
    | Throw _ => Throw runtime_error
    | Ok (delta, offset1) =>
        match vbyteDecode data offset1 with
        | Throw _ => Throw runtime_error
        | Ok (frequency, offset2) =>
            let lastDocId := wrap_int (lastDocId + delta) in
            decompress_loop data offset2 lastDocId
                            (postings ++ [(lastDocId, frequency)])
        end
    end
  else Ok postings.
Proof.
  rewrite decompress_loop_equation_1.
  destruct (decide (offset < length data)%nat) as [Hlt|Hge]; simpl; [|reflexivity].
  destruct (vbyteDecode data offset) as [[delta offset1]|e]; [|reflexivity].
  destruct (vbyteDecode data offset1) as [[frequency offset2]|e]; reflexivity.
Qed.

(** *** VByte: decoding inverts encoding *)

Lemma shiftr7_div v : Z.shiftr v 7 = v / 128.
Proof. rewrite Z.shiftr_div_pow2 by lia. reflexivity. Qed.

Lemma land127_mod v : Z.land v 127 = v mod 128.
Proof. apply (land_ones_mod v 7). lia. Qed.

Lemma vbyteEncode_loop_app v : 0 <= v ->
  forall output, vbyteEncode_loop v output = output ++ vbyteEncode_loop v [].
Proof.
  revert v. apply (Z_lt_induction
    (fun v => forall output,
       vbyteEncode_loop v output = output ++ vbyteEncode_loop v [])).
  intros v IH output.
  rewrite (vbyteEncode_loop_eq v output), (vbyteEncode_loop_eq v []).
  destruct (decide (128 <= v)) as [Hge|Hlt]; [|reflexivity].
  rewrite shiftr7_div.
  assert (0 <= v / 128 < v) as Hdiv
    by (split; [apply Z.div_pos; lia|apply Z.div_lt; lia]).
  rewrite (IH _ Hdiv (output ++ _)), (IH _ Hdiv ([] ++ _)).
  rewrite <- !app_assoc. reflexivity.
Qed.

Lemma vbyteEncode_loop_step v : 128 <= v ->
  vbyteEncode_loop v [] = (v mod 128) :: vbyteEncode_loop (v / 128) [].
Proof.
  intros Hge. rewrite vbyteEncode_loop_eq.
  destruct (decide (128 <= v)); [|lia].
  rewrite shiftr7_div, land127_mod.
  rewrite wrap_u8_small by (pose proof (Z.mod_pos_bound v 128); lia).
  rewrite vbyteEncode_loop_app by (apply Z.div_pos; lia).
  reflexivity.
Qed.

Lemma vbyteEncode_loop_last v : 0 <= v < 128 ->
  vbyteEncode_loop v [] = [v + 128].
Proof.
  intros Hv. rewrite vbyteEncode_loop_eq.
  destruct (decide (128 <= v)); [lia|].
  destruct (low7_facts v Hv) as (-> & _).
  rewrite wrap_u8_small by lia. reflexivity.
Qed.

(** Decoding the encoding of [v] from an accumulator [result] that holds
    [shift = 7 * k] bits. *)
Lemma vbyteDecode_loop_encode v : 0 <= v ->
  forall (k : Z) rest offset result,
    0 <= k -> 0 <= result < 2 ^ (7 * k) ->
    result + v * 2 ^ (7 * k) < 2 ^ 31 ->
    vbyteDecode_loop (vbyteEncode_loop v [] ++ rest) offset result (7 * k) =
    Ok (result + v * 2 ^ (7 * k),
        (offset + length (vbyteEncode_loop v []))%nat).
Proof.
  intros Hv0. generalize Hv0. revert v Hv0. apply (Z_lt_induction
    (fun v => 0 <= v -> forall (k : Z) rest offset result,
       0 <= k -> 0 <= result < 2 ^ (7 * k) ->
       result + v * 2 ^ (7 * k) < 2 ^ 31 ->
       vbyteDecode_loop (vbyteEncode_loop v [] ++ rest) offset result (7 * k) =
       Ok (result + v * 2 ^ (7 * k),
           (offset + length (vbyteEncode_loop v []))%nat))).
  intros v IH Hv k rest offset result Hk Hres Hfit.
  assert (0 < 2 ^ (7 * k)) as Hpow by (apply Z.pow_pos_nonneg; lia).
  destruct (Z_lt_ge_dec v 128) as [Hlt|Hge].
  - (* last byte *)
    rewrite vbyteEncode_loop_last by lia. simpl.
    destruct (low7_facts v ltac:(lia)) as (_ & -> & -> & _). simpl.
    rewrite Z.shiftl_mul_pow2 by lia.
    rewrite wrap_int_small by (unfold is_int; nia).
    rewrite lor_low_mul by lia.
    f_equal. f_equal; lia.
  - rewrite vbyteEncode_loop_step by lia. simpl.
    pose proof (Z.mod_pos_bound v 128 ltac:(lia)) as Hmod.
    destruct (low7_facts (v mod 128) Hmod) as (_ & _ & _ & -> & ->). simpl.
    pose proof (Z.div_mod v 128 ltac:(lia)) as Hdm.
    assert (0 <= v / 128 < v) as Hdiv
      by (split; [apply Z.div_pos; lia|apply Z.div_lt; lia]).
    assert (2 ^ (7 * (k + 1)) = 128 * 2 ^ (7 * k)) as Hpow1.
    { replace (7 * (k + 1)) with (7 + 7 * k) by lia.
      rewrite Z.pow_add_r by lia. reflexivity. }
    assert (7 * k + 7 <= 28) as Hshift.
    { destruct (Z_le_gt_dec (k + 1) 4) as [|Hbig]; [lia|exfalso].
      assert (2 ^ 31 <= 2 ^ (7 * (k + 1))) by (apply Z.pow_le_mono_r; lia).
      nia. }
    destruct (Z.ltb_spec 28 (7 * k + 7)) as [|_]; [lia|].
    rewrite Z.shiftl_mul_pow2 by lia.
    rewrite wrap_int_small by (unfold is_int; nia).
    rewrite lor_low_mul by lia.
    replace (7 * k + 7) with (7 * (k + 1)) by lia.
    rewrite (IH (v / 128) Hdiv ltac:(lia) (k + 1) rest (S offset)); [|lia|nia|nia].
    f_equal. f_equal; [nia|lia].
Qed.

Lemma vbyteDecode_encode v rest pre :
  0 <= v < 2 ^ 31 ->
  vbyteDecode (pre ++ vbyteEncode_loop v [] ++ rest) (length pre) =
  Ok (v, (length pre + length (vbyteEncode_loop v []))%nat).
Proof.
  intros Hv. unfold vbyteDecode.
  assert (vbyteEncode_loop v [] <> []) as Hne.
  { destruct (Z_lt_ge_dec v 128).
    - rewrite vbyteEncode_loop_last by lia. discriminate.
    - rewrite vbyteEncode_loop_step by lia. discriminate. }
  destruct (Nat.leb_spec (length (pre ++ vbyteEncode_loop v [] ++ rest))
                         (length pre)) as [Hle|_].
  { rewrite !length_app in Hle.
    destruct (vbyteEncode_loop v []); [congruence|simpl in Hle; lia]. }
  rewrite drop_app_length.
  pose proof (vbyteDecode_loop_encode v ltac:(lia) 0 rest (length pre) 0
                ltac:(lia) ltac:(simpl; lia) ltac:(simpl; lia)) as H.
  change (7 * 0) with 0 in H. change (2 ^ 0) with 1 in H.
  rewrite Z.mul_1_r, Z.add_0_l in H. exact H.
Qed.

(** *** VByte: the size estimate is the encoded length *)

Lemma vbyteSize_loop_acc v : 0 <= v ->
  forall size, vbyteSize_loop v size = (size + vbyteSize_loop v 0)%nat.
Proof.
  intros Hv0. generalize Hv0. revert v Hv0. apply (Z_lt_induction
    (fun v => 0 <= v -> forall size,
       vbyteSize_loop v size = (size + vbyteSize_loop v 0)%nat)).
  intros v IH Hv size.
  rewrite (vbyteSize_loop_eq v size), (vbyteSize_loop_eq v 0).
  destruct (decide (0 < v)) as [Hpos|Hz]; [|lia].
  rewrite shiftr7_div.
  assert (0 <= v / 128 < v) as Hdiv
    by (split; [apply Z.div_pos; lia|apply Z.div_lt; lia]).
  rewrite (IH _ Hdiv ltac:(lia) (S size)), (IH _ Hdiv ltac:(lia) 1%nat). lia.
Qed.

Lemma vbyteSize_loop_step v : 0 < v ->
  vbyteSize_loop v 0 = S (vbyteSize_loop (v / 128) 0).
Proof.
  intros Hv. rewrite vbyteSize_loop_eq.
  destruct (decide (0 < v)); [|lia].
  rewrite shiftr7_div, vbyteSize_loop_acc by (apply Z.div_pos; lia).
  reflexivity.
Qed.

Lemma vbyteSize_loop_zero : vbyteSize_loop 0 0 = 0%nat.
Proof. reflexivity. Qed.

Lemma vbyteEncode_loop_length v : 0 < v ->
  length (vbyteEncode_loop v []) = vbyteSize_loop v 0.
Proof.
  intros Hv0. generalize Hv0. assert (0 <= v) as Hnn by lia.
  revert v Hnn Hv0. apply (Z_lt_induction
    (fun v => 0 < v -> 0 < v ->
       length (vbyteEncode_loop v []) = vbyteSize_loop v 0)).
  intros v IH Hv _.
  rewrite vbyteSize_loop_step by lia.
  destruct (Z_lt_ge_dec v 128) as [Hlt|Hge].
  - rewrite vbyteEncode_loop_last by lia.
    rewrite Z.div_small by lia. reflexivity.
  - rewrite vbyteEncode_loop_step by lia. simpl. f_equal.
    assert (0 < v / 128 < v) as Hdiv.
    { split; [|apply Z.div_lt; lia].
      apply Z.div_str_pos. lia. }
    apply IH; lia.
Qed.

(** The number of 7-bit groups: [128^(n-1) <= v < 128^n]. *)
Lemma vbyteSize_loop_groups v : 0 < v ->
  128 ^ (Z.of_nat (vbyteSize_loop v 0) - 1) <= v
  < 128 ^ Z.of_nat (vbyteSize_loop v 0).
Proof.
  intros Hv0. generalize Hv0. assert (0 <= v) as Hnn by lia.
  revert v Hnn Hv0. apply (Z_lt_induction
    (fun v => 0 < v -> 0 < v ->
       128 ^ (Z.of_nat (vbyteSize_loop v 0) - 1) <= v
       < 128 ^ Z.of_nat (vbyteSize_loop v 0))).
  intros v IH Hv _.
  rewrite vbyteSize_loop_step by lia.
  destruct (Z_lt_ge_dec v 128) as [Hlt|Hge].
  - rewrite Z.div_small by lia. rewrite vbyteSize_loop_zero. simpl. lia.
  - assert (0 < v / 128 < v) as Hdiv.
    { split; [|apply Z.div_lt; lia].
      apply Z.div_str_pos. lia. }
    specialize (IH (v / 128) ltac:(lia) ltac:(lia) ltac:(lia)).
    set (n := vbyteSize_loop (v / 128) 0) in *.
    assert (1 <= Z.of_nat n).
    { destruct n; [|lia]. simpl in IH. lia. }
    pose proof (Z.div_mod v 128 ltac:(lia)) as Hdm.
    pose proof (Z.mod_pos_bound v 128 ltac:(lia)) as Hmod.
    replace (Z.of_nat (S n) - 1) with (1 + (Z.of_nat n - 1)) by lia.
    replace (Z.of_nat (S n)) with (1 + Z.of_nat n) by lia.
    rewrite !Z.pow_add_r by lia.
    change (128 ^ 1) with 128. nia.
Qed.

(** *** Posting lists *)

(** A [std::pair<int, int>] whose components are C++ [int]s. *)
Definition posting_in_range (p : Z * Z) : Prop := is_int p.1 /\ is_int p.2.

(** What the loop of [compressPostingList] accepts, read off its two guards:
    no docId below its predecessor ([lastDocId], initially 0) and no
    frequency [<= 0]. *)
Fixpoint accepted_from (lastDocId : Z) (postings : list (Z * Z)) : Prop :=
  match postings with
  | [] => True
  | (docId, frequency) :: postings' =>
      lastDocId <= docId /\ 0 < frequency /\ accepted_from docId postings'
  end.

(** The byte layout: [vbyte(docId - lastDocId)] then [vbyte(freq)] per posting. *)
Fixpoint encode_postings (lastDocId : Z) (postings : list (Z * Z)) : list Z :=
  match postings with
  | [] => []
  | (docId, frequency) :: postings' =>
      vbyteEncode_loop (docId - lastDocId) [] ++
      vbyteEncode_loop frequency [] ++ encode_postings docId postings'
  end.

Lemma accepted_from_sorted lastDocId postings :
  accepted_from lastDocId postings <->
  Sorted Z.le (lastDocId :: map fst postings) /\
  Forall (fun p => 1 <= p.2) postings.
Proof.
  revert lastDocId.
  induction postings as [|[d f] P IH]; intros lastDocId; simpl.
  - split; [intros _|trivial]. split; repeat constructor.
  - rewrite IH. split.
    + intros (Hle & Hf & Hs & Hall). split.
      * constructor; [exact Hs|]. constructor. exact Hle.
      * constructor; [simpl; lia|exact Hall].
    + intros [Hs Hall].
      apply Sorted_inv in Hs as [Hs Hhd]. apply HdRel_inv in Hhd.
      apply Forall_cons in Hall as [Hf Hall]. simpl in Hf.
      repeat split; [lia|lia|exact Hs|exact Hall].
Qed.

Lemma vbyteEncode_nonneg v output :
  0 <= v -> vbyteEncode v output = Ok (output ++ vbyteEncode_loop v []).
Proof.
  intros Hv. unfold vbyteEncode.
  destruct (Z.ltb_spec v 0); [lia|].
  rewrite vbyteEncode_loop_app by lia. reflexivity.
Qed.

Lemma vbyteEncode_loop_nonempty v : 0 <= v -> vbyteEncode_loop v [] <> [].
Proof.
  intros Hv. destruct (Z_lt_ge_dec v 128).
  - rewrite vbyteEncode_loop_last by lia. discriminate.
  - rewrite vbyteEncode_loop_step by lia. discriminate.
Qed.

Lemma compress_loop_accepted postings : forall lastDocId compressed,
  Forall posting_in_range postings -> 0 <= lastDocId ->
  accepted_from lastDocId postings ->
  compress_loop postings lastDocId compressed =
  Ok (compressed ++ encode_postings lastDocId postings).
Proof.
  induction postings as [|[d f] P IH]; intros lastDocId compressed Hrange Hlast Hacc.
  - simpl. rewrite app_nil_r. reflexivity.
  - simpl in Hacc. destruct Hacc as (Hle & Hf & Hacc).
    apply Forall_cons in Hrange as [[Hd Hfr] Hrange].
    unfold is_int in Hd, Hfr. simpl in Hd, Hfr. simpl.
    destruct (Z.ltb_spec d lastDocId); [lia|].
    destruct (Z.leb_spec f 0); [lia|].
    rewrite wrap_int_small by (unfold is_int; lia).
    rewrite vbyteEncode_nonneg by lia. simpl.
    rewrite vbyteEncode_nonneg by lia. simpl.
    rewrite IH by (auto; lia).
    rewrite <- !app_assoc. reflexivity.
Qed.

Lemma compress_loop_rejected postings : forall lastDocId compressed,
  Forall posting_in_range postings -> 0 <= lastDocId ->
  ~ accepted_from lastDocId postings ->
  compress_loop postings lastDocId compressed = Throw invalid_argument.
Proof.
  induction postings as [|[d f] P IH]; intros lastDocId compressed Hrange Hlast Hrej.
  - simpl in Hrej. tauto.
  - apply Forall_cons in Hrange as [[Hd Hfr] Hrange].
    unfold is_int in Hd, Hfr. simpl in Hd, Hfr, Hrej. simpl.
    destruct (Z.ltb_spec d lastDocId); [reflexivity|].
    destruct (Z.leb_spec f 0); [reflexivity|].
    rewrite wrap_int_small by (unfold is_int; lia).
    rewrite vbyteEncode_nonneg by lia. simpl.
    rewrite vbyteEncode_nonneg by lia. simpl.
    apply IH; [exact Hrange|lia|]. intros Hacc. apply Hrej. auto.
Qed.

Lemma decompress_loop_encoded postings : forall lastDocId pre acc,
  Forall posting_in_range postings -> 0 <= lastDocId ->
  accepted_from lastDocId postings ->
  decompress_loop (pre ++ encode_postings lastDocId postings) (length pre)
                  lastDocId acc = Ok (acc ++ postings).
Proof.
  induction postings as [|[d f] P IH]; intros lastDocId pre acc Hrange Hlast Hacc.
  - simpl. rewrite !app_nil_r, decompress_loop_eq.
    destruct (decide (length pre < length pre)%nat); [lia|reflexivity].
  - simpl in Hacc. destruct Hacc as (Hle & Hf & Hacc).
    apply Forall_cons in Hrange as [[Hd Hfr] Hrange].
    unfold is_int in Hd, Hfr. simpl in Hd, Hfr.
    rewrite decompress_loop_eq.
    cbn [encode_postings].
    set (ed := vbyteEncode_loop (d - lastDocId) []).
    set (ef := vbyteEncode_loop f []).
    set (rest := encode_postings d P).
    destruct (decide (length pre < length (pre ++ ed ++ ef ++ rest))%nat)
      as [_|Hge].
    2:{ exfalso. apply Hge. rewrite !length_app.
        pose proof (vbyteEncode_loop_nonempty (d - lastDocId) ltac:(lia)).
        fold ed in H. destruct ed; [congruence|simpl; lia]. }
    unfold ed at 1. rewrite vbyteDecode_encode by lia. fold ed.
    replace (pre ++ ed ++ ef ++ rest) with ((pre ++ ed) ++ ef ++ rest)
      by (rewrite <- app_assoc; reflexivity).
    rewrite <- length_app.
    unfold ef at 1. rewrite vbyteDecode_encode by lia. fold ef.
    cbv zeta.
    replace (lastDocId + (d - lastDocId)) with d by lia.
    rewrite wrap_int_small by (unfold is_int; lia).
    replace ((pre ++ ed) ++ ef ++ rest) with (((pre ++ ed) ++ ef) ++ rest)
      by (rewrite <- !app_assoc; reflexivity).
    rewrite <- length_app.
    unfold rest. rewrite IH by (auto; lia).
    rewrite <- app_assoc. reflexivity.
Qed.

(** C2.  For every [0 <= v < 2^31]: [vbyteEncode] succeeds, [vbyteDecode] of
    its bytes from offset 0 returns [v] (and consumes all of them), the
    number of bytes is [vbyteSize v]; [vbyteSize 0 = 1], and for [v > 0]
    [vbyteSize v] is the number of 7-bit groups of [v]
    (127 -> 1, 128 -> 2, 16383 -> 2, 16384 -> 3). *)
Theorem vbyte_roundtrip_size (v : Z) :
  0 <= v < 2 ^ 31 ->
  (exists bytes,
      vbyteEncode v [] = Ok bytes /\
      vbyteDecode bytes 0 = Ok (v, length bytes) /\
      length bytes = vbyteSize v) /\
  (v = 0 -> vbyteSize v = 1%nat) /\
  (0 < v ->
   128 ^ (Z.of_nat (vbyteSize v) - 1) <= v < 128 ^ Z.of_nat (vbyteSize v)) /\
  vbyteSize 127 = 1%nat /\ vbyteSize 128 = 2%nat /\
  vbyteSize 16383 = 2%nat /\ vbyteSize 16384 = 3%nat.
Proof.
  intros Hv. split; [|split; [|split]].
  - exists (vbyteEncode_loop v []). split; [|split].
    + unfold vbyteEncode. destruct (Z.ltb_spec v 0); [lia|reflexivity].
    + pose proof (vbyteDecode_encode v [] [] Hv) as H.
      simpl in H. rewrite app_nil_r in H. exact H.
    + unfold vbyteSize. destruct (Z.ltb_spec v 0); [lia|].
      destruct (Z.eqb_spec v 0) as [->|Hne]; [reflexivity|].
      apply vbyteEncode_loop_length. lia.
  - intros ->. reflexivity.
  - intros Hpos. unfold vbyteSize.
    destruct (Z.ltb_spec v 0); [lia|].
    destruct (Z.eqb_spec v 0); [lia|].
    apply vbyteSize_loop_groups. exact Hpos.
  - repeat split; reflexivity.
Qed.

Lemma vbyte_roundtrip_size_witness :
  (exists bytes,
      vbyteEncode 16384 [] = Ok bytes /\
      vbyteDecode bytes 0 = Ok (16384, length bytes) /\
      length bytes = vbyteSize 16384) /\
  (16384 = 0 -> vbyteSize 16384 = 1%nat) /\
  (0 < 16384 ->
   128 ^ (Z.of_nat (vbyteSize 16384) - 1) <= 16384
   < 128 ^ Z.of_nat (vbyteSize 16384)) /\
  vbyteSize 127 = 1%nat /\ vbyteSize 128 = 2%nat /\
  vbyteSize 16383 = 2%nat /\ vbyteSize 16384 = 3%nat.
Proof. apply (vbyte_roundtrip_size 16384). lia. Defined.

Lemma sorted_from_zero (l : list Z) :
  Forall (fun d => 0 <= d) l -> Sorted Z.le l -> Sorted Z.le (0 :: l).
Proof.
  intros Hnn Hs. constructor; [exact Hs|].
  destruct l as [|d l]; constructor.
  apply Forall_cons in Hnn as [Hd _]. exact Hd.
Qed.

Lemma sorted_lt_le (l : list Z) : Sorted Z.lt l -> Sorted Z.le l.
Proof.
  induction 1 as [|d l Hs IH Hhd]; constructor; [exact IH|].
  destruct Hhd; constructor. lia.
Qed.

(** C1.  For every posting list of [int] pairs with DocIds (non-negative,
    as document identifiers are), sorted ascending by DocId and with every
    frequency [>= 1], [compressPostingList] succeeds and
    [decompressPostingList] of its bytes returns the list; the empty list
    compresses to the empty byte sequence. *)
Theorem compress_decompress_roundtrip (P : list (Z * Z)) :
  Forall posting_in_range P ->
  Forall (fun d => 0 <= d) (map fst P) ->
  Sorted Z.le (map fst P) ->
  Forall (fun p => 1 <= p.2) P ->
  (exists data,
      compressPostingList P = Ok data /\
      decompressPostingList data = Ok P) /\
  compressPostingList [] = Ok [].
Proof.
  intros Hrange Hnn Hsorted Hfreq. split; [|reflexivity].
  assert (accepted_from 0 P) as Hacc.
  { apply accepted_from_sorted. split; [|exact Hfreq].
    apply sorted_from_zero; assumption. }
  destruct P as [|p P].
  { exists []. split; reflexivity. }
  exists (encode_postings 0 (p :: P)). split.
  - unfold compressPostingList.
    rewrite compress_loop_accepted by (auto; lia). reflexivity.
  - unfold decompressPostingList.
    pose proof (decompress_loop_encoded (p :: P) 0 [] [] Hrange
                  ltac:(lia) Hacc) as H.
    change (decompress_loop (encode_postings 0 (p :: P)) 0 0 [] = Ok (p :: P))
      in H.
    destruct (encode_postings 0 (p :: P)) eqn:He; [|exact H].
    exfalso. destruct p as [d f]. simpl in He, Hacc.
    apply app_eq_nil in He as [He _].
    apply (vbyteEncode_loop_nonempty (d - 0)); [lia|exact He].
Qed.

Lemma compress_decompress_roundtrip_witness :
  (exists data,
      compressPostingList [(1, 5); (3, 2); (3, 1); (1000000, 3)] = Ok data /\
      decompressPostingList data = Ok [(1, 5); (3, 2); (3, 1); (1000000, 3)]) /\
  compressPostingList [] = Ok [].
Proof.
  apply (compress_decompress_roundtrip [(1, 5); (3, 2); (3, 1); (1000000, 3)]).
  - repeat constructor; simpl; lia.
  - repeat constructor; simpl; lia.
  - repeat constructor; simpl; lia.
  - repeat constructor; simpl; lia.
Defined.

(** C7 as stated fails: a list with a repeated DocId is not strictly
    ascending, and [compressPostingList] encodes it (delta 0). *)
Lemma compress_accepts_repeated_docId :
  ~ Sorted Z.lt (map fst [(1, 1); (1, 1)]) /\
  compressPostingList [(1, 1); (1, 1)] = Ok [129; 129; 128; 129].
Proof.
  split; [|reflexivity].
  intros Hs. simpl in Hs.
  apply Sorted_inv in Hs as [_ Hhd]. apply HdRel_inv in Hhd. lia.
Qed.

(** C7, amended.  On [int] pairs, [compressPostingList] throws
    [invalid_argument] exactly when some DocId is smaller than its
    predecessor (the first one compared with 0) or some frequency is [<= 0];
    it succeeds on every list that is ascending from 0 (equal neighbours
    allowed) with positive frequencies, hence on every strictly ascending
    list of DocIds with positive frequencies. *)
Theorem compress_fails_iff_rejected (P : list (Z * Z)) :
  Forall posting_in_range P ->
  (Sorted Z.le (0 :: map fst P) /\ Forall (fun p => 1 <= p.2) P ->
   is_Ok (compressPostingList P)) /\
  (~ (Sorted Z.le (0 :: map fst P) /\ Forall (fun p => 1 <= p.2) P) ->
   compressPostingList P = Throw invalid_argument) /\
  (Sorted Z.lt (map fst P) /\ Forall (fun d => 0 <= d) (map fst P) /\
   Forall (fun p => 1 <= p.2) P ->
   is_Ok (compressPostingList P)).
Proof.
  intros Hrange.
  assert (Sorted Z.le (0 :: map fst P) /\ Forall (fun p => 1 <= p.2) P ->
          is_Ok (compressPostingList P)) as Hok.
  { intros Hacc. apply accepted_from_sorted in Hacc.
    destruct P as [|p P]; [exact I|].
    unfold compressPostingList.
    rewrite compress_loop_accepted by (auto; lia). exact I. }
  split; [exact Hok|split].
  - intros Hrej. rewrite <- accepted_from_sorted in Hrej.
    destruct P as [|p P]; [simpl in Hrej; tauto|].
    unfold compressPostingList.
    apply compress_loop_rejected; [exact Hrange|lia|exact Hrej].
  - intros (Hs & Hnn & Hfreq). apply Hok. split; [|exact Hfreq].
    apply sorted_from_zero; [exact Hnn|]. apply sorted_lt_le, Hs.
Qed.

Lemma compress_fails_iff_rejected_witness :
  (Sorted Z.le (0 :: map fst [(3, 2); (1, 5)]) /\
   Forall (fun p => 1 <= p.2) [(3, 2); (1, 5)] ->
   is_Ok (compressPostingList [(3, 2); (1, 5)])) /\
  (~ (Sorted Z.le (0 :: map fst [(3, 2); (1, 5)]) /\
      Forall (fun p => 1 <= p.2) [(3, 2); (1, 5)]) ->
   compressPostingList [(3, 2); (1, 5)] = Throw invalid_argument) /\
  (Sorted Z.lt (map fst [(3, 2); (1, 5)]) /\
   Forall (fun d => 0 <= d) (map fst [(3, 2); (1, 5)]) /\
   Forall (fun p => 1 <= p.2) [(3, 2); (1, 5)] ->
   is_Ok (compressPostingList [(3, 2); (1, 5)])).
Proof.
  apply (compress_fails_iff_rejected [(3, 2); (1, 5)]).
  repeat constructor; simpl; lia.
Defined.

(** *** Shape of an encoded number *)

Lemma vbyteSize_encoded v : 0 <= v ->
  vbyteSize v = length (vbyteEncode_loop v []).
Proof.
  intros Hv. unfold vbyteSize.
  destruct (Z.ltb_spec v 0); [lia|].
  destruct (Z.eqb_spec v 0) as [->|Hne]; [reflexivity|].
  symmetry. apply vbyteEncode_loop_length. lia.
Qed.

(** Every byte but the last has the high bit clear; at most [n] of them
    when [v] has at most [n + 1] groups of 7 bits. *)
Lemma vbyteEncode_loop_shape (n : nat) : forall v,
  0 <= v < 128 ^ (Z.of_nat n + 1) ->
  exists body last,
    vbyteEncode_loop v [] = body ++ [last] /\
    Forall (fun b => 0 <= b < 128) body /\ 128 <= last < 256 /\
    (length body <= n)%nat.
Proof.
  induction n as [|n IH]; intros v Hv.
  - simpl in Hv. exists [], (v + 128).
    rewrite vbyteEncode_loop_last by lia.
    split; [reflexivity|]. split; [constructor|]. split; [lia|simpl; lia].
  - destruct (Z_lt_ge_dec v 128) as [Hlt|Hge].
    + exists [], (v + 128).
      rewrite vbyteEncode_loop_last by lia.
      split; [reflexivity|]. split; [constructor|]. split; [lia|simpl; lia].
    + rewrite vbyteEncode_loop_step by lia.
      assert (0 <= v / 128 < 128 ^ (Z.of_nat n + 1)) as Hdiv.
      { split; [apply Z.div_pos; lia|].
        apply Z.div_lt_upper_bound; [lia|].
        replace (Z.of_nat (S n) + 1) with (1 + (Z.of_nat n + 1)) in Hv by lia.
        rewrite Z.pow_add_r in Hv by lia. change (128 ^ 1) with 128 in Hv. lia. }
      destruct (IH _ Hdiv) as (body & last & -> & Hbody & Hlast & Hlen).
      exists (v mod 128 :: body), last.
      split; [reflexivity|]. split; [|split; [exact Hlast|simpl; lia]].
      constructor; [|exact Hbody].
      apply Z.mod_pos_bound. lia.
Qed.

(** *** Decoding: what one call reads *)

Lemma wrap_int_top_group x :
  0 <= x < 128 ->
  exists y, - 8 <= y < 8 /\ wrap_int (x * 2 ^ 28) = y * 2 ^ 28.
Proof.
  intros Hx. unfold wrap_int.
  set (q := (x * 2 ^ 28 + 2 ^ 31) / 2 ^ 32).
  pose proof (Z.div_mod (x * 2 ^ 28 + 2 ^ 31) (2 ^ 32) ltac:(lia)) as Hdm.
  pose proof (Z.mod_pos_bound (x * 2 ^ 28 + 2 ^ 31) (2 ^ 32) ltac:(lia)) as Hmod.
  fold q in Hdm. exists (x - 16 * q). lia.
Qed.

Lemma vbyteDecode_loop_bounds rest : forall offset result k v offset',
  0 <= k <= 4 -> 0 <= result < 2 ^ (7 * k) ->
  vbyteDecode_loop rest offset result (7 * k) = Ok (v, offset') ->
  is_int v /\ (offset' <= offset + Z.to_nat (5 - k))%nat.
Proof.
  induction rest as [|byte rest IH]; intros offset result k v offset' Hk Hres.
  - simpl. intros [= <- <-]. split; [|lia].
    assert (2 ^ (7 * k) <= 2 ^ 28) by (apply Z.pow_le_mono_r; lia).
    unfold is_int. lia.
  - cbn [vbyteDecode_loop].
    set (x := Z.land byte 127).
    assert (0 <= x < 128) as Hx.
    { unfold x. rewrite land127_mod. apply Z.mod_pos_bound. lia. }
    rewrite Z.shiftl_mul_pow2 by lia.
    assert (0 < 2 ^ (7 * k)) as Hpow by (apply Z.pow_pos_nonneg; lia).
    destruct (Z_le_gt_dec k 3) as [Hk3|Hk4].
    + assert (2 ^ (7 * (k + 1)) = 128 * 2 ^ (7 * k)) as Hpow1.
      { replace (7 * (k + 1)) with (7 + 7 * k) by lia.
        rewrite Z.pow_add_r by lia. reflexivity. }
      assert (2 ^ (7 * (k + 1)) <= 2 ^ 28) as Hle
        by (apply Z.pow_le_mono_r; lia).
      rewrite wrap_int_small by (unfold is_int; nia).
      rewrite lor_low_mul by lia.
      destruct (negb (Z.land byte 128 =? 0)).
      * intros [= <- <-]. split; [unfold is_int; nia|lia].
      * destruct (Z.ltb_spec 28 (7 * k + 7)); [discriminate|].
        replace (7 * k + 7) with (7 * (k + 1)) by lia.
        intros Hloop. apply IH in Hloop; [|lia|nia].
        destruct Hloop as [Hv Hoff]. split; [exact Hv|].
        replace (Z.to_nat (5 - k)) with (S (Z.to_nat (5 - (k + 1)))) by lia. lia.
    + assert (k = 4) as -> by lia.
      change (7 * 4) with 28 in *.
      destruct (wrap_int_top_group x Hx) as (y & Hy & ->).
      rewrite lor_low_mul by lia.
      destruct (negb (Z.land byte 128 =? 0)).
      * intros [= <- <-]. split; [unfold is_int; lia|simpl; lia].
      * destruct (Z.ltb_spec 28 (28 + 7)); [discriminate|lia].
Qed.

Lemma vbyteDecode_is_int data offset v offset' :
  vbyteDecode data offset = Ok (v, offset') ->
  is_int v /\ (offset' <= offset + 5)%nat.
Proof.
  unfold vbyteDecode. destruct (_ <=? _)%nat; [discriminate|].
  intros Hloop.
  apply (vbyteDecode_loop_bounds _ _ 0 0) in Hloop; [|lia|simpl; lia].
  exact Hloop.
Qed.

Lemma vbyteDecode_loop_unterminated rest : forall offset result k,
  0 <= k <= 4 -> Forall (fun b => Z.land b 0x80 = 0) rest ->
  ((Z.to_nat (5 - k) <= length rest)%nat ->
   vbyteDecode_loop rest offset result (7 * k) = Throw overflow_error) /\
  ((length rest < Z.to_nat (5 - k))%nat ->
   exists v, vbyteDecode_loop rest offset result (7 * k) =
             Ok (v, (offset + length rest)%nat)).
Proof.
  induction rest as [|byte rest IH]; intros offset result k Hk Hall.
  - split; [simpl; lia|]. intros _. exists result. simpl.
    rewrite Nat.add_0_r. reflexivity.
  - apply Forall_cons in Hall as [Hbyte Hall].
    cbn [vbyteDecode_loop length]. rewrite Hbyte. cbn [Z.eqb negb].
    destruct (Z.ltb_spec 28 (7 * k + 7)) as [Hbig|Hsmall].
    + split; [reflexivity|lia].
    + replace (7 * k + 7) with (7 * (k + 1)) by lia.
      destruct (IH (S offset)
                  (Z.lor result (wrap_int (Z.shiftl (Z.land byte 127) (7 * k))))
                  (k + 1) ltac:(lia) Hall) as [Hthrow Hok].
      split.
      * intros Hlen. apply Hthrow. lia.
      * intros Hlen. destruct Hok as [v Hv]; [lia|].
        exists v. rewrite Hv. f_equal. f_equal. lia.
Qed.

(** *** [estimateCompressedSize] and [validateCompressedData] *)

(** The [for] loop of [estimateCompressedSize]. *)
Fixpoint estimate_loop (postings : list (Z * Z)) (lastDocId : Z)
  (totalSize : nat) : nat :=
  match postings with
  | [] => totalSize
  | (docId, frequency) :: postings' =>
      let delta := wrap_int (docId - lastDocId) in
      estimate_loop postings' docId
                    (totalSize + vbyteSize delta + vbyteSize frequency)
  end.

Definition estimateCompressedSize (postings : list (Z * Z)) : nat :=
  match postings with
  | [] => 0%nat
  | _ => estimate_loop postings 0 0
  end.

(** The [while (offset < data.size())] loop of [validateCompressedData];
    [catch (...)] turns an exception of [vbyteDecode] into [false]. *)
Equations? validate_loop (data : list Z) (offset : nat) (lastDocId : Z) : bool
  by wf (length data - offset)%nat lt :=
  validate_loop data offset lastDocId
    with decide (offset < length data)%nat => {
    | right _ := true;
    | left _ with inspect (vbyteDecode data offset) => {
      | exist _ (Throw e) _ := false;
      | exist _ (Ok (delta, offset1)) Hdelta with inspect (delta <? 0) => {
        | exist _ true _ := false;
        | exist _ false _ with inspect (vbyteDecode data offset1) => {
          | exist _ (Throw e) _ := false;
          | exist _ (Ok (frequency, offset2)) Hfreq :=
              if frequency <=? 0 then false
              else
                let lastDocId := wrap_int (lastDocId + delta) in
                if (lastDocId <? 0) || (1000000000 <? lastDocId) then false
                else validate_loop data offset2 lastDocId } } } }.
Proof.
  apply vbyteDecode_offset in Hdelta, Hfreq. lia.
Qed.

Definition validateCompressedData (data : list Z) : bool :=
  match data with
  | [] => true
  | _ => validate_loop data 0 0
  end.

Lemma validate_loop_eq data offset lastDocId :
  validate_loop data offset lastDocId =
  if decide (offset < length data)%nat then
    match vbyteDecode data offset with
    | Throw _ => false
    | Ok (delta, offset1) =>
        if delta <? 0 then false
        else
          match vbyteDecode data offset1 with
          | Throw _ => false
          | Ok (frequency, offset2) =>
              if frequency <=? 0 then false
              else
                let lastDocId := wrap_int (lastDocId + delta) in
                if (lastDocId <? 0) || (1000000000 <? lastDocId) then false
                else validate_loop data offset2 lastDocId
          end
    end
  else true.
Proof.
  rewrite validate_loop_equation_1.
  destruct (decide (offset < length data)%nat) as [Hlt|Hge]; simpl; [|reflexivity].
  destruct (vbyteDecode data offset) as [[delta offset1]|e]; [|reflexivity].
  simpl. destruct (delta <? 0); simpl; [reflexivity|].
  destruct (vbyteDecode data offset1) as [[frequency offset2]|e]; reflexivity.
Qed.

(** *** What a successful compression wrote *)

Lemma compress_loop_Ok_accepted postings : forall lastDocId compressed data,
  Forall posting_in_range postings -> 0 <= lastDocId ->
  compress_loop postings lastDocId compressed = Ok data ->
  accepted_from lastDocId postings.
Proof.
  induction postings as [|[d f] P IH]; intros lastDocId compressed data Hrange Hlast;
    [intros _; exact I|].
  apply Forall_cons in Hrange as [[Hd Hfr] Hrange].
  unfold is_int in Hd, Hfr. simpl in Hd, Hfr. simpl.
  destruct (Z.ltb_spec d lastDocId); [discriminate|].
  destruct (Z.leb_spec f 0); [discriminate|].
  rewrite wrap_int_small by (unfold is_int; lia).
  rewrite vbyteEncode_nonneg by lia. simpl.
  rewrite vbyteEncode_nonneg by lia. simpl.
  intros Hloop. apply IH in Hloop; [|exact Hrange|lia]. auto with zarith.
Qed.

Lemma compressPostingList_Ok postings data :
  Forall posting_in_range postings -> compressPostingList postings = Ok data ->
  accepted_from 0 postings /\ data = encode_postings 0 postings.
Proof.
  intros Hrange. destruct postings as [|p P].
  - intros [= <-]. split; [exact I|reflexivity].
  - unfold compressPostingList. intros Hloop.
    pose proof (compress_loop_Ok_accepted (p :: P) 0 [] data Hrange ltac:(lia)
                  Hloop) as Hacc.
    rewrite compress_loop_accepted in Hloop by (auto; lia).
    injection Hloop as <-. split; [exact Hacc|reflexivity].
Qed.

Lemma estimate_loop_encoded postings : forall lastDocId totalSize,
  Forall posting_in_range postings -> 0 <= lastDocId ->
  accepted_from lastDocId postings ->
  estimate_loop postings lastDocId totalSize =
  (totalSize + length (encode_postings lastDocId postings))%nat.
Proof.
  induction postings as [|[d f] P IH]; intros lastDocId totalSize Hrange Hlast Hacc.
  - simpl. lia.
  - simpl in Hacc. destruct Hacc as (Hle & Hf & Hacc).
    apply Forall_cons in Hrange as [[Hd Hfr] Hrange].
    unfold is_int in Hd, Hfr. simpl in Hd, Hfr.
    cbn [estimate_loop encode_postings]. cbv zeta.
    rewrite wrap_int_small by (unfold is_int; lia).
    rewrite IH by (auto; lia).
    rewrite !vbyteSize_encoded by lia. rewrite !length_app. lia.
Qed.

Lemma validate_loop_encoded postings : forall lastDocId pre,
  Forall posting_in_range postings -> 0 <= lastDocId ->
  accepted_from lastDocId postings ->
  Forall (fun p => p.1 <= 1000000000) postings ->
  validate_loop (pre ++ encode_postings lastDocId postings) (length pre)
                lastDocId = true.
Proof.
  induction postings as [|[d f] P IH]; intros lastDocId pre Hrange Hlast Hacc Hmax.
  - simpl. rewrite !app_nil_r, validate_loop_eq.
    destruct (decide (length pre < length pre)%nat); [lia|reflexivity].
  - simpl in Hacc. destruct Hacc as (Hle & Hf & Hacc).
    apply Forall_cons in Hrange as [[Hd Hfr] Hrange].
    apply Forall_cons in Hmax as [Hdmax Hmax].
    unfold is_int in Hd, Hfr. simpl in Hd, Hfr, Hdmax.
    rewrite validate_loop_eq.
    cbn [encode_postings].
    set (ed := vbyteEncode_loop (d - lastDocId) []).
    set (ef := vbyteEncode_loop f []).
    set (rest := encode_postings d P).
    destruct (decide (length pre < length (pre ++ ed ++ ef ++ rest))%nat)
      as [_|Hge].
    2:{ exfalso. apply Hge. rewrite !length_app.
        pose proof (vbyteEncode_loop_nonempty (d - lastDocId) ltac:(lia)) as Hne.
        fold ed in Hne. destruct ed; [congruence|simpl; lia]. }
    unfold ed at 1. rewrite vbyteDecode_encode by lia. fold ed.
    destruct (Z.ltb_spec (d - lastDocId) 0); [lia|].
    replace (pre ++ ed ++ ef ++ rest) with ((pre ++ ed) ++ ef ++ rest)
      by (rewrite <- app_assoc; reflexivity).
    rewrite <- length_app.
    unfold ef at 1. rewrite vbyteDecode_encode by lia. fold ef.
    destruct (Z.leb_spec f 0); [lia|].
    cbv zeta.
    replace (lastDocId + (d - lastDocId)) with d by lia.
    rewrite wrap_int_small by (unfold is_int; lia).
    destruct (Z.ltb_spec d 0); [lia|].
    destruct (Z.ltb_spec 1000000000 d); [lia|]. cbn [orb].
    replace ((pre ++ ed) ++ ef ++ rest) with (((pre ++ ed) ++ ef) ++ rest)
      by (rewrite <- !app_assoc; reflexivity).
    rewrite <- length_app.
    unfold rest. apply IH; auto; lia.
Qed.

(** What [validateCompressedData] accepts, [decompressPostingList]
    decodes. *)
Lemma validate_loop_sound (n : nat) : forall data offset lastDocId acc,
  (length data - offset <= n)%nat -> 0 <= lastDocId <= 1000000000 ->
  validate_loop data offset lastDocId = true ->
  exists P,
    decompress_loop data offset lastDocId acc = Ok (acc ++ P) /\
    accepted_from lastDocId P /\
    Forall (fun p => 0 <= p.1 <= 1000000000 /\ 1 <= p.2 < 2 ^ 31) P.
Proof.
  induction n as [|n IH]; intros data offset lastDocId acc Hn Hlast;
    rewrite validate_loop_eq, decompress_loop_eq.
  - destruct (decide (offset < length data)%nat); [lia|]. intros _.
    exists []. rewrite app_nil_r. split; [reflexivity|]. split; constructor.
  - destruct (decide (offset < length data)%nat) as [Hlt|Hge].
    2:{ intros _. exists []. rewrite app_nil_r.
        split; [reflexivity|]. split; constructor. }
    destruct (vbyteDecode data offset) as [[delta offset1]|] eqn:Hdelta;
      [|discriminate].
    destruct (Z.ltb_spec delta 0) as [|Hd0]; [discriminate|].
    destruct (vbyteDecode data offset1) as [[frequency offset2]|] eqn:Hfreq;
      [|discriminate].
    destruct (Z.leb_spec frequency 0) as [|Hf0]; [discriminate|].
    cbv zeta.
    pose proof (vbyteDecode_is_int _ _ _ _ Hdelta) as [Hdint _].
    pose proof (vbyteDecode_is_int _ _ _ _ Hfreq) as [Hfint _].
    apply vbyteDecode_offset in Hdelta, Hfreq.
    unfold is_int in Hdint, Hfint.
    set (docId := wrap_int (lastDocId + delta)).
    destruct (Z.ltb_spec docId 0) as [|Hlo]; [discriminate|].
    destruct (Z.ltb_spec 1000000000 docId) as [|Hhi]; [discriminate|].
    cbn [orb]. intros Hrest.
    assert (docId = lastDocId + delta) as Hdoc.
    { unfold docId in *. unfold wrap_int in *.
      pose proof (Z.div_mod (lastDocId + delta + 2 ^ 31) (2 ^ 32) ltac:(lia)).
      pose proof (Z.mod_pos_bound (lastDocId + delta + 2 ^ 31) (2 ^ 32)
                    ltac:(lia)).
      lia. }
    destruct (IH data offset2 docId (acc ++ [(docId, frequency)])
                ltac:(lia) ltac:(lia) Hrest) as (P & HP & Hacc & Hall).
    exists ((docId, frequency) :: P). split; [|split].
    + rewrite HP, <- app_assoc. reflexivity.
    + simpl. split; [lia|]. split; [lia|exact Hacc].
    + constructor; [simpl; lia|exact Hall].
Qed.

(** A posting list whose bytes end after a docId delta. *)
Lemma decompress_loop_cut postings : forall lastDocId pre acc v,
  Forall posting_in_range postings -> 0 <= lastDocId ->
  accepted_from lastDocId postings -> 0 <= v < 2 ^ 31 ->
  decompress_loop
    (pre ++ encode_postings lastDocId postings ++ vbyteEncode_loop v [])
    (length pre) lastDocId acc = Throw runtime_error /\
  validate_loop
    (pre ++ encode_postings lastDocId postings ++ vbyteEncode_loop v [])
    (length pre) lastDocId = false.
Proof.
  induction postings as [|[d f] P IH]; intros lastDocId pre acc v Hrange Hlast Hacc Hv.
  - cbn [encode_postings app].
    rewrite decompress_loop_eq, validate_loop_eq.
    pose proof (vbyteEncode_loop_nonempty v ltac:(lia)) as Hne.
    destruct (decide (length pre < length (pre ++ vbyteEncode_loop v []))%nat)
      as [_|Hge].
    2:{ exfalso. apply Hge. rewrite length_app.
        destruct (vbyteEncode_loop v []); [congruence|simpl; lia]. }
    pose proof (vbyteDecode_encode v [] pre Hv) as Hdec.
    rewrite app_nil_r in Hdec. rewrite Hdec.
    rewrite <- length_app. unfold vbyteDecode.
    rewrite Nat.leb_refl.
    destruct (v <? 0); split; reflexivity.
  - simpl in Hacc. destruct Hacc as (Hle & Hf & Hacc).
    apply Forall_cons in Hrange as [[Hd Hfr] Hrange].
    unfold is_int in Hd, Hfr. simpl in Hd, Hfr.
    cbn [encode_postings]. rewrite <- !app_assoc.
    set (ed := vbyteEncode_loop (d - lastDocId) []).
    set (ef := vbyteEncode_loop f []).
    set (rest := encode_postings d P ++ vbyteEncode_loop v []).
    assert (vbyteDecode (pre ++ ed ++ ef ++ rest) (length pre) =
            Ok (d - lastDocId, length (pre ++ ed))) as Hdelta.
    { rewrite length_app. apply vbyteDecode_encode. lia. }
    assert (vbyteDecode (pre ++ ed ++ ef ++ rest) (length (pre ++ ed)) =
            Ok (f, length ((pre ++ ed) ++ ef))) as Hfreq.
    { rewrite (length_app (pre ++ ed)).
      replace (pre ++ ed ++ ef ++ rest) with ((pre ++ ed) ++ ef ++ rest)
        by (rewrite <- app_assoc; reflexivity).
      apply vbyteDecode_encode. lia. }
    destruct (IH d ((pre ++ ed) ++ ef) (acc ++ [(d, f)]) v Hrange ltac:(lia)
                Hacc Hv) as [Hdec Hval].
    fold rest in Hdec, Hval.
    replace (((pre ++ ed) ++ ef) ++ rest) with (pre ++ ed ++ ef ++ rest)
      in Hdec, Hval by (rewrite <- !app_assoc; reflexivity).
    rewrite decompress_loop_eq, validate_loop_eq.
    destruct (decide (length pre < length (pre ++ ed ++ ef ++ rest))%nat)
      as [_|Hge].
    2:{ exfalso. apply Hge. rewrite !length_app.
        pose proof (vbyteEncode_loop_nonempty (d - lastDocId) ltac:(lia)) as Hne.
        fold ed in Hne. destruct ed; [congruence|simpl; lia]. }
    rewrite Hdelta, Hfreq. cbv zeta.
    replace (lastDocId + (d - lastDocId)) with d by lia.
    rewrite wrap_int_small by (unfold is_int; lia).
    split; [exact Hdec|]. rewrite Hval.
    destruct (d - lastDocId <? 0); [reflexivity|].
    destruct (f <=? 0); [reflexivity|]. destruct (_ || _); reflexivity.
Qed.

Lemma compress_Ok_decompress postings data :
  Forall posting_in_range postings -> compressPostingList postings = Ok data ->
  decompressPostingList data = Ok postings.
Proof.
  intros Hrange Hc.
  destruct (compressPostingList_Ok postings data Hrange Hc) as [Hacc ->].
  pose proof (decompress_loop_encoded postings 0 [] [] Hrange ltac:(lia) Hacc)
    as Hdec.
  cbn [length app] in Hdec. unfold decompressPostingList.
  destruct (encode_postings 0 postings) eqn:Henc; [|exact Hdec].
  destruct postings as [|[d f] P]; [reflexivity|].
  simpl in Henc, Hacc. apply app_eq_nil in Henc as [Henc _].
  exfalso. apply (vbyteEncode_loop_nonempty (d - 0)); [lia|exact Henc].
Qed.

(** X1.  When [compressPostingList] succeeds on a list of [int]
    pairs, [estimateCompressedSize] of the list is exactly the number of
    bytes produced. *)
Theorem estimateCompressedSize_exact (P : list (Z * Z)) (data : list Z) :
  Forall posting_in_range P -> compressPostingList P = Ok data ->
  estimateCompressedSize P = length data.
Proof.
  intros Hrange Hc.
  destruct (compressPostingList_Ok P data Hrange Hc) as [Hacc ->].
  destruct P as [|p P]; [reflexivity|]. unfold estimateCompressedSize.
  rewrite estimate_loop_encoded by (auto; lia). reflexivity.
Qed.

Lemma estimateCompressedSize_exact_witness :
  estimateCompressedSize [(1, 5); (300, 2); (1000000, 200)] =
  length [129; 133; 43; 130; 130; 20; 2; 189; 72; 129].
Proof.
  apply (estimateCompressedSize_exact [(1, 5); (300, 2); (1000000, 200)]).
  - repeat constructor; simpl; lia.
  - vm_compute. reflexivity.
Defined.

(** X2.  [validateCompressedData] accepts whatever
    [compressPostingList] produces from [int] pairs whose DocIds do not
    exceed 1000000000. *)
Theorem validateCompressedData_accepts_compressed (P : list (Z * Z))
  (data : list Z) :
  Forall posting_in_range P -> Forall (fun p => p.1 <= 1000000000) P ->
  compressPostingList P = Ok data ->
  validateCompressedData data = true.
Proof.
  intros Hrange Hmax Hc.
  destruct (compressPostingList_Ok P data Hrange Hc) as [Hacc ->].
  pose proof (validate_loop_encoded P 0 [] Hrange ltac:(lia) Hacc Hmax) as Hv.
  cbn [length app] in Hv. unfold validateCompressedData.
  destruct (encode_postings 0 P); [reflexivity|exact Hv].
Qed.

Lemma validateCompressedData_accepts_compressed_witness :
  validateCompressedData [129; 133; 43; 130; 130; 20; 2; 189; 72; 129] = true.
Proof.
  apply (validateCompressedData_accepts_compressed
           [(1, 5); (300, 2); (1000000, 200)]).
  - repeat constructor; simpl; lia.
  - repeat constructor; simpl; lia.
  - vm_compute. reflexivity.
Defined.

(** X3.  Data that [validateCompressedData] accepts is decoded
    by [decompressPostingList] without an exception, into a list with
    DocIds ascending within [0, 1000000000] and frequencies [>= 1], which
    [compressPostingList] accepts in turn. *)
Theorem validateCompressedData_sound (data : list Z) :
  validateCompressedData data = true ->
  exists P,
    decompressPostingList data = Ok P /\
    Sorted Z.le (map fst P) /\
    Forall (fun p => 0 <= p.1 <= 1000000000 /\ 1 <= p.2) P /\
    is_Ok (compressPostingList P).
Proof.
  unfold validateCompressedData, decompressPostingList.
  destruct data as [|b data].
  { intros _. exists []. repeat split; constructor. }
  intros Hv.
  destruct (validate_loop_sound (length (b :: data)) (b :: data) 0 0 []
              ltac:(lia) ltac:(lia) Hv) as (P & HP & Hacc & Hall).
  exists P. split; [exact HP|].
  assert (Forall posting_in_range P) as Hrange.
  { eapply Forall_impl; [exact Hall|]. intros [d f]. simpl.
    unfold posting_in_range, is_int. simpl. lia. }
  split; [|split].
  - apply accepted_from_sorted in Hacc as [Hs _].
    apply Sorted_inv in Hs. tauto.
  - eapply Forall_impl; [exact Hall|]. intros [d f]. simpl. lia.
  - destruct P as [|p P]; [exact I|]. unfold compressPostingList.
    rewrite compress_loop_accepted by (auto; lia). exact I.
Qed.

Lemma validateCompressedData_sound_witness :
  exists P,
    decompressPostingList [0; 0; 129; 133; 43; 130; 130] = Ok P /\
    Sorted Z.le (map fst P) /\
    Forall (fun p => 0 <= p.1 <= 1000000000 /\ 1 <= p.2) P /\
    is_Ok (compressPostingList P).
Proof.
  apply (validateCompressedData_sound [0; 0; 129; 133; 43; 130; 130]).
  vm_compute. reflexivity.
Defined.

(** X4.  A successful [vbyteDecode] reads at least one and at
    most five bytes, never past the end of the data, and returns an
    [int]. *)
Theorem vbyteDecode_reads_one_number (data : list Z) (offset : nat)
  (v : Z) (offset' : nat) :
  vbyteDecode data offset = Ok (v, offset') ->
  (offset < offset' <= length data)%nat /\ (offset' <= offset + 5)%nat /\
  is_int v.
Proof.
  intros Hdec.
  pose proof (vbyteDecode_offset _ _ _ _ Hdec) as Hoff.
  pose proof (vbyteDecode_is_int _ _ _ _ Hdec) as [Hv Hfive].
  split; [exact Hoff|]. split; [exact Hfive|exact Hv].
Qed.

Lemma vbyteDecode_reads_one_number_witness :
  (1 < 6 <= length [129; 127; 127; 127; 127; 255; 7])%nat /\
  (6 <= 1 + 5)%nat /\ is_int (-1).
Proof.
  apply (vbyteDecode_reads_one_number [129; 127; 127; 127; 127; 255; 7] 1).
  vm_compute. reflexivity.
Defined.

(** The number whose 7-bit groups, lowest first, are the low seven bits of
    [bytes]. *)
Fixpoint groups_value (bytes : list Z) : Z :=
  match bytes with
  | [] => 0
  | byte :: bytes' => Z.land byte 0x7F + 128 * groups_value bytes'
  end.

Lemma land_127_bounds byte : 0 <= Z.land byte 127 < 128.
Proof.
  change 127 with (Z.ones 7). rewrite Z.land_ones by lia.
  apply Z.mod_pos_bound. lia.
Qed.

Lemma groups_value_bounds bytes :
  0 <= groups_value bytes < 128 ^ Z.of_nat (length bytes).
Proof.
  induction bytes as [|byte bytes IH]; [simpl; lia|].
  cbn [groups_value length]. pose proof (land_127_bounds byte).
  rewrite Nat2Z.inj_succ, Z.pow_succ_r by lia. lia.
Qed.

Lemma vbyteDecode_loop_groups rest : forall offset result k,
  0 <= k -> 0 <= result < 2 ^ (7 * k) ->
  Forall (fun b => Z.land b 0x80 = 0) rest ->
  Z.of_nat (length rest) + k <= 4 ->
  vbyteDecode_loop rest offset result (7 * k) =
  Ok (result + 2 ^ (7 * k) * groups_value rest, (offset + length rest)%nat).
Proof.
  induction rest as [|byte rest IH]; intros offset result k Hk Hresult Hall Hlen.
  - simpl. rewrite Nat.add_0_r. do 2 f_equal. lia.
  - apply Forall_cons in Hall as [Hbyte Hall].
    cbn [vbyteDecode_loop length groups_value] in *. rewrite Hbyte.
    cbn [Z.eqb negb].
    destruct (Z.ltb_spec 28 (7 * k + 7)) as [Hbig|Hsmall]; [lia|].
    pose proof (land_127_bounds byte) as Hgroup.
    assert (2 ^ (7 * k) <= 2 ^ 21) as Hpow by (apply Z.pow_le_mono_r; lia).
    assert (0 < 2 ^ (7 * k)) as Hpos by (apply Z.pow_pos_nonneg; lia).
    rewrite Z.shiftl_mul_pow2 by lia.
    rewrite wrap_int_small by (unfold is_int; nia).
    rewrite lor_low_mul by lia.
    replace (7 * k + 7) with (7 * (k + 1)) by lia.
    assert (2 ^ (7 * (k + 1)) = 2 ^ (7 * k) * 128) as Hnext.
    { replace (7 * (k + 1)) with (7 * k + 7) by lia.
      rewrite Z.pow_add_r by lia. reflexivity. }
    rewrite IH; [|lia| |exact Hall|lia].
    + do 2 f_equal; [|lia]. rewrite Hnext. ring.
    + rewrite Hnext. nia.
Qed.

(** X5.  When no byte from [offset] on has the high bit set: with five or
    more bytes left [vbyteDecode] throws [overflow_error]; with fewer it
    does not fail, it returns the number made of the 7-bit groups read,
    lowest group first, and leaves [offset] at the end of the data. *)
Theorem vbyteDecode_unterminated (data : list Z) (offset : nat) :
  (offset < length data)%nat ->
  Forall (fun b => Z.land b 0x80 = 0) (drop offset data) ->
  ((5 <= length data - offset)%nat ->
   vbyteDecode data offset = Throw overflow_error) /\
  ((length data - offset < 5)%nat ->
   vbyteDecode data offset =
   Ok (groups_value (drop offset data), length data)).
Proof.
  intros Hlt Hall. unfold vbyteDecode.
  destruct (Nat.leb_spec (length data) offset) as [|_]; [lia|].
  split.
  - destruct (vbyteDecode_loop_unterminated (drop offset data) offset 0 0
                ltac:(lia) Hall) as [Hthrow _].
    rewrite length_drop in Hthrow. change (7 * 0) with 0 in Hthrow.
    intros Hlen. apply Hthrow. simpl. lia.
  - intros Hlen.
    pose proof (vbyteDecode_loop_groups (drop offset data) offset 0 0
                  ltac:(lia) ltac:(simpl; lia) Hall) as Hloop.
    rewrite length_drop in Hloop. change (7 * 0) with 0 in Hloop.
    rewrite Hloop by lia. do 2 f_equal; [|lia].
    change (2 ^ 0) with 1. lia.
Qed.

Lemma vbyteDecode_unterminated_witness :
  ((5 <= length [129; 1; 2; 3] - 1)%nat ->
   vbyteDecode [129; 1; 2; 3] 1 = Throw overflow_error) /\
  ((length [129; 1; 2; 3] - 1 < 5)%nat ->
   vbyteDecode [129; 1; 2; 3] 1 = Ok (49409, 4%nat)).
Proof.
  apply (vbyteDecode_unterminated [129; 1; 2; 3] 1).
  - simpl. lia.
  - repeat constructor.
Defined.

(** X6.  For [0 <= v < 2^31], [vbyteEncode] appends to [output]
    at most four bytes below 128 followed by exactly one byte with the high
    bit set: the encoding is self-delimiting and at most five bytes long. *)
Theorem vbyteEncode_self_delimiting (v : Z) (output : list Z) :
  0 <= v < 2 ^ 31 ->
  exists body last,
    vbyteEncode v output = Ok (output ++ body ++ [last]) /\
    Forall (fun b => 0 <= b < 128) body /\ 128 <= last < 256 /\
    (length body <= 4)%nat.
Proof.
  intros Hv.
  destruct (vbyteEncode_loop_shape 4 v ltac:(simpl; lia))
    as (body & last & Henc & Hbody & Hlast & Hlen).
  exists body, last. rewrite vbyteEncode_nonneg by lia. rewrite Henc. auto.
Qed.

Lemma vbyteEncode_self_delimiting_witness :
  exists body last,
    vbyteEncode 2147483647 [7] = Ok ([7] ++ body ++ [last]) /\
    Forall (fun b => 0 <= b < 128) body /\ 128 <= last < 256 /\
    (length body <= 4)%nat.
Proof. apply (vbyteEncode_self_delimiting 2147483647 [7]). lia. Defined.

(** X7.  Bytes that end after a docId delta, with the frequency missing
    (here: a compressed list followed by one more encoded number), are
    rejected: [decompressPostingList] throws [runtime_error] and
    [validateCompressedData] returns [false]. *)
Theorem decompressPostingList_missing_frequency (P : list (Z * Z))
  (data : list Z) (v : Z) (cut : list Z) :
  Forall posting_in_range P -> compressPostingList P = Ok data ->
  0 <= v < 2 ^ 31 -> vbyteEncode v data = Ok cut ->
  decompressPostingList cut = Throw runtime_error /\
  validateCompressedData cut = false.
Proof.
  intros Hrange Hc Hv Hcut.
  destruct (compressPostingList_Ok P data Hrange Hc) as [Hacc ->].
  rewrite vbyteEncode_nonneg in Hcut by lia. injection Hcut as <-.
  destruct (decompress_loop_cut P 0 [] [] v Hrange ltac:(lia) Hacc Hv)
    as [Hdec Hval].
  cbn [length app] in Hdec, Hval.
  unfold decompressPostingList, validateCompressedData.
  destruct (encode_postings 0 P ++ vbyteEncode_loop v []) eqn:Hbytes;
    [|split; assumption].
  apply app_eq_nil in Hbytes as [_ Hnil].
  exfalso. apply (vbyteEncode_loop_nonempty v); [lia|exact Hnil].
Qed.

Lemma decompressPostingList_missing_frequency_witness :
  decompressPostingList [129; 133; 43; 130; 130; 131] = Throw runtime_error /\
  validateCompressedData [129; 133; 43; 130; 130; 131] = false.
Proof.
  apply (decompressPostingList_missing_frequency
           [(1, 5); (300, 2)] [129; 133; 43; 130; 130] 3).
  - repeat constructor; simpl; lia.
  - vm_compute. reflexivity.
  - lia.
  - vm_compute. reflexivity.
Defined.

End CompressionUtils.

(** ** text_utils.cpp *)

Module TextUtils.

Definition isContinuationByte (b : Z) : bool := Z.land b 0xC0 =? 0x80.

(** The [if / else if] chain on the lead byte in [stringToCodes]: the initial
    [codepoint] and [numContinuationBytes], or [None] for the final [else]
    ([++i; continue]). *)
Definition leadByte (byte : Z) : option (Z * nat) :=
  if byte <? 0x80 then Some (byte, 0%nat)
  else if Z.land byte 0xE0 =? 0xC0 then Some (Z.land byte 0x1F, 1%nat)
  else if Z.land byte 0xF0 =? 0xE0 then Some (Z.land byte 0x0F, 2%nat)
  else if Z.land byte 0xF8 =? 0xF0 then Some (Z.land byte 0x07, 3%nat)
  else None.

(** [for (j = 1; j <= numContinuationBytes; ++j)], with [remaining] iterations
    left; [None] is [isValid = false]. *)
Fixpoint continuationBytes (s : list Z) (i j remaining : nat) (codepoint : Z)
  : option Z :=
  match remaining with
  | O => Some codepoint
  | S remaining' =>
      let b := nth (i + j) s 0 in
      if isContinuationByte b
      then continuationBytes s i (S j) remaining'
             (wrap_u32 (Z.lor (Z.shiftl codepoint 6) (Z.land b 0x3F)))
      else None
  end.

(** [while (i < length)] of [stringToCodes]. *)
Equations? stringToCodes_loop (s : list Z) (i : nat) (result : list Z) : list Z
  by wf (length s - i)%nat lt :=
  stringToCodes_loop s i result with decide (i < length s)%nat => {
    | right _ := result;
    | left _ with leadByte (nth i s 0) => {
      | None := stringToCodes_loop s (S i) result;
      | Some (codepoint, numContinuationBytes)
          with decide (length s <= i + numContinuationBytes)%nat => {
        | left _ := result;
        | right _ with continuationBytes s i 1 numContinuationBytes codepoint => {
          | None := stringToCodes_loop s (S i) result;
          | Some codepoint' :=
              stringToCodes_loop s (i + 1 + numContinuationBytes)
                                 (result ++ [codepoint']) } } } }.
Proof. all: lia. Qed.

Definition stringToCodes (s : list Z) : list Z := stringToCodes_loop s 0 [].

(** The bytes one iteration of [codesToString] pushes;
    [static_cast<char>] keeps the low 8 bits. *)
Definition pushCode (codepoint : Z) : list Z :=
  if codepoint <=? 0x7F then [wrap_u8 codepoint]
  else if codepoint <=? 0x7FF then
    [wrap_u8 (Z.lor 0xC0 (Z.land (Z.shiftr codepoint 6) 0x1F));
     wrap_u8 (Z.lor 0x80 (Z.land codepoint 0x3F))]
  else if codepoint <=? 0xFFFF then
    [wrap_u8 (Z.lor 0xE0 (Z.land (Z.shiftr codepoint 12) 0x0F));
     wrap_u8 (Z.lor 0x80 (Z.land (Z.shiftr codepoint 6) 0x3F));
     wrap_u8 (Z.lor 0x80 (Z.land codepoint 0x3F))]
  else if codepoint <=? 0x10FFFF then
    [wrap_u8 (Z.lor 0xF0 (Z.land (Z.shiftr codepoint 18) 0x07));
     wrap_u8 (Z.lor 0x80 (Z.land (Z.shiftr codepoint 12) 0x3F));
     wrap_u8 (Z.lor 0x80 (Z.land (Z.shiftr codepoint 6) 0x3F));
     wrap_u8 (Z.lor 0x80 (Z.land codepoint 0x3F))]
  else [].

Fixpoint codesToString_loop (codes : list Z) (result : list Z) : list Z :=
  match codes with
  | [] => result
  | codepoint :: codes' => codesToString_loop codes' (result ++ pushCode codepoint)
  end.

Definition codesToString (codes : list Z) : list Z := codesToString_loop codes [].

Definition charToLower (codepoint : Z) : Z :=
  if (65 <=? codepoint) && (codepoint <=? 90) then wrap_u32 (codepoint + 32)
  else if (0x0410 <=? codepoint) && (codepoint <=? 0x042F)
  then wrap_u32 (codepoint + 0x20)
  else if codepoint =? 0x0401 then 0x0451
  else codepoint.

Definition isValidSymbol (codepoint : Z) : bool :=
  if ((65 <=? codepoint) && (codepoint <=? 90)) ||
     ((97 <=? codepoint) && (codepoint <=? 122)) then true
  else if (48 <=? codepoint) && (codepoint <=? 57) then true
  else if (0x0400 <=? codepoint) && (codepoint <=? 0x04FF) then true
  else false.

Definition toLowerCase (s : list Z) : list Z :=
  codesToString (map charToLower (stringToCodes s)).

(** The [for] loop of [tokenize] and the flush after it. *)
Fixpoint tokenize_loop (codes : list Z) (currentToken : list Z)
  (tokens : list (list Z)) : list (list Z) :=
  match codes with
  | [] =>
      match currentToken with
      | [] => tokens
      | _ => tokens ++ [codesToString currentToken]
      end
  | codepoint :: codes' =>
      if isValidSymbol codepoint
      then tokenize_loop codes' (currentToken ++ [charToLower codepoint]) tokens
      else
        match currentToken with
        | [] => tokenize_loop codes' currentToken tokens
        | _ => tokenize_loop codes' [] (tokens ++ [codesToString currentToken])
        end
  end.

Definition tokenize (text : list Z) : list (list Z) :=
  tokenize_loop (stringToCodes text) [] [].

(** *** The decoding loop, read from the current position *)

Lemma stringToCodes_loop_eq s i result :
  stringToCodes_loop s i result =
  if decide (i < length s)%nat then
    match leadByte (nth i s 0) with
    | None => stringToCodes_loop s (S i) result
    | Some (codepoint, n) =>
        if decide (length s <= i + n)%nat then result
        else
          match continuationBytes s i 1 n codepoint with
          | None => stringToCodes_loop s (S i) result
          | Some codepoint' =>
              stringToCodes_loop s (i + 1 + n) (result ++ [codepoint'])
          end
    end
  else result.
Proof.
  rewrite stringToCodes_loop_equation_1.
  destruct (decide (i < length s)%nat) as [Hlt|Hge]; simpl; [|reflexivity].
  destruct (leadByte (nth i s 0)) as [[codepoint n]|]; simpl; [|reflexivity].
  destruct (decide (length s <= i + n)%nat); simpl; [reflexivity|].
  destruct (continuationBytes s i 1 n codepoint); reflexivity.
Qed.

Lemma nth_drop_Z (s : list Z) i j : nth j (drop i s) 0 = nth (i + j) s 0.
Proof. rewrite !nth_lookup, lookup_drop. reflexivity. Qed.

Lemma continuationBytes_drop s i remaining : forall j codepoint,
  continuationBytes s i j remaining codepoint =
  continuationBytes (drop i s) 0 j remaining codepoint.
Proof.
  induction remaining as [|r IH]; intros j codepoint; simpl; [reflexivity|].
  rewrite nth_drop_Z.
  destruct (isContinuationByte (nth (i + j) s 0)); [apply IH|reflexivity].
Qed.

Lemma stringToCodes_loop_drop m : forall s i result,
  (length s - i <= m)%nat ->
  stringToCodes_loop s i result = result ++ stringToCodes (drop i s).
Proof.
  unfold stringToCodes.
  induction m as [|m IH]; intros s i result Hm.
  - rewrite (stringToCodes_loop_eq s), (stringToCodes_loop_eq (drop i s)).
    rewrite length_drop.
    destruct (decide (i < length s)%nat); [lia|].
    destruct (decide (0 < length s - i)%nat); [lia|].
    rewrite app_nil_r. reflexivity.
  - rewrite (stringToCodes_loop_eq s), (stringToCodes_loop_eq (drop i s)).
    rewrite length_drop.
    destruct (decide (i < length s)%nat) as [Hlt|Hge].
    2:{ destruct (decide (0 < length s - i)%nat); [lia|].
        rewrite app_nil_r. reflexivity. }
    destruct (decide (0 < length s - i)%nat) as [_|]; [|lia].
    rewrite nth_drop_Z, Nat.add_0_r.
    assert (forall k, drop k (drop i s) = drop (i + k) s) as Hdd
      by (intros k; apply drop_drop).
    destruct (leadByte (nth i s 0)) as [[codepoint n]|].
    + destruct (decide (length s <= i + n)%nat) as [Hbrk|Hok];
        destruct (decide (length s - i <= 0 + n)%nat) as [Hbrk'|Hok'];
        try lia.
      { rewrite app_nil_r. reflexivity. }
      rewrite <- continuationBytes_drop.
      destruct (continuationBytes s i 1 n codepoint) as [c|].
      * rewrite (IH s (i + 1 + n)%nat) by lia.
        rewrite (IH (drop i s) (0 + 1 + n)%nat) by (rewrite length_drop; lia).
        rewrite Hdd. rewrite <- app_assoc.
        replace (i + (0 + 1 + n))%nat with (i + 1 + n)%nat by lia.
        reflexivity.
      * rewrite (IH s (S i)) by lia.
        rewrite (IH (drop i s) 1%nat) by (rewrite length_drop; lia).
        rewrite Hdd. replace (i + 1)%nat with (S i) by lia. reflexivity.
    + rewrite (IH s (S i)) by lia.
      rewrite (IH (drop i s) 1%nat) by (rewrite length_drop; lia).
      rewrite Hdd. replace (i + 1)%nat with (S i) by lia. reflexivity.
Qed.

Lemma stringToCodes_nil : stringToCodes [] = [].
Proof. reflexivity. Qed.

(** One iteration of the loop, as an equation on the remaining bytes. *)
Lemma stringToCodes_cons byte rest :
  stringToCodes (byte :: rest) =
  match leadByte byte with
  | None => stringToCodes rest
  | Some (codepoint, n) =>
      if decide (length rest < n)%nat then []
      else
        match continuationBytes (byte :: rest) 0 1 n codepoint with
        | None => stringToCodes rest
        | Some codepoint' => codepoint' :: stringToCodes (drop n rest)
        end
  end.
Proof.
  unfold stringToCodes at 1. rewrite stringToCodes_loop_eq.
  cbn [length nth].
  destruct (decide (0 < S (length rest))%nat) as [_|]; [|lia].
  destruct (leadByte byte) as [[codepoint n]|].
  - destruct (decide (S (length rest) <= 0 + n)%nat);
      destruct (decide (length rest < n)%nat); try lia; [reflexivity|].
    destruct (continuationBytes (byte :: rest) 0 1 n codepoint) as [c|].
    + rewrite (stringToCodes_loop_drop (S (length rest))) by (simpl; lia).
      reflexivity.
    + rewrite (stringToCodes_loop_drop (S (length rest))) by (simpl; lia).
      reflexivity.
  - rewrite (stringToCodes_loop_drop (S (length rest))) by (simpl; lia).
    reflexivity.
Qed.

(** *** Bytes written by [codesToString] and read back by [stringToCodes] *)

Lemma leadByte_ascii b : 0 <= b < 128 -> leadByte b = Some (b, 0%nat).
Proof.
  intros Hb. unfold leadByte. destruct (Z.ltb_spec b 128); [reflexivity|lia].
Qed.

Definition leadByte_is (b x : Z) (n : nat) : bool :=
  match leadByte b with
  | Some (codepoint, k) => (codepoint =? x) && (k =? n)%nat
  | None => false
  end.

Lemma leadByte_is_eq b x n : leadByte_is b x n = true -> leadByte b = Some (x, n).
Proof.
  unfold leadByte_is. destruct (leadByte b) as [[c k]|]; [|discriminate].
  rewrite andb_true_iff, Z.eqb_eq, Nat.eqb_eq. intros [-> ->]. reflexivity.
Qed.

Lemma leadByte_two x : 0 <= x < 32 ->
  leadByte (wrap_u8 (Z.lor 0xC0 x)) = Some (x, 1%nat).
Proof.
  intros Hx. apply leadByte_is_eq.
  exact (Z_below_forallb
           (fun x => leadByte_is (wrap_u8 (Z.lor 0xC0 x)) x 1) 32 eq_refl x Hx).
Qed.

Lemma leadByte_three x : 0 <= x < 16 ->
  leadByte (wrap_u8 (Z.lor 0xE0 x)) = Some (x, 2%nat).
Proof.
  intros Hx. apply leadByte_is_eq.
  exact (Z_below_forallb
           (fun x => leadByte_is (wrap_u8 (Z.lor 0xE0 x)) x 2) 16 eq_refl x Hx).
Qed.

Lemma leadByte_four x : 0 <= x < 8 ->
  leadByte (wrap_u8 (Z.lor 0xF0 x)) = Some (x, 3%nat).
Proof.
  intros Hx. apply leadByte_is_eq.
  exact (Z_below_forallb
           (fun x => leadByte_is (wrap_u8 (Z.lor 0xF0 x)) x 3) 8 eq_refl x Hx).
Qed.

Lemma continuation_byte_facts y : 0 <= y < 64 ->
  isContinuationByte (wrap_u8 (Z.lor 0x80 y)) = true /\
  Z.land (wrap_u8 (Z.lor 0x80 y)) 0x3F = y.
Proof.
  intros Hy.
  pose proof (Z_below_forallb
    (fun y => isContinuationByte (wrap_u8 (Z.lor 0x80 y)) &&
              (Z.land (wrap_u8 (Z.lor 0x80 y)) 0x3F =? y)) 64 eq_refl y Hy) as H.
  simpl in H. rewrite andb_true_iff, Z.eqb_eq in H. exact H.
Qed.

Lemma low6_payload c k : 0 <= c -> 0 <= k ->
  0 <= Z.land (Z.shiftr c k) 0x3F < 64 /\
  Z.land (Z.shiftr c k) 0x3F = (c / 2 ^ k) mod 64.
Proof.
  intros Hc Hk. rewrite Z.shiftr_div_pow2 by lia.
  rewrite (land_ones_mod _ 6) by lia. change (2 ^ 6) with 64.
  split; [apply Z.mod_pos_bound; lia|reflexivity].
Qed.

(** One iteration of the continuation loop on a byte written by
    [codesToString]. *)
Lemma continuationBytes_step s i j remaining codepoint y :
  0 <= codepoint < 2 ^ 26 -> 0 <= y < 64 ->
  nth (i + j) s 0 = wrap_u8 (Z.lor 0x80 y) ->
  continuationBytes s i j (S remaining) codepoint =
  continuationBytes s i (S j) remaining (codepoint * 64 + y).
Proof.
  intros Hc Hy Hnth. simpl. rewrite Hnth.
  destruct (continuation_byte_facts y Hy) as [-> ->].
  rewrite (lor_disjoint_add codepoint y 6) by lia.
  change (2 ^ 6) with 64.
  rewrite wrap_u32_small by lia. reflexivity.
Qed.

Lemma stringToCodes_pushCode c rest :
  0 <= c <= 0x10FFFF ->
  stringToCodes (pushCode c ++ rest) = c :: stringToCodes rest.
Proof.
  intros Hc. unfold pushCode.
  destruct (Z.leb_spec c 0x7F) as [H1|H1].
  { rewrite wrap_u8_small by lia. cbn [app].
    rewrite stringToCodes_cons, leadByte_ascii by lia.
    destruct (decide (length rest < 0)%nat); [lia|]. reflexivity. }
  destruct (low6_payload c 0 ltac:(lia) ltac:(lia)) as [Hz Hz'].
  destruct (low6_payload c 6 ltac:(lia) ltac:(lia)) as [Hy Hy'].
  destruct (low6_payload c 12 ltac:(lia) ltac:(lia)) as [Hx Hx'].
  rewrite Z.shiftr_0_r in Hz, Hz'.
  change (2 ^ 0) with 1 in Hz'. change (2 ^ 6) with 64 in Hy'.
  change (2 ^ 12) with 4096 in Hx'. rewrite Z.div_1_r in Hz'.
  destruct (Z.leb_spec c 0x7FF) as [H2|H2].
  { set (x := Z.land (Z.shiftr c 6) 0x1F).
    assert (0 <= x < 32 /\ x = c / 64) as [Hx5 Hx5'].
    { unfold x. rewrite Z.shiftr_div_pow2, (land_ones_mod _ 5) by lia.
      change (2 ^ 6) with 64. change (2 ^ 5) with 32.
      rewrite Z.mod_small; [split; [|reflexivity]|];
        Z.div_mod_to_equations; lia. }
    cbn [app]. rewrite stringToCodes_cons, leadByte_two by lia.
    destruct (decide (length (_ :: rest) < 1)%nat) as [Hl|_];
      [simpl in Hl; lia|].
    rewrite (continuationBytes_step _ 0 1 0 x (Z.land c 0x3F));
      [|lia|lia|reflexivity].
    cbn [continuationBytes drop]. f_equal.
    rewrite Hx5', Hz'. Z.div_mod_to_equations; lia. }
  destruct (Z.leb_spec c 0xFFFF) as [H3|H3].
  { set (x := Z.land (Z.shiftr c 12) 0x0F).
    assert (0 <= x < 16 /\ x = c / 4096) as [Hx4 Hx4'].
    { unfold x. rewrite Z.shiftr_div_pow2, (land_ones_mod _ 4) by lia.
      change (2 ^ 12) with 4096. change (2 ^ 4) with 16.
      rewrite Z.mod_small; [split; [|reflexivity]|];
        Z.div_mod_to_equations; lia. }
    cbn [app]. rewrite stringToCodes_cons, leadByte_three by lia.
    destruct (decide (length (_ :: _ :: rest) < 2)%nat) as [Hl|_];
      [simpl in Hl; lia|].
    rewrite (continuationBytes_step _ 0 1 1 x (Z.land (Z.shiftr c 6) 0x3F));
      [|lia|lia|reflexivity].
    rewrite (continuationBytes_step _ 0 2 0 _ (Z.land c 0x3F));
      [|lia|lia|reflexivity].
    cbn [continuationBytes drop]. f_equal.
    rewrite Hx4', Hy', Hz'. Z.div_mod_to_equations; lia. }
  destruct (Z.leb_spec c 0x10FFFF) as [_|H4]; [|lia].
  set (x := Z.land (Z.shiftr c 18) 0x07).
  assert (0 <= x < 8 /\ x = c / 262144) as [Hx3 Hx3'].
  { unfold x. rewrite Z.shiftr_div_pow2, (land_ones_mod _ 3) by lia.
    change (2 ^ 18) with 262144. change (2 ^ 3) with 8.
    rewrite Z.mod_small; [split; [|reflexivity]|];
      Z.div_mod_to_equations; lia. }
  cbn [app]. rewrite stringToCodes_cons, leadByte_four by lia.
  destruct (decide (length (_ :: _ :: _ :: rest) < 3)%nat) as [Hl|_];
    [simpl in Hl; lia|].
  rewrite (continuationBytes_step _ 0 1 2 x (Z.land (Z.shiftr c 12) 0x3F));
    [|lia|lia|reflexivity].
  rewrite (continuationBytes_step _ 0 2 1 _ (Z.land (Z.shiftr c 6) 0x3F));
    [|lia|lia|reflexivity].
  rewrite (continuationBytes_step _ 0 3 0 _ (Z.land c 0x3F));
    [|lia|lia|reflexivity].
  cbn [continuationBytes drop]. f_equal.
  rewrite Hx3', Hx', Hy', Hz'. Z.div_mod_to_equations; lia.
Qed.

Lemma codesToString_loop_app codes : forall result,
  codesToString_loop codes result = result ++ codesToString codes.
Proof.
  unfold codesToString.
  induction codes as [|c codes IH]; intros result; simpl.
  - rewrite app_nil_r. reflexivity.
  - rewrite (IH (result ++ pushCode c)), (IH (pushCode c)).
    rewrite app_assoc. reflexivity.
Qed.

Lemma codesToString_cons c codes :
  codesToString (c :: codes) = pushCode c ++ codesToString codes.
Proof.
  unfold codesToString at 1. simpl. apply codesToString_loop_app.
Qed.

(** Code points above U+10FFFF are written as no bytes at all. *)
Definition encodable (c : Z) : bool := c <=? 0x10FFFF.

Lemma pushCode_not_encodable c : 0 <= c -> encodable c = false -> pushCode c = [].
Proof.
  unfold encodable, pushCode. intros Hc Hbig.
  apply Z.leb_gt in Hbig.
  repeat match goal with
         | |- context [?a <=? ?b] => destruct (Z.leb_spec a b); try lia
         end.
  reflexivity.
Qed.

Lemma pushCode_nonempty c : 0 <= c <= 0x10FFFF -> pushCode c <> [].
Proof.
  unfold pushCode. intros Hc.
  repeat match goal with
         | |- context [?a <=? ?b] => destruct (Z.leb_spec a b); try lia
         end; discriminate.
Qed.

Lemma stringToCodes_codesToString codes :
  Forall (fun c => 0 <= c) codes ->
  stringToCodes (codesToString codes) = filter (fun c => encodable c = true) codes.
Proof.
  induction 1 as [|c codes Hc Hall IH]; [reflexivity|].
  rewrite codesToString_cons, filter_cons.
  destruct (decide (encodable c = true)) as [He|He].
  - unfold encodable in He. apply Z.leb_le in He.
    rewrite stringToCodes_pushCode by lia. rewrite IH. reflexivity.
  - apply not_true_is_false in He.
    rewrite pushCode_not_encodable by assumption. exact IH.
Qed.

Lemma codesToString_filter_encodable codes :
  Forall (fun c => 0 <= c) codes ->
  codesToString (filter (fun c => encodable c = true) codes) = codesToString codes.
Proof.
  induction 1 as [|c codes Hc Hall IH]; [reflexivity|].
  rewrite filter_cons, (codesToString_cons c codes).
  destruct (decide (encodable c = true)) as [He|He].
  - rewrite codesToString_cons, IH. reflexivity.
  - apply not_true_is_false in He.
    rewrite pushCode_not_encodable by assumption. exact IH.
Qed.

(** *** Decoded code points are non-negative *)

Lemma leadByte_nonneg b c n : 0 <= b -> leadByte b = Some (c, n) -> 0 <= c.
Proof.
  unfold leadByte. intros Hb.
  repeat match goal with
         | |- context [if ?t then _ else _] => destruct t
         end; intros [= <- <-]; try lia; apply Z.land_nonneg; lia.
Qed.

Lemma continuationBytes_nonneg s i remaining : forall j c c',
  0 <= c -> continuationBytes s i j remaining c = Some c' -> 0 <= c'.
Proof.
  induction remaining as [|r IH]; intros j c c' Hc; simpl.
  - intros [= <-]. exact Hc.
  - destruct (isContinuationByte _); [|discriminate].
    apply IH. unfold wrap_u32. apply Z.mod_pos_bound. lia.
Qed.

Lemma stringToCodes_nonneg_aux m : forall s,
  (length s <= m)%nat ->
  Forall (fun b => 0 <= b) s -> Forall (fun c => 0 <= c) (stringToCodes s).
Proof.
  induction m as [|m IH]; intros s Hlen Hs.
  - destruct s; [constructor|simpl in Hlen; lia].
  - destruct s as [|b rest]; [constructor|].
    apply Forall_cons in Hs as [Hb Hrest]. simpl in Hlen.
    rewrite stringToCodes_cons.
    destruct (leadByte b) as [[c n]|] eqn:Hlead.
    + destruct (decide (length rest < n)%nat); [constructor|].
      destruct (continuationBytes (b :: rest) 0 1 n c) as [c'|] eqn:Hcont.
      * constructor.
        -- eapply continuationBytes_nonneg; [|exact Hcont].
           eapply leadByte_nonneg; eassumption.
        -- apply IH; [rewrite length_drop; lia|].
           apply Forall_drop. exact Hrest.
      * apply IH; [lia|exact Hrest].
    + apply IH; [lia|exact Hrest].
Qed.

Lemma stringToCodes_nonneg s :
  Forall is_byte s -> Forall (fun c => 0 <= c) (stringToCodes s).
Proof.
  intros Hs. apply (stringToCodes_nonneg_aux (length s)); [lia|].
  eapply Forall_impl; [exact Hs|]. unfold is_byte. intros; simpl in *; lia.
Qed.

(** *** Case folding *)

Lemma charToLower_nonneg c : 0 <= c -> 0 <= charToLower c.
Proof.
  unfold charToLower, wrap_u32. intros Hc.
  repeat match goal with
         | |- context [if ?t then _ else _] => destruct t
         end; try lia; apply Z.mod_pos_bound; lia.
Qed.

Lemma charToLower_fixed c :
  ~ 65 <= c <= 90 -> ~ 1040 <= c <= 1071 -> c <> 1025 -> charToLower c = c.
Proof.
  intros H1 H2 H3. unfold charToLower.
  destruct (Z.leb_spec 65 c); destruct (Z.leb_spec c 90); simpl; try lia;
    destruct (Z.leb_spec 1040 c); destruct (Z.leb_spec c 1071); simpl; try lia;
    destruct (Z.eqb_spec c 1025); try lia; reflexivity.
Qed.

Lemma charToLower_cases c :
  (65 <= c <= 90 /\ charToLower c = c + 32) \/
  (1040 <= c <= 1071 /\ charToLower c = c + 32) \/
  (c = 1025 /\ charToLower c = 1105) \/
  (~ 65 <= c <= 90 /\ ~ 1040 <= c <= 1071 /\ c <> 1025 /\ charToLower c = c).
Proof.
  destruct (decide (65 <= c <= 90)) as [H1|H1].
  { left. split; [exact H1|]. unfold charToLower.
    destruct (Z.leb_spec 65 c); destruct (Z.leb_spec c 90); simpl; try lia.
    apply wrap_u32_small. lia. }
  destruct (decide (1040 <= c <= 1071)) as [H2|H2].
  { right; left. split; [exact H2|]. unfold charToLower.
    destruct (Z.leb_spec 65 c); destruct (Z.leb_spec c 90); simpl; try lia;
      destruct (Z.leb_spec 1040 c); destruct (Z.leb_spec c 1071); simpl;
      try lia; apply wrap_u32_small; lia. }
  destruct (decide (c = 1025)) as [->|H3].
  { right; right; left. split; reflexivity. }
  right; right; right. repeat split; try assumption.
  apply charToLower_fixed; assumption.
Qed.

Lemma charToLower_idempotent c : charToLower (charToLower c) = charToLower c.
Proof.
  destruct (charToLower_cases c)
    as [[H ->]|[[H ->]|[[-> ->]|(H1 & H2 & H3 & ->)]]].
  - apply charToLower_fixed; lia.
  - apply charToLower_fixed; lia.
  - reflexivity.
  - apply charToLower_fixed; assumption.
Qed.

Lemma isValidSymbol_range c : isValidSymbol c = true -> 0 <= c < 1280.
Proof.
  unfold isValidSymbol.
  repeat match goal with
         | |- context [?a <=? ?b] => destruct (Z.leb_spec a b); simpl; try lia
         end; discriminate.
Qed.

Lemma isValidSymbol_charToLower c :
  isValidSymbol c = true -> isValidSymbol (charToLower c) = true.
Proof.
  intros Hv. pose proof (isValidSymbol_range c Hv) as Hr.
  pose proof (Z_below_forallb
    (fun c => implb (isValidSymbol c) (isValidSymbol (charToLower c)))
    1280 eq_refl c Hr) as H.
  simpl in H. rewrite Hv in H. exact H.
Qed.

(** *** Terms *)

(** The code points a term is made of: folded word symbols. *)
Definition term_code (c : Z) : Prop :=
  isValidSymbol c = true /\ charToLower c = c.

(** A term: the UTF-8 bytes of a non-empty run of folded word symbols. *)
Definition is_term (t : list Z) : Prop :=
  exists token, token <> [] /\ Forall term_code token /\ t = codesToString token.

Lemma term_code_charToLower c : isValidSymbol c = true -> term_code (charToLower c).
Proof.
  intros Hv. split; [apply isValidSymbol_charToLower, Hv|].
  apply charToLower_idempotent.
Qed.

Lemma term_code_range c : term_code c -> 0 <= c <= 0x10FFFF.
Proof. intros [Hv _]. apply isValidSymbol_range in Hv. lia. Qed.

Lemma tokenize_loop_terms codes : forall currentToken tokens,
  Forall term_code currentToken -> Forall is_term tokens ->
  Forall is_term (tokenize_loop codes currentToken tokens).
Proof.
  induction codes as [|c codes IH]; intros currentToken tokens Hcur Htok; simpl.
  - destruct currentToken as [|c0 cur]; [exact Htok|].
    apply Forall_app. split; [exact Htok|].
    constructor; [|constructor].
    exists (c0 :: cur). split; [discriminate|]. split; [exact Hcur|reflexivity].
  - destruct (isValidSymbol c) eqn:Hv.
    + apply IH; [|exact Htok].
      apply Forall_app. split; [exact Hcur|].
      constructor; [|constructor]. apply term_code_charToLower, Hv.
    + destruct currentToken as [|c0 cur]; [apply IH; assumption|].
      apply IH; [constructor|].
      apply Forall_app. split; [exact Htok|].
      constructor; [|constructor].
      exists (c0 :: cur). split; [discriminate|]. split; [exact Hcur|reflexivity].
Qed.

Lemma stringToCodes_term token :
  Forall term_code token -> stringToCodes (codesToString token) = token.
Proof.
  intros Hall. rewrite stringToCodes_codesToString.
  - induction Hall as [|c token Hc Hall IH]; [reflexivity|].
    rewrite filter_cons. apply term_code_range in Hc.
    destruct (decide (encodable c = true)) as [_|He].
    + f_equal. exact IH.
    + exfalso. apply He. unfold encodable. apply Z.leb_le. lia.
  - eapply Forall_impl; [exact Hall|].
    intros c Hc. apply term_code_range in Hc. simpl. lia.
Qed.

Lemma tokenize_loop_run token : forall currentToken tokens,
  Forall term_code token ->
  tokenize_loop token currentToken tokens =
  tokenize_loop [] (currentToken ++ token) tokens.
Proof.
  induction token as [|c token IH]; intros currentToken tokens Hall.
  - rewrite app_nil_r. reflexivity.
  - apply Forall_cons in Hall as [[Hv Hfix] Hall].
    cbn [tokenize_loop]. rewrite Hv, Hfix.
    rewrite IH by exact Hall. rewrite <- app_assoc. reflexivity.
Qed.

Lemma is_term_nonempty t : is_term t -> t <> [].
Proof.
  intros (token & Hne & Hall & ->).
  destruct token as [|c token]; [congruence|].
  apply Forall_cons in Hall as [Hc _]. apply term_code_range in Hc.
  rewrite codesToString_cons. intros Hnil.
  apply app_eq_nil in Hnil as [Hnil _].
  apply (pushCode_nonempty c); [lia|exact Hnil].
Qed.

Lemma tokenize_term t : is_term t -> tokenize t = [t].
Proof.
  intros (token & Hne & Hall & ->). unfold tokenize.
  rewrite stringToCodes_term by exact Hall.
  rewrite tokenize_loop_run by exact Hall. simpl.
  destruct token; [congruence|reflexivity].
Qed.

(** C9.  Every term emitted by [tokenize] is non-empty, is the UTF-8
    encoding of its code points, all of which are word symbols
    ([isValidSymbol]), and tokenizing the term alone yields exactly that
    term. *)
Theorem tokenize_emits_terms (s t : list Z) :
  t ∈ tokenize s ->
  t <> [] /\
  Forall (fun c => isValidSymbol c = true) (stringToCodes t) /\
  codesToString (stringToCodes t) = t /\
  tokenize t = [t].
Proof.
  intros Hin.
  assert (is_term t) as Hterm.
  { pose proof (tokenize_loop_terms (stringToCodes s) [] []
                  ltac:(constructor) ltac:(constructor)) as Hall.
    rewrite Forall_forall in Hall. apply Hall. exact Hin. }
  split; [apply is_term_nonempty, Hterm|].
  split; [|split; [|apply tokenize_term, Hterm]].
  - destruct Hterm as (token & _ & Hall & ->).
    rewrite stringToCodes_term by exact Hall.
    eapply Forall_impl; [exact Hall|]. intros c [Hv _]. exact Hv.
  - destruct Hterm as (token & _ & Hall & ->).
    rewrite stringToCodes_term by exact Hall. reflexivity.
Qed.

Lemma tokenize_emits_terms_witness :
  [208; 188; 208; 184; 209; 128] <> [] /\
  Forall (fun c => isValidSymbol c = true)
         (stringToCodes [208; 188; 208; 184; 209; 128]) /\
  codesToString (stringToCodes [208; 188; 208; 184; 209; 128]) =
  [208; 188; 208; 184; 209; 128] /\
  tokenize [208; 188; 208; 184; 209; 128] = [[208; 188; 208; 184; 209; 128]].
Proof.
  apply (tokenize_emits_terms
           [72; 105; 44; 32; 208; 156; 208; 184; 209; 128; 33]).
  vm_compute. right. left.
Defined.

(** C10.  [toLowerCase] is idempotent on every byte string, malformed UTF-8
    included. *)
Theorem toLowerCase_idempotent (s : list Z) :
  Forall is_byte s -> toLowerCase (toLowerCase s) = toLowerCase s.
Proof.
  intros Hs. unfold toLowerCase.
  set (codes := map charToLower (stringToCodes s)).
  assert (Forall (fun c => 0 <= c) codes) as Hnn.
  { unfold codes. apply Forall_map.
    eapply Forall_impl; [apply stringToCodes_nonneg, Hs|].
    intros c Hc. apply charToLower_nonneg, Hc. }
  rewrite stringToCodes_codesToString by exact Hnn.
  assert (map charToLower (filter (fun c => encodable c = true) codes) =
          filter (fun c => encodable c = true) codes) as ->.
  { unfold codes. clear Hnn.
    induction (stringToCodes s) as [|c l IH]; [reflexivity|].
    cbn [map]. rewrite filter_cons.
    destruct (decide (encodable (charToLower c) = true)); [|exact IH].
    cbn [map]. rewrite charToLower_idempotent, IH. reflexivity. }
  apply codesToString_filter_encodable, Hnn.
Qed.

Lemma toLowerCase_idempotent_witness :
  toLowerCase (toLowerCase [72; 208; 156; 255; 247; 191; 191; 191; 224; 97]) =
  toLowerCase [72; 208; 156; 255; 247; 191; 191; 191; 224; 97].
Proof.
  apply (toLowerCase_idempotent [72; 208; 156; 255; 247; 191; 191; 191; 224; 97]).
  repeat constructor; unfold is_byte; lia.
Defined.

(** *** Malformed input *)

(** A byte that cannot start a sequence is skipped: one-byte advance. *)
Lemma stringToCodes_malformed_lead byte rest :
  leadByte byte = None -> stringToCodes (byte :: rest) = stringToCodes rest.
Proof. intros H. rewrite stringToCodes_cons, H. reflexivity. Qed.

(** A lead byte whose continuation bytes are present but not all of the form
    [10xxxxxx] is skipped: one-byte advance. *)
Lemma stringToCodes_bad_continuation byte rest codepoint n :
  leadByte byte = Some (codepoint, n) -> (n <= length rest)%nat ->
  continuationBytes (byte :: rest) 0 1 n codepoint = None ->
  stringToCodes (byte :: rest) = stringToCodes rest.
Proof.
  intros Hlead Hlen Hcont. rewrite stringToCodes_cons, Hlead.
  destruct (decide (length rest < n)%nat); [lia|].
  rewrite Hcont. reflexivity.
Qed.

(** A lead byte with fewer bytes after it than it announces ends the
    decoding ([break]): the bytes after it are not decoded. *)
Lemma stringToCodes_truncated byte rest codepoint n :
  leadByte byte = Some (codepoint, n) -> (length rest < n)%nat ->
  stringToCodes (byte :: rest) = [].
Proof.
  intros Hlead Hlen. rewrite stringToCodes_cons, Hlead.
  destruct (decide (length rest < n)%nat); [reflexivity|lia].
Qed.

(** C4.  The code at a truncated sequence: the lead byte [0xE0] announces
    two continuation bytes; followed by the single valid character [a] it
    ends the decoding, so neither the code point nor the term of [a] is
    produced, whereas a malformed lead byte ([0xFF]) and a lead byte with a
    wrong continuation byte ([0xE0 a b]) are skipped by one byte. *)
Theorem truncated_sequence_ends_decoding :
  stringToCodes [0xE0; 0x61] = [] /\
  stringToCodes [0x61] = [0x61] /\
  tokenize [0xE0; 0x61] = [] /\
  tokenize [0x61] = [[0x61]] /\
  stringToCodes [0xFF; 0x61] = [0x61] /\
  stringToCodes [0xE0; 0x61; 0x62] = [0x61; 0x62].
Proof. repeat split; vm_compute; reflexivity. Qed.

(** *** Bytes written by [codesToString] *)

Lemma codesToString_app codes1 codes2 :
  codesToString (codes1 ++ codes2) = codesToString codes1 ++ codesToString codes2.
Proof.
  induction codes1 as [|c codes1 IH]; [reflexivity|].
  cbn [app]. rewrite !codesToString_cons, IH, app_assoc. reflexivity.
Qed.

Lemma wrap_u8_is_byte z : is_byte (wrap_u8 z).
Proof. unfold is_byte, wrap_u8. apply Z.mod_pos_bound. lia. Qed.

Lemma pushCode_is_byte c : Forall is_byte (pushCode c).
Proof.
  unfold pushCode.
  repeat match goal with
         | |- context [if ?t then _ else _] => destruct t
         end; repeat constructor; apply wrap_u8_is_byte.
Qed.

Lemma codesToString_is_byte codes : Forall is_byte (codesToString codes).
Proof.
  induction codes as [|c codes IH]; [constructor|].
  rewrite codesToString_cons. apply Forall_app. split; [apply pushCode_is_byte|exact IH].
Qed.

(** *** ASCII text *)

Lemma stringToCodes_ascii s :
  Forall (fun b => 0 <= b < 128) s -> stringToCodes s = s.
Proof.
  induction 1 as [|b s Hb Hs IH]; [reflexivity|].
  rewrite stringToCodes_cons, leadByte_ascii by exact Hb.
  destruct (decide (length s < 0)%nat); [lia|].
  cbn [continuationBytes]. rewrite drop_0, IH. reflexivity.
Qed.

Lemma codesToString_ascii codes :
  Forall (fun c => 0 <= c < 128) codes -> codesToString codes = codes.
Proof.
  induction 1 as [|c codes Hc Hs IH]; [reflexivity|].
  rewrite codesToString_cons, IH. unfold pushCode.
  destruct (Z.leb_spec c 127); [|lia].
  rewrite wrap_u8_small by lia. reflexivity.
Qed.

Lemma charToLower_ascii c : 0 <= c < 128 -> 0 <= charToLower c < 128.
Proof.
  intros Hc.
  destruct (charToLower_cases c)
    as [[H ->]|[[H ->]|[[-> ->]|(H1 & H2 & H3 & ->)]]]; lia.
Qed.

(** *** Case folding and word symbols *)

Lemma isValidSymbol_charToLower_eq c :
  isValidSymbol (charToLower c) = isValidSymbol c.
Proof.
  destruct (isValidSymbol c) eqn:Hv.
  - apply isValidSymbol_charToLower, Hv.
  - assert (charToLower c = c) as ->; [|exact Hv].
    apply charToLower_fixed; intros Hc; unfold isValidSymbol in Hv;
      repeat match type of Hv with
             | context [?a <=? ?b] => destruct (Z.leb_spec a b); simpl in Hv; try lia
             end; discriminate.
Qed.

Lemma tokenize_loop_charToLower codes : forall currentToken tokens,
  tokenize_loop (map charToLower codes) currentToken tokens =
  tokenize_loop codes currentToken tokens.
Proof.
  induction codes as [|c codes IH]; intros currentToken tokens; [reflexivity|].
  cbn [map tokenize_loop].
  rewrite isValidSymbol_charToLower_eq, charToLower_idempotent.
  destruct (isValidSymbol c); [apply IH|].
  destruct currentToken; apply IH.
Qed.

Lemma charToLower_encodable c : c <= 0x10FFFF -> charToLower c <= 0x10FFFF.
Proof.
  intros Hc.
  destruct (charToLower_cases c)
    as [[H ->]|[[H ->]|[[-> ->]|(H1 & H2 & H3 & ->)]]]; lia.
Qed.

Lemma filter_encodable_all codes :
  Forall (fun c => c <= 0x10FFFF) codes ->
  filter (fun c => encodable c = true) codes = codes.
Proof.
  induction 1 as [|c codes Hc Hall IH]; [reflexivity|].
  rewrite filter_cons.
  destruct (decide (encodable c = true)) as [_|He]; [rewrite IH; reflexivity|].
  exfalso. apply He. unfold encodable. apply Z.leb_le. exact Hc.
Qed.

Lemma Forall_encodable codes :
  forallb encodable codes = true -> Forall (fun c => c <= 0x10FFFF) codes.
Proof.
  rewrite forallb_forall, Forall_forall. intros Hall c Hin.
  apply list_elem_of_In, Hall in Hin. unfold encodable in Hin.
  apply Z.leb_le, Hin.
Qed.

(** *** Tokens are substrings of the folded text *)

Lemma tokenize_loop_infix codes : forall currentToken tokens t,
  t ∈ tokenize_loop codes currentToken tokens ->
  t ∈ tokens \/
  exists pre token post,
    t = codesToString token /\
    currentToken ++ map charToLower codes = pre ++ token ++ post.
Proof.
  induction codes as [|c codes IH]; intros currentToken tokens t; simpl.
  - destruct currentToken as [|c0 cur]; [auto|].
    intros Hin. apply elem_of_app in Hin as [Hin|Hin]; [auto|].
    apply list_elem_of_singleton in Hin. right.
    exists [], (c0 :: cur), []. split; [exact Hin|].
    rewrite !app_nil_r. reflexivity.
  - destruct (isValidSymbol c).
    + intros Hin. apply IH in Hin as [Hin|(pre & token & post & Ht & Heq)]; [auto|].
      right. exists pre, token, post. split; [exact Ht|].
      rewrite <- Heq, <- app_assoc. reflexivity.
    + destruct currentToken as [|c0 cur].
      * intros Hin.
        apply IH in Hin as [Hin|(pre & token & post & Ht & Heq)]; [auto|].
        right. exists (charToLower c :: pre), token, post.
        split; [exact Ht|]. simpl in Heq |- *. rewrite Heq. reflexivity.
      * intros Hin.
        apply IH in Hin as [Hin|(pre & token & post & Ht & Heq)].
        -- apply elem_of_app in Hin as [Hin|Hin]; [auto|].
           apply list_elem_of_singleton in Hin. right.
           exists [], (c0 :: cur), (charToLower c :: map charToLower codes).
           split; [exact Hin|reflexivity].
        -- right.
           exists ((c0 :: cur) ++ charToLower c :: pre), token, post.
           split; [exact Ht|]. simpl in Heq. rewrite Heq, <- app_assoc.
           reflexivity.
Qed.

(** X8.  Decoding inverts encoding: for code points up to U+10FFFF,
    [codesToString] writes bytes and [stringToCodes] reads the same code
    points back. *)
Theorem stringToCodes_codesToString_roundtrip (codes : list Z) :
  Forall (fun c => 0 <= c <= 0x10FFFF) codes ->
  Forall is_byte (codesToString codes) /\
  stringToCodes (codesToString codes) = codes.
Proof.
  intros Hall. split; [apply codesToString_is_byte|].
  rewrite stringToCodes_codesToString.
  - apply filter_encodable_all.
    eapply Forall_impl; [exact Hall|]. intros c Hc. simpl in *. lia.
  - eapply Forall_impl; [exact Hall|]. intros c Hc. simpl in *. lia.
Qed.

Lemma stringToCodes_codesToString_roundtrip_witness :
  Forall is_byte (codesToString [0; 72; 233; 1052; 8364; 65535; 128512; 1114111]) /\
  stringToCodes (codesToString [0; 72; 233; 1052; 8364; 65535; 128512; 1114111]) =
  [0; 72; 233; 1052; 8364; 65535; 128512; 1114111].
Proof.
  apply (stringToCodes_codesToString_roundtrip
           [0; 72; 233; 1052; 8364; 65535; 128512; 1114111]).
  repeat constructor; lia.
Defined.

(** X9.  On ASCII text (every byte below 128) the bytes are the code
    points: [stringToCodes] and [codesToString] are the identity, and
    [toLowerCase] folds byte by byte, keeping the length. *)
Theorem toLowerCase_ascii (s : list Z) :
  Forall (fun b => 0 <= b < 128) s ->
  stringToCodes s = s /\ codesToString s = s /\
  toLowerCase s = map charToLower s /\
  length (toLowerCase s) = length s.
Proof.
  intros Hs.
  assert (toLowerCase s = map charToLower s) as Hlower.
  { unfold toLowerCase. rewrite stringToCodes_ascii by exact Hs.
    apply codesToString_ascii. apply Forall_map.
    eapply Forall_impl; [exact Hs|]. intros c Hc. apply charToLower_ascii, Hc. }
  split; [apply stringToCodes_ascii, Hs|].
  split; [apply codesToString_ascii, Hs|].
  split; [exact Hlower|]. rewrite Hlower. apply length_map.
Qed.

Lemma toLowerCase_ascii_witness :
  stringToCodes [72; 101; 76; 76; 79; 32; 90; 33] = [72; 101; 76; 76; 79; 32; 90; 33] /\
  codesToString [72; 101; 76; 76; 79; 32; 90; 33] = [72; 101; 76; 76; 79; 32; 90; 33] /\
  toLowerCase [72; 101; 76; 76; 79; 32; 90; 33] =
  map charToLower [72; 101; 76; 76; 79; 32; 90; 33] /\
  length (toLowerCase [72; 101; 76; 76; 79; 32; 90; 33]) =
  length [72; 101; 76; 76; 79; 32; 90; 33].
Proof.
  apply (toLowerCase_ascii [72; 101; 76; 76; 79; 32; 90; 33]).
  repeat constructor; lia.
Defined.

(** X10.  Tokenizing is case-insensitive: on a byte string that decodes
    to code points up to U+10FFFF, [tokenize (toLowerCase s)] gives the
    terms of [tokenize s]. *)
Theorem tokenize_toLowerCase (s : list Z) :
  Forall is_byte s ->
  Forall (fun c => c <= 0x10FFFF) (stringToCodes s) ->
  tokenize (toLowerCase s) = tokenize s.
Proof.
  intros Hs Hcodes. unfold tokenize, toLowerCase.
  rewrite stringToCodes_codesToString.
  - rewrite filter_encodable_all.
    + apply tokenize_loop_charToLower.
    + apply Forall_map. eapply Forall_impl; [exact Hcodes|].
      intros c Hc. apply charToLower_encodable, Hc.
  - apply Forall_map. eapply Forall_impl; [apply stringToCodes_nonneg, Hs|].
    intros c Hc. apply charToLower_nonneg, Hc.
Qed.

Lemma tokenize_toLowerCase_witness :
  tokenize (toLowerCase [72; 105; 44; 32; 208; 156; 208; 184; 209; 128; 33; 255]) =
  tokenize [72; 105; 44; 32; 208; 156; 208; 184; 209; 128; 33; 255].
Proof.
  apply (tokenize_toLowerCase
           [72; 105; 44; 32; 208; 156; 208; 184; 209; 128; 33; 255]).
  - repeat constructor; unfold is_byte; lia.
  - apply Forall_encodable. vm_compute. reflexivity.
Defined.

(** X11.  Every term that [tokenize] emits occurs in
    [toLowerCase s] as a contiguous run of bytes. *)
Theorem tokenize_terms_in_toLowerCase (s t : list Z) :
  t ∈ tokenize s -> exists before after, toLowerCase s = before ++ t ++ after.
Proof.
  unfold tokenize, toLowerCase. intros Hin.
  apply tokenize_loop_infix in Hin as [Hin|(pre & token & post & -> & Heq)];
    [inversion Hin|].
  simpl in Heq. rewrite Heq, !codesToString_app. eauto.
Qed.

Lemma tokenize_terms_in_toLowerCase_witness :
  exists before after,
    toLowerCase [72; 105; 44; 32; 208; 156; 208; 184; 209; 128; 33] =
    before ++ [208; 188; 208; 184; 209; 128] ++ after.
Proof.
  apply (tokenize_terms_in_toLowerCase
           [72; 105; 44; 32; 208; 156; 208; 184; 209; 128; 33]).
  vm_compute. right. left.
Defined.

End TextUtils.

(** ** Ordering of [double] values *)

Module DoubleOrder.

Import SpecFloat.

(** A key whose lexicographic order is the order of the non-NaN values. *)
Definition key (f : spec_float) : Z * Z * Z :=
  match f with
  | S754_nan => (0, 0, 0)
  | S754_infinity true => (-2, 0, 0)
  | S754_infinity false => (2, 0, 0)
  | S754_zero _ => (0, 0, 0)
  | S754_finite true m e => (-1, - e, - Z.pos m)
  | S754_finite false m e => (1, e, Z.pos m)
  end.

Definition key_lt (a b : Z * Z * Z) : Prop :=
  a.1.1 < b.1.1 \/
  (a.1.1 = b.1.1 /\ (a.1.2 < b.1.2 \/ (a.1.2 = b.1.2 /\ a.2 < b.2))).

Definition not_nan (f : spec_float) : Prop := f <> S754_nan.

Lemma SFltb_key a b : not_nan a -> not_nan b ->
  (SFltb a b = true <-> key_lt (key a) (key b)).
Proof.
  unfold not_nan, SFltb, key_lt.
  destruct a as [[]|[]| |[] ma ea], b as [[]|[]| |[] mb eb];
    intros Ha Hb; try congruence; simpl;
    try (split; [discriminate|lia]); try (split; [reflexivity|lia]);
    try (split; [intros _; lia|reflexivity]).
  - destruct (Z.compare_spec ea eb) as [->|Hlt|Hgt]; simpl.
    + change (Pos.compare_cont Eq ma mb) with (Pos.compare ma mb).
      destruct (Pos.compare_spec ma mb) as [->|Hm|Hm]; simpl;
        (split; [try discriminate; intros _|try reflexivity]); lia.
    + split; [discriminate|lia].
    + split; [intros _; lia|reflexivity].
  - destruct (Z.compare_spec ea eb) as [->|Hlt|Hgt]; simpl.
    + change (Pos.compare_cont Eq ma mb) with (Pos.compare ma mb).
      destruct (Pos.compare_spec ma mb) as [->|Hm|Hm]; simpl;
        (split; [try discriminate; intros _|try reflexivity]); lia.
    + split; [intros _; lia|reflexivity].
    + split; [discriminate|lia].
Qed.

Lemma SFltb_false_key a b : not_nan a -> not_nan b ->
  (SFltb a b = false <-> ~ key_lt (key a) (key b)).
Proof.
  intros Ha Hb. rewrite <- (SFltb_key a b Ha Hb).
  destruct (SFltb a b); split; congruence.
Qed.

Lemma SFleb_not_nan a b : SFleb a b = true -> not_nan a /\ not_nan b.
Proof.
  unfold SFleb, not_nan.
  destruct a as [[]|[]| |[] ma ea], b as [[]|[]| |[] mb eb]; simpl;
    intros H; split; congruence.
Qed.

Lemma SFleb_key a b : not_nan a -> not_nan b ->
  (SFleb a b = true <-> ~ key_lt (key b) (key a)).
Proof.
  unfold not_nan, SFleb, key_lt.
  destruct a as [[]|[]| |[] ma ea], b as [[]|[]| |[] mb eb];
    intros Ha Hb; try congruence; simpl;
    try (split; [discriminate|lia]); try (split; [reflexivity|lia]);
    try (split; [intros _; lia|reflexivity]).
  - destruct (Z.compare_spec ea eb) as [->|Hlt|Hgt]; simpl.
    + change (Pos.compare_cont Eq ma mb) with (Pos.compare ma mb).
      destruct (Pos.compare_spec ma mb) as [->|Hm|Hm]; simpl;
        (split; [try discriminate; intros _|try reflexivity]); lia.
    + split; [discriminate|lia].
    + split; [intros _; lia|reflexivity].
  - destruct (Z.compare_spec ea eb) as [->|Hlt|Hgt]; simpl.
    + change (Pos.compare_cont Eq ma mb) with (Pos.compare ma mb).
      destruct (Pos.compare_spec ma mb) as [->|Hm|Hm]; simpl;
        (split; [try discriminate; intros _|try reflexivity]); lia.
    + split; [intros _; lia|reflexivity].
    + split; [discriminate|lia].
Qed.

(** [a.score > b.score] on [double]s. *)
Definition gt (a b : float) : bool := PrimFloat.ltb b a.
(** [a >= b] on [double]s. *)
Definition ge (a b : float) : bool := PrimFloat.leb b a.

Definition is_number (x : float) : Prop := not_nan (Prim2SF x).

Lemma ge_is_number a b : ge a b = true -> is_number a /\ is_number b.
Proof.
  unfold ge, is_number. rewrite leb_spec. intros H.
  apply SFleb_not_nan in H. tauto.
Qed.

Lemma gt_key a b : is_number a -> is_number b ->
  (gt a b = true <-> key_lt (key (Prim2SF b)) (key (Prim2SF a))).
Proof. intros Ha Hb. unfold gt. rewrite ltb_spec. apply SFltb_key; assumption. Qed.

Lemma gt_false_key a b : is_number a -> is_number b ->
  (gt a b = false <-> ~ key_lt (key (Prim2SF b)) (key (Prim2SF a))).
Proof.
  intros Ha Hb. unfold gt. rewrite ltb_spec. apply SFltb_false_key; assumption.
Qed.

Lemma ge_key a b : is_number a -> is_number b ->
  (ge a b = true <-> ~ key_lt (key (Prim2SF a)) (key (Prim2SF b))).
Proof. intros Ha Hb. unfold ge. rewrite leb_spec. apply SFleb_key; assumption. Qed.

Lemma gt_false_ge a b : is_number a -> is_number b -> gt b a = false -> ge a b = true.
Proof.
  intros Ha Hb H. apply (gt_false_key b a Hb Ha) in H.
  apply (ge_key a b Ha Hb). exact H.
Qed.

(** [>] is a strict weak ordering on numbers. *)
Lemma gt_strict_weak_order {A} (score_of : A -> float) (l : list A) :
  (forall x, x ∈ l -> is_number (score_of x)) ->
  (forall x, x ∈ l -> gt (score_of x) (score_of x) = false) /\
  (forall x y z, x ∈ l -> y ∈ l -> z ∈ l ->
     gt (score_of x) (score_of y) = true -> gt (score_of y) (score_of z) = true ->
     gt (score_of x) (score_of z) = true) /\
  (forall x y z, x ∈ l -> y ∈ l -> z ∈ l ->
     gt (score_of x) (score_of y) = false -> gt (score_of y) (score_of x) = false ->
     gt (score_of y) (score_of z) = false -> gt (score_of z) (score_of y) = false ->
     gt (score_of x) (score_of z) = false /\ gt (score_of z) (score_of x) = false).
Proof.
  intros Hnum. split; [|split].
  - intros x Hx. apply gt_false_key; [apply Hnum, Hx..|].
    unfold key_lt. lia.
  - intros x y z Hx Hy Hz.
    rewrite !gt_key by (apply Hnum; assumption).
    unfold key_lt. lia.
  - intros x y z Hx Hy Hz.
    rewrite !gt_false_key by (apply Hnum; assumption).
    unfold key_lt. lia.
Qed.

End DoubleOrder.

(** ** [std::sort] *)

Module StdSort.

(** [comp] is a strict weak ordering on the elements of [l]. *)
Definition strict_weak_order_on {A} (comp : A -> A -> bool) (l : list A) : Prop :=
  (forall x, x ∈ l -> comp x x = false) /\
  (forall x y z, x ∈ l -> y ∈ l -> z ∈ l ->
     comp x y = true -> comp y z = true -> comp x z = true) /\
  (forall x y z, x ∈ l -> y ∈ l -> z ∈ l ->
     comp x y = false -> comp y x = false ->
     comp y z = false -> comp z y = false ->
     comp x z = false /\ comp z x = false).

(** No element is ordered before an element that precedes it. *)
Definition sorted_by {A} (comp : A -> A -> bool) (l : list A) : Prop :=
  StronglySorted (fun x y => comp y x = false) l.

(** What the C++ standard promises of [std::sort(first, last, comp)] when
    [comp] is a strict weak ordering: the range is permuted into an order
    sorted with respect to [comp].  The order of equivalent elements is not
    specified. *)
Definition sort_contract (sort : forall A, (A -> A -> bool) -> list A -> list A)
  : Prop :=
  forall A (comp : A -> A -> bool) (l : list A),
    strict_weak_order_on comp l ->
    sort A comp l ≡ₚ l /\ sorted_by comp (sort A comp l).

(** An implementation that meets the contract: insertion, from the last
    element to the first, each element placed after the elements it is not
    ordered before.  It is an instance of the contract, not the sort the
    program runs (for that one see [Libstdcxx]). *)
Fixpoint insert_sorted {A} (comp : A -> A -> bool) (x : A) (l : list A) : list A :=
  match l with
  | [] => [x]
  | y :: l' => if comp x y then x :: l else y :: insert_sorted comp x l'
  end.

Definition insertion_sort : forall A, (A -> A -> bool) -> list A -> list A :=
  fun A comp l => foldr (insert_sorted comp) [] l.

Lemma insert_sorted_Permutation {A} (comp : A -> A -> bool) x l :
  insert_sorted comp x l ≡ₚ x :: l.
Proof.
  induction l as [|y l IH]; simpl; [reflexivity|].
  destruct (comp x y); [reflexivity|].
  rewrite IH. apply Permutation_swap.
Qed.

Lemma insertion_sort_Permutation {A} (comp : A -> A -> bool) l :
  insertion_sort A comp l ≡ₚ l.
Proof.
  induction l as [|x l IH]; simpl; [reflexivity|].
  rewrite insert_sorted_Permutation, IH. reflexivity.
Qed.

Lemma insert_sorted_sorted {A} (comp : A -> A -> bool) (all : list A) x l :
  strict_weak_order_on comp all -> x ∈ all -> (forall y, y ∈ l -> y ∈ all) ->
  sorted_by comp l -> sorted_by comp (insert_sorted comp x l).
Proof.
  intros (Hirr & Htrans & _) Hx Hl Hs. unfold sorted_by in *.
  induction Hs as [|y l Hs IH Hy]; simpl.
  - repeat constructor.
  - destruct (comp x y) eqn:Hxy.
    + constructor; [constructor; assumption|].
      assert (y ∈ all) as Hyall by (apply Hl; left).
      constructor.
      * destruct (comp y x) eqn:Hyx; [|reflexivity].
        rewrite <- (Hirr x Hx). symmetry. apply (Htrans x y x); assumption.
      * rewrite Forall_forall in Hy |- *. intros z Hz.
        assert (z ∈ all) as Hzall by (apply Hl; right; exact Hz).
        destruct (comp z x) eqn:Hzx; [|reflexivity].
        rewrite <- (Hy z Hz). symmetry. apply (Htrans z x y); assumption.
    + constructor.
      * apply IH. intros z Hz. apply Hl. right. exact Hz.
      * rewrite Forall_forall in Hy |- *. intros z Hz.
        rewrite insert_sorted_Permutation in Hz.
        apply elem_of_cons in Hz as [->|Hz]; [exact Hxy|apply Hy, Hz].
Qed.

Lemma insertion_sort_contract : sort_contract insertion_sort.
Proof.
  intros A comp l Hswo. split; [apply insertion_sort_Permutation|].
  assert (forall l', (forall y, y ∈ l' -> y ∈ l) ->
                     sorted_by comp (insertion_sort A comp l')) as Hgen.
  { induction l' as [|x l' IH]; intros Hsub; simpl; [constructor|].
    apply (insert_sorted_sorted comp l); [exact Hswo|apply Hsub; left| |].
    - intros y Hy. rewrite insertion_sort_Permutation in Hy.
      apply Hsub. right. exact Hy.
    - apply IH. intros y Hy. apply Hsub. right. exact Hy. }
  apply Hgen. auto.
Qed.

End StdSort.

(** ** [std::sort] as GNU libstdc++ implements it

    [std::sort] of libstdc++, the standard library of GCC ([bits/stl_algo.h]
    and [bits/stl_heap.h], with the names of its functions), is an
    introsort: median-of-three quicksort down to ranges of 16 elements,
    heapsort when the recursion gets too deep, and one final insertion
    sort.  The vector is a list and
    an iterator is a position in it.  An access outside the vector is
    undefined behaviour in C++ and does not occur when [comp] is a strict
    weak ordering; here a comparison with an element outside the vector is
    [false] and a write outside does nothing. *)

Module Libstdcxx.

Section Sort.

Context {A : Type} (comp : A -> A -> bool).

(** [comp(i, j)] on two iterators. *)
Definition comp_iter (v : list A) (i j : nat) : bool :=
  match v !! i, v !! j with
  | Some x, Some y => comp x y
  | _, _ => false
  end.

(** [comp(val, j)]. *)
Definition comp_val_iter (v : list A) (val : A) (j : nat) : bool :=
  match v !! j with
  | Some y => comp val y
  | None => false
  end.

(** [comp(i, val)]. *)
Definition comp_iter_val (v : list A) (i : nat) (val : A) : bool :=
  match v !! i with
  | Some x => comp x val
  | None => false
  end.

Definition iter_swap (v : list A) (i j : nat) : list A :=
  match v !! i, v !! j with
  | Some x, Some y => <[j := x]> (<[i := y]> v)
  | _, _ => v
  end.

(** [*i = *j]. *)
Definition assign (v : list A) (i j : nat) : list A :=
  match v !! j with
  | Some y => <[i := y]> v
  | None => v
  end.

(** *** [bits/stl_heap.h] *)

(** The [while] loop of [__push_heap] and the final store of [value];
    [fuel] bounds the rounds by the position of the hole. *)
Fixpoint push_heap_loop (fuel : nat) (v : list A)
  (first holeIndex topIndex : nat) (value : A) : list A :=
  let parent := ((holeIndex - 1) / 2)%nat in
  match fuel with
  | S fuel' =>
      if (topIndex <? holeIndex)%nat && comp_iter_val v (first + parent) value
      then push_heap_loop fuel' (assign v (first + holeIndex) (first + parent))
                          first parent topIndex value
      else <[(first + holeIndex)%nat := value]> v
  | O => <[(first + holeIndex)%nat := value]> v
  end.

Definition push_heap (v : list A) (first holeIndex topIndex : nat) (value : A)
  : list A :=
  push_heap_loop (S holeIndex) v first holeIndex topIndex value.

(** The [while (secondChild < (len - 1) / 2)] loop of [__adjust_heap], in
    which [holeIndex] and [secondChild] are equal at every test; it returns
    the vector and the hole. *)
Fixpoint adjust_heap_loop (fuel : nat) (v : list A) (first holeIndex len : nat)
  : list A * nat :=
  match fuel with
  | S fuel' =>
      if (holeIndex <? (len - 1) / 2)%nat then
        let secondChild := (2 * (holeIndex + 1))%nat in
        let secondChild :=
          if comp_iter v (first + secondChild) (first + (secondChild - 1))
          then (secondChild - 1)%nat else secondChild in
        adjust_heap_loop fuel' (assign v (first + holeIndex) (first + secondChild))
                         first secondChild len
      else (v, holeIndex)
  | O => (v, holeIndex)
  end.

Definition adjust_heap (v : list A) (first holeIndex len : nat) (value : A)
  : list A :=
  let topIndex := holeIndex in
  let '(v, holeIndex) := adjust_heap_loop len v first holeIndex len in
  let '(v, holeIndex) :=
    if Nat.even len && (2 <=? len)%nat && (holeIndex =? (len - 2) / 2)%nat then
      let secondChild := (2 * (holeIndex + 1))%nat in
      (assign v (first + holeIndex) (first + (secondChild - 1)),
       (secondChild - 1)%nat)
    else (v, holeIndex) in
  push_heap v first holeIndex topIndex value.

(** [__pop_heap(first, last, result)]. *)
Definition pop_heap (v : list A) (first last result : nat) : list A :=
  match v !! result with
  | Some value => adjust_heap (assign v result first) first 0 (last - first) value
  | None => v
  end.

(** The [while (true)] loop of [__make_heap], from [parent] down to 0. *)
Fixpoint make_heap_loop (v : list A) (first len parent : nat) : list A :=
  let v := match v !! (first + parent)%nat with
           | Some value => adjust_heap v first parent len value
           | None => v
           end in
  match parent with
  | O => v
  | S parent' => make_heap_loop v first len parent'
  end.

Definition make_heap (v : list A) (first last : nat) : list A :=
  if (last - first <? 2)%nat then v
  else make_heap_loop v first (last - first) ((last - first - 2) / 2).

(** [while (last - first > 1) { --last; __pop_heap(first, last, last); }] *)
Fixpoint sort_heap_loop (fuel : nat) (v : list A) (first last : nat) : list A :=
  match fuel with
  | S fuel' =>
      if (1 <? last - first)%nat
      then sort_heap_loop fuel' (pop_heap v first (last - 1) (last - 1))
                          first (last - 1)
      else v
  | O => v
  end.

Definition sort_heap (v : list A) (first last : nat) : list A :=
  sort_heap_loop (last - first) v first last.

(** *** [bits/stl_algo.h] *)

(** The [for] loop of [__heap_select], [n] elements from [i] on. *)
Fixpoint heap_select_loop (n : nat) (v : list A) (first middle i : nat)
  : list A :=
  match n with
  | S n' =>
      heap_select_loop n'
        (if comp_iter v i first then pop_heap v first middle i else v)
        first middle (S i)
  | O => v
  end.

Definition heap_select (v : list A) (first middle last : nat) : list A :=
  heap_select_loop (last - middle) (make_heap v first middle) first middle middle.

Definition partial_sort (v : list A) (first middle last : nat) : list A :=
  sort_heap (heap_select v first middle last) first middle.

Definition move_median_to_first (v : list A) (result a b c : nat) : list A :=
  if comp_iter v a b then
    if comp_iter v b c then iter_swap v result b
    else if comp_iter v a c then iter_swap v result c
    else iter_swap v result a
  else if comp_iter v a c then iter_swap v result a
  else if comp_iter v b c then iter_swap v result c
  else iter_swap v result b.

(** [while (comp(val, next)) { *last = *next; last = next; --next; }
    *last = val;] of [__unguarded_linear_insert]. *)
Fixpoint linear_insert_loop (v : list A) (val : A) (last : nat) : list A :=
  match last with
  | S next =>
      if comp_val_iter v val next
      then linear_insert_loop (assign v last next) val next
      else <[last := val]> v
  | O => <[last := val]> v
  end.

Definition unguarded_linear_insert (v : list A) (last : nat) : list A :=
  match v !! last with
  | Some val => linear_insert_loop v val last
  | None => v
  end.

(** [val = *i; move_backward(first, i, i + 1); *first = val;] *)
Definition rotate_to_first (v : list A) (first i : nat) : list A :=
  match v !! i with
  | Some val =>
      take first v ++ val :: take (i - first) (drop first v) ++ drop (S i) v
  | None => v
  end.

(** The [for] loop of [__insertion_sort], [n] elements from [i] on. *)
Fixpoint insertion_sort_loop (n : nat) (v : list A) (first i : nat) : list A :=
  match n with
  | S n' =>
      insertion_sort_loop n'
        (if comp_iter v i first then rotate_to_first v first i
         else unguarded_linear_insert v i)
        first (S i)
  | O => v
  end.

Definition insertion_sort (v : list A) (first last : nat) : list A :=
  if (first =? last)%nat then v
  else insertion_sort_loop (last - (first + 1)) v first (first + 1).

Fixpoint unguarded_insertion_sort_loop (n : nat) (v : list A) (i : nat)
  : list A :=
  match n with
  | S n' => unguarded_insertion_sort_loop n' (unguarded_linear_insert v i) (S i)
  | O => v
  end.

Definition unguarded_insertion_sort (v : list A) (first last : nat) : list A :=
  unguarded_insertion_sort_loop (last - first) v first.

Definition _S_threshold : nat := 16.

Definition final_insertion_sort (v : list A) (first last : nat) : list A :=
  if (_S_threshold <? last - first)%nat then
    unguarded_insertion_sort
      (insertion_sort v first (first + _S_threshold))
      (first + _S_threshold) last
  else insertion_sort v first last.

(** [while (comp(first, pivot)) ++first;] *)
Fixpoint scan_forward (fuel : nat) (v : list A) (first pivot : nat) : nat :=
  match fuel with
  | S fuel' =>
      if comp_iter v first pivot then scan_forward fuel' v (S first) pivot
      else first
  | O => first
  end.

(** [while (comp(pivot, last)) --last;] *)
Fixpoint scan_backward (v : list A) (pivot last : nat) : nat :=
  if comp_iter v pivot last then
    match last with
    | S last' => scan_backward v pivot last'
    | O => last
    end
  else last.

(** The [while (true)] loop of [__unguarded_partition]. *)
Fixpoint unguarded_partition_loop (fuel : nat) (v : list A)
  (first last pivot : nat) : list A * nat :=
  match fuel with
  | S fuel' =>
      let first := scan_forward (length v) v first pivot in
      let last := scan_backward v pivot (last - 1) in
      if negb (first <? last)%nat then (v, first)
      else unguarded_partition_loop fuel' (iter_swap v first last)
                                    (S first) last pivot
  | O => (v, first)
  end.

Definition unguarded_partition (v : list A) (first last pivot : nat)
  : list A * nat :=
  unguarded_partition_loop (S (length v)) v first last pivot.

Definition unguarded_partition_pivot (v : list A) (first last : nat)
  : list A * nat :=
  let mid := (first + (last - first) / 2)%nat in
  unguarded_partition
    (move_median_to_first v first (first + 1) mid (last - 1))
    (first + 1) last first.

(** [__introsort_loop]: every round of its [while] loop, like the recursive
    call, lowers [depth_limit] by one. *)
Fixpoint introsort_loop (depth_limit : nat) (v : list A) (first last : nat)
  : list A :=
  if (_S_threshold <? last - first)%nat then
    match depth_limit with
    | O => partial_sort v first last last
    | S depth_limit' =>
        let '(v, cut) := unguarded_partition_pivot v first last in
        let v := introsort_loop depth_limit' v cut last in
        introsort_loop depth_limit' v first cut
    end
  else v.

(** [std::sort(v.begin(), v.end(), comp)]; [__lg(n)] is the position of
    the highest bit of [n]. *)
Definition sort_range (v : list A) : list A :=
  match v with
  | [] => v
  | _ =>
      final_insertion_sort
        (introsort_loop (Nat.log2 (length v) * 2) v 0 (length v))
        0 (length v)
  end.

End Sort.

Definition sort (A : Type) (comp : A -> A -> bool) (v : list A) : list A :=
  sort_range comp v.

End Libstdcxx.

(** ** search_engine.hpp: [Hasher] and [CustomHashMap] *)

Module CustomHashMap.

Definition HASH_SIZE : Z := 10000.

Definition wrap_u64 (z : Z) : Z := z mod 2 ^ 64.

(** [Hasher::operator()]: a bucket index below [HASH_SIZE]. *)
Class Hasher (K : Type) := {
  hasher : K -> Z;
  hasher_lt : forall key, 0 <= hasher key < HASH_SIZE
}.

Lemma mod_HASH_SIZE_lt z : 0 <= z mod 10000 < HASH_SIZE.
Proof. unfold HASH_SIZE. apply Z.mod_pos_bound. lia. Qed.

(** [for (unsigned char c : key) hash = hash * 31 + c; return hash % 10000;] *)
Definition hash_string (key : list Z) : Z :=
  foldl (fun hash c => wrap_u64 (hash * 31 + c)) 0 key mod 10000.

(** [static_cast<size_t>(std::abs(key)) % 10000] *)
Definition hash_int (key : Z) : Z :=
  wrap_u64 (wrap_int (Z.abs key)) mod 10000.

#[global] Instance string_Hasher : Hasher (list Z) :=
  {| hasher := hash_string; hasher_lt := fun key => mod_HASH_SIZE_lt _ |}.

#[global] Instance int_Hasher : Hasher Z :=
  {| hasher := hash_int; hasher_lt := fun key => mod_HASH_SIZE_lt _ |}.

(** The bucket indices [i, i + 1, ..., i + n - 1]. *)
Fixpoint bucket_indices (n : nat) (i : Z) : list Z :=
  match n with
  | O => []
  | S n' => i :: bucket_indices n' (i + 1)
  end.

(** [0 .. HASH_SIZE - 1], the order in which the iterators visit the
    buckets. *)
Definition all_buckets : list Z := bucket_indices (Z.to_nat HASH_SIZE) 0.

Lemma elem_of_bucket_indices n : forall i x,
  x ∈ bucket_indices n i <-> i <= x < i + Z.of_nat n.
Proof.
  induction n as [|n IH]; intros i x; simpl.
  - split; [intros Hin; inversion Hin|lia].
  - rewrite elem_of_cons, IH. lia.
Qed.

Lemma NoDup_bucket_indices n : forall i, NoDup (bucket_indices n i).
Proof.
  induction n as [|n IH]; intros i; simpl; [constructor|].
  apply NoDup_cons. split; [|apply IH].
  rewrite elem_of_bucket_indices. lia.
Qed.

Lemma elem_of_all_buckets x : x ∈ all_buckets <-> 0 <= x < HASH_SIZE.
Proof.
  unfold all_buckets. rewrite elem_of_bucket_indices.
  unfold HASH_SIZE. lia.
Qed.

Section Map.
Context {K V : Type} `{EqDecision K} `{Hasher K}.

(** [std::vector<std::pair<K, V>> m_buckets[HASH_SIZE]]: the array as a
    function of the bucket index. *)
Record t : Type := { m_buckets : Z -> list (K * V) }.

Definition empty : t := {| m_buckets := fun _ => [] |}.

(** The scan of one bucket in [insert]: overwrite in place or [push_back]. *)
Fixpoint bucket_insert (bucket : list (K * V)) (key : K) (value : V)
  : list (K * V) :=
  match bucket with
  | [] => [(key, value)]
  | p :: bucket' =>
      if decide (p.1 = key) then (p.1, value) :: bucket'
      else p :: bucket_insert bucket' key value
  end.

Fixpoint bucket_find (bucket : list (K * V)) (key : K) : option V :=
  match bucket with
  | [] => None
  | p :: bucket' =>
      if decide (p.1 = key) then Some p.2 else bucket_find bucket' key
  end.

Definition insert (key : K) (value : V) (m : t) : t :=
  let index := hasher key in
  {| m_buckets := fun i =>
       if decide (i = index) then bucket_insert (m_buckets m index) key value
       else m_buckets m i |}.

(** [find]: [None] is [nullptr]. *)
Definition find (m : t) (key : K) : option V :=
  bucket_find (m_buckets m (hasher key)) key.

Definition count (m : t) (key : K) : bool :=
  match find m key with Some _ => true | None => false end.

Definition size (m : t) : nat :=
  foldl (fun total i => (total + length (m_buckets m i))%nat) 0%nat
        all_buckets.

(** The pairs visited by [for (auto &entry : m)], in iteration order. *)
Definition entries (m : t) : list (K * V) :=
  flat_map (m_buckets m) all_buckets.

(** Inserting a list of pairs, first to last. *)
Definition insert_all (l : list (K * V)) (m : t) : t :=
  foldl (fun m p => insert p.1 p.2 m) m l.

(** Every pair sits in the bucket of its key, and no bucket holds a key
    twice: what [insert] maintains from the empty map on. *)
Definition wf (m : t) : Prop :=
  forall i,
    (forall p, p ∈ m_buckets m i -> hasher p.1 = i) /\
    NoDup (map fst (m_buckets m i)).

Lemma bucket_find_insert bucket key value key' :
  bucket_find (bucket_insert bucket key value) key' =
  if decide (key = key') then Some value else bucket_find bucket key'.
Proof.
  induction bucket as [|p bucket IH]; simpl.
  - destruct (decide (key = key')); reflexivity.
  - destruct (decide (p.1 = key)) as [Heq|Hne]; simpl.
    + destruct (decide (p.1 = key')), (decide (key = key')); congruence.
    + destruct (decide (p.1 = key')) as [Heq'|Hne'].
      * destruct (decide (key = key')); congruence.
      * exact IH.
Qed.

Lemma find_empty key : find empty key = None.
Proof. reflexivity. Qed.

Lemma find_insert m key value key' :
  find (insert key value m) key' =
  if decide (key = key') then Some value else find m key'.
Proof.
  unfold find, insert. simpl.
  destruct (decide (hasher key' = hasher key)) as [Hh|Hh].
  - rewrite bucket_find_insert, Hh. reflexivity.
  - destruct (decide (key = key')) as [->|_]; congruence.
Qed.

Lemma bucket_find_Some bucket key value :
  NoDup (map fst bucket) ->
  (bucket_find bucket key = Some value <-> (key, value) ∈ bucket).
Proof.
  induction bucket as [|p bucket IH]; simpl; intros Hnd.
  - split; [discriminate|]. intros Hin. inversion Hin.
  - apply NoDup_cons in Hnd as [Hp Hnd]. specialize (IH Hnd).
    destruct (decide (p.1 = key)) as [Heq|Hne].
    + split.
      * intros [= <-]. rewrite <- Heq. destruct p; left.
      * intros Hin. apply elem_of_cons in Hin as [Hhd|Hin];
          [rewrite <- Hhd; reflexivity|].
        exfalso. apply Hp. rewrite Heq.
        apply list_elem_of_fmap. exists (key, value). split; [reflexivity|exact Hin].
    + rewrite IH. split; [intros Hin; right; exact Hin|].
      intros Hin. apply elem_of_cons in Hin as [Hhd|Hin]; [|exact Hin].
      rewrite <- Hhd in Hne. simpl in Hne. congruence.
Qed.

Lemma bucket_find_None bucket key :
  bucket_find bucket key = None <-> key ∉ map fst bucket.
Proof.
  induction bucket as [|p bucket IH]; simpl.
  - split; [intros _ Hin; inversion Hin|reflexivity].
  - destruct (decide (p.1 = key)) as [Heq|Hne].
    + split; [discriminate|]. intros Hnin. exfalso. apply Hnin.
      rewrite Heq. left.
    + rewrite IH. rewrite not_elem_of_cons.
      split; [intros Hnin; split; [congruence|exact Hnin]|intros [_ Hnin]; exact Hnin].
Qed.

Lemma bucket_insert_keys bucket key value :
  map fst (bucket_insert bucket key value) =
  if decide (key ∈ map fst bucket) then map fst bucket
  else map fst bucket ++ [key].
Proof.
  induction bucket as [|p bucket IH]; simpl.
  - destruct (decide (key ∈ [])) as [Hin|_]; [inversion Hin|reflexivity].
  - destruct (decide (p.1 = key)) as [Heq|Hne]; simpl.
    + destruct (decide (key ∈ p.1 :: map fst bucket)) as [_|Hnin];
        [reflexivity|].
      exfalso. apply Hnin. rewrite Heq. left.
    + rewrite IH.
      destruct (decide (key ∈ map fst bucket)) as [Hin|Hnin];
        destruct (decide (key ∈ p.1 :: map fst bucket)) as [Hin'|Hnin'];
        try reflexivity.
      * exfalso. apply Hnin'. right. exact Hin.
      * exfalso. apply elem_of_cons in Hin' as [?|?]; [congruence|tauto].
Qed.

Lemma elem_of_bucket_insert bucket key value p :
  p ∈ bucket_insert bucket key value -> p.1 = key \/ p ∈ bucket.
Proof.
  induction bucket as [|q bucket IH]; simpl.
  - intros Hin. apply list_elem_of_singleton in Hin. left. rewrite Hin. reflexivity.
  - destruct (decide (q.1 = key)) as [Heq|Hne].
    + intros Hin. apply elem_of_cons in Hin as [->|Hin].
      * left. exact Heq.
      * right. right. exact Hin.
    + intros Hin. apply elem_of_cons in Hin as [->|Hin].
      * right. left.
      * destruct (IH Hin) as [?|?]; [left; assumption|right; right; assumption].
Qed.

Lemma wf_empty : wf empty.
Proof.
  intros i. simpl. split; [intros p Hin; inversion Hin|constructor].
Qed.

Lemma wf_insert m key value : wf m -> wf (insert key value m).
Proof.
  intros Hwf i. unfold insert. simpl.
  destruct (decide (i = hasher key)) as [->|Hne]; [|apply Hwf].
  destruct (Hwf (hasher key)) as [Hhash Hnd]. split.
  - intros p Hin. apply elem_of_bucket_insert in Hin as [->|Hin];
      [reflexivity|apply Hhash, Hin].
  - rewrite bucket_insert_keys.
    destruct (decide (key ∈ map fst (m_buckets m (hasher key)))) as [_|Hnin];
      [exact Hnd|].
    apply NoDup_app. split; [exact Hnd|]. split.
    + intros k Hk Hk'. apply list_elem_of_singleton in Hk'. subst k. tauto.
    + apply NoDup_singleton.
Qed.

Lemma wf_insert_all l : forall m, wf m -> wf (insert_all l m).
Proof.
  induction l as [|p l IH]; intros m Hwf; [exact Hwf|].
  simpl. apply IH, wf_insert, Hwf.
Qed.

Lemma find_Some_bucket m key value :
  wf m ->
  (find m key = Some value <-> (key, value) ∈ m_buckets m (hasher key)).
Proof.
  intros Hwf. unfold find. apply bucket_find_Some. apply Hwf.
Qed.

Lemma elem_of_entries m key value :
  wf m -> ((key, value) ∈ entries m <-> find m key = Some value).
Proof.
  intros Hwf. unfold entries. rewrite list_elem_of_In, in_flat_map. split.
  - intros (i & Hi & Hin). apply list_elem_of_In in Hin.
    apply find_Some_bucket; [exact Hwf|].
    destruct (Hwf i) as [Hhash _].
    pose proof (Hhash _ Hin) as Hi'. simpl in Hi'. rewrite Hi'. exact Hin.
  - intros Hfind. apply find_Some_bucket in Hfind; [|exact Hwf].
    exists (hasher key). split; [|apply list_elem_of_In, Hfind].
    apply list_elem_of_In, elem_of_all_buckets, hasher_lt.
Qed.

Lemma NoDup_flat_map_keys (f : Z -> list (K * V)) (indices : list Z) :
  NoDup indices ->
  (forall i p, p ∈ f i -> hasher p.1 = i) ->
  (forall i, NoDup (map fst (f i))) ->
  NoDup (map fst (flat_map f indices)).
Proof.
  intros Hnd Hhash Hbucket.
  induction Hnd as [|i indices Hi Hnd IH]; simpl; [constructor|].
  rewrite map_app. apply NoDup_app. split; [apply Hbucket|]. split; [|exact IH].
  intros k Hk Hk'.
  apply list_elem_of_fmap in Hk as (p & -> & Hp).
  apply list_elem_of_fmap in Hk' as (q & Hq1 & Hq).
  apply list_elem_of_In, in_flat_map in Hq as (j & Hj & Hq).
  apply list_elem_of_In in Hq, Hj.
  apply Hhash in Hp, Hq. rewrite <- Hq1, Hp in Hq. subst j. tauto.
Qed.

Lemma NoDup_entries_keys m : wf m -> NoDup (map fst (entries m)).
Proof.
  intros Hwf. apply NoDup_flat_map_keys.
  - apply NoDup_bucket_indices.
  - intros i p. apply Hwf.
  - intros i. apply Hwf.
Qed.

Lemma size_entries m : size m = length (entries m).
Proof.
  unfold size, entries.
  assert (forall l n,
    foldl (fun total i => (total + length (m_buckets m i))%nat) n l =
    (n + length (flat_map (m_buckets m) l))%nat) as Hgen.
  { induction l as [|i l IH]; intros n; simpl; [lia|].
    rewrite IH, length_app. lia. }
  rewrite Hgen. reflexivity.
Qed.

Lemma find_insert_all l : forall m key,
  NoDup (map fst l) ->
  find (insert_all l m) key =
  match bucket_find l key with
  | Some value => Some value
  | None => find m key
  end.
Proof.
  induction l as [|p l IH]; intros m key Hnd; [reflexivity|].
  apply NoDup_cons in Hnd as [Hp Hnd]. simpl.
  rewrite IH by exact Hnd. rewrite find_insert.
  destruct (decide (p.1 = key)) as [Heq|Hne].
  - rewrite <- Heq. apply bucket_find_None in Hp. rewrite Hp. reflexivity.
  - reflexivity.
Qed.

(** Re-inserting the pairs of a map into an empty one gives a map with the
    same lookups. *)
Lemma find_insert_all_entries m key :
  wf m -> find (insert_all (entries m) empty) key = find m key.
Proof.
  intros Hwf. rewrite find_insert_all by (apply NoDup_entries_keys, Hwf).
  rewrite find_empty.
  destruct (bucket_find (entries m) key) as [value|] eqn:Hb.
  - apply bucket_find_Some in Hb; [|apply NoDup_entries_keys, Hwf].
    apply elem_of_entries in Hb; [|exact Hwf]. congruence.
  - destruct (find m key) as [value|] eqn:Hf; [|reflexivity].
    apply elem_of_entries in Hf; [|exact Hwf].
    apply bucket_find_Some in Hf; [|apply NoDup_entries_keys, Hwf]. congruence.
Qed.

(** Two maps with the same lookups. *)
Definition same_lookups (m1 m2 : t) : Prop :=
  forall key, find m1 key = find m2 key.

Lemma same_lookups_insert_all_entries m :
  wf m -> same_lookups (insert_all (entries m) empty) m.
Proof. intros Hwf key. apply find_insert_all_entries, Hwf. Qed.

Lemma NoDup_entries m : wf m -> NoDup (entries m).
Proof. intros Hwf. eapply NoDup_fmap_1, NoDup_entries_keys, Hwf. Qed.

Lemma same_lookups_entries m1 m2 :
  wf m1 -> wf m2 -> same_lookups m1 m2 -> entries m1 ≡ₚ entries m2.
Proof.
  intros Hwf1 Hwf2 Hsame.
  apply NoDup_Permutation; [apply NoDup_entries, Hwf1|apply NoDup_entries, Hwf2|].
  intros [key value]. rewrite !elem_of_entries by assumption.
  rewrite Hsame. reflexivity.
Qed.

Lemma same_lookups_size m1 m2 :
  wf m1 -> wf m2 -> same_lookups m1 m2 -> size m1 = size m2.
Proof.
  intros Hwf1 Hwf2 Hsame. rewrite !size_entries.
  apply Permutation_length, same_lookups_entries; assumption.
Qed.

Lemma entries_insert_fresh m key value :
  wf m -> find m key = None ->
  entries (insert key value m) ≡ₚ (key, value) :: entries m.
Proof.
  intros Hwf Hfresh.
  apply NoDup_Permutation.
  - apply NoDup_entries, wf_insert, Hwf.
  - apply NoDup_cons. split; [|apply NoDup_entries, Hwf].
    rewrite elem_of_entries by exact Hwf. congruence.
  - intros [key' value'].
    rewrite elem_of_entries by (apply wf_insert, Hwf).
    rewrite find_insert, elem_of_cons, elem_of_entries by exact Hwf.
    destruct (decide (key = key')) as [->|Hne].
    + split; [intros [= <-]; left; reflexivity|].
      intros [[= <-]|Hfind]; [reflexivity|congruence].
    + split; [intros Hfind; right; exact Hfind|].
      intros [[= <- <-]|Hfind]; [congruence|exact Hfind].
Qed.

Lemma Forall_entries_insert (P : K * V -> Prop) m key value :
  wf m -> P (key, value) -> Forall P (entries m) ->
  Forall P (entries (insert key value m)).
Proof.
  intros Hwf Hnew Hold. rewrite Forall_forall in Hold |- *.
  intros [key' value'] Hin.
  apply elem_of_entries in Hin; [|apply wf_insert, Hwf].
  rewrite find_insert in Hin.
  destruct (decide (key = key')) as [->|Hne].
  - injection Hin as <-. exact Hnew.
  - apply Hold, elem_of_entries; assumption.
Qed.

End Map.

Arguments t K V : clear implicits.

Section MapMore.
Context {K V : Type} `{EqDecision K} `{Hasher K}.

(** [operator[]]: the value at [key], after inserting [V{}] ([dflt]) when
    the key is absent, and the map afterwards. *)
Definition subscript (dflt : V) (m : t K V) (key : K) : V * t K V :=
  match find m key with
  | Some value => (value, m)
  | None =>
      let m := insert key dflt m in
      (default dflt (find m key), m)
  end.

Lemma bucket_insert_length (bucket : list (K * V)) key value :
  length (bucket_insert bucket key value) =
  match bucket_find bucket key with
  | Some _ => length bucket
  | None => S (length bucket)
  end.
Proof.
  induction bucket as [|p bucket IH]; simpl; [reflexivity|].
  destruct (decide (p.1 = key)); simpl; [reflexivity|].
  rewrite IH. destruct (bucket_find bucket key); reflexivity.
Qed.

Lemma flat_map_update_length (f g : Z -> list (K * V)) (i : Z) (l : list Z) :
  NoDup l -> (forall j, j <> i -> g j = f j) ->
  (length (flat_map g l) + (if decide (i ∈ l) then length (f i) else 0) =
   length (flat_map f l) + (if decide (i ∈ l) then length (g i) else 0))%nat.
Proof.
  intros Hnd Hsame. induction Hnd as [|j l Hj Hnd IH]; simpl.
  - destruct (decide (i ∈ [])) as [Hin|_]; [inversion Hin|reflexivity].
  - rewrite !length_app.
    destruct (decide (i ∈ l)) as [Hin|Hnin].
    + destruct (decide (i ∈ j :: l)) as [_|Hn]; [|exfalso; apply Hn; right; exact Hin].
      assert (j <> i) as Hne by (intros ->; tauto).
      rewrite (Hsame j Hne). lia.
    + destruct (decide (j = i)) as [->|Hne].
      * destruct (decide (i ∈ i :: l)) as [_|Hn]; [lia|exfalso; apply Hn; left].
      * destruct (decide (i ∈ j :: l)) as [Hin|_].
        { apply elem_of_cons in Hin as [?|?]; [congruence|tauto]. }
        rewrite (Hsame j Hne). lia.
Qed.

Lemma size_insert (m : t K V) key value :
  size (insert key value m) =
  if count m key then size m else S (size m).
Proof.
  rewrite !size_entries. unfold entries.
  pose proof (flat_map_update_length (m_buckets m)
                (m_buckets (insert key value m)) (hasher key) all_buckets
                (NoDup_bucket_indices _ _)) as Hlen.
  destruct (decide (hasher key ∈ all_buckets)) as [_|Hnin].
  2:{ exfalso. apply Hnin, elem_of_all_buckets, hasher_lt. }
  assert (forall j, j <> hasher key ->
            m_buckets (insert key value m) j = m_buckets m j) as Hsame.
  { intros j Hj. cbn [insert m_buckets].
    destruct (decide (j = hasher key)); [congruence|reflexivity]. }
  specialize (Hlen Hsame).
  assert (m_buckets (insert key value m) (hasher key) =
          bucket_insert (m_buckets m (hasher key)) key value) as Hbucket.
  { cbn [insert m_buckets].
    destruct (decide (hasher key = hasher key)); [reflexivity|congruence]. }
  rewrite Hbucket, bucket_insert_length in Hlen.
  unfold count, find.
  destruct (bucket_find (m_buckets m (hasher key)) key); lia.
Qed.

Lemma size_empty : size (empty : t K V) = 0%nat.
Proof.
  rewrite size_entries. unfold entries. generalize all_buckets.
  intros l. induction l as [|i l IH]; [reflexivity|exact IH].
Qed.

Lemma bucket_find_app (l1 l2 : list (K * V)) key :
  bucket_find (l1 ++ l2) key =
  match bucket_find l1 key with
  | Some value => Some value
  | None => bucket_find l2 key
  end.
Proof.
  induction l1 as [|p l1 IH]; simpl; [reflexivity|].
  destruct (decide (p.1 = key)); [reflexivity|exact IH].
Qed.

(** The last value inserted for a key is the one found. *)
Lemma find_insert_all_last (l : list (K * V)) : forall (m : t K V) key,
  find (insert_all l m) key =
  match bucket_find (reverse l) key with
  | Some value => Some value
  | None => find m key
  end.
Proof.
  induction l as [|p l IH]; intros m key; [reflexivity|].
  cbn [insert_all foldl]. fold (insert_all l (insert p.1 p.2 m)).
  rewrite IH, reverse_cons, bucket_find_app, find_insert.
  destruct (bucket_find (reverse l) key); [reflexivity|].
  simpl. destruct (decide (p.1 = key)); reflexivity.
Qed.

(** X12.  [insert] then [find]: the inserted key maps to the
    inserted value, whatever it mapped to before, every other key keeps its
    lookup, and the number of entries grows by one exactly when the key was
    absent. *)
Theorem find_after_insert (m : t K V) (key : K) (value : V) :
  find (insert key value m) key = Some value /\
  count (insert key value m) key = true /\
  (forall key', key' <> key -> find (insert key value m) key' = find m key') /\
  size (insert key value m) = (if count m key then size m else S (size m)).
Proof.
  split; [|split; [|split]].
  - rewrite find_insert. destruct (decide (key = key)); congruence.
  - unfold count. rewrite find_insert. destruct (decide (key = key)); congruence.
  - intros key' Hne. rewrite find_insert.
    destruct (decide (key = key')); congruence.
  - apply size_insert.
Qed.

(** X13.  A map built by [insert]s from the empty map: iterating
    over it visits each key once, visits exactly the pairs that [find]
    returns, [size] is the number of pairs visited, the keys present are the
    keys inserted, and each key maps to the value of its last [insert]. *)
Theorem entries_of_inserted (l : list (K * V)) :
  NoDup (map fst (entries (insert_all l empty))) /\
  (forall key value,
     (key, value) ∈ entries (insert_all l empty) <->
     find (insert_all l empty) key = Some value) /\
  size (insert_all l empty) = length (entries (insert_all l empty)) /\
  (forall key, count (insert_all l empty) key = true <-> key ∈ map fst l) /\
  (forall key, find (insert_all l empty) key = bucket_find (reverse l) key).
Proof.
  assert (wf (insert_all l empty)) as Hwf by apply wf_insert_all, wf_empty.
  assert (forall key, find (insert_all l empty) key = bucket_find (reverse l) key)
    as Hlast.
  { intros key. rewrite find_insert_all_last, find_empty.
    destruct (bucket_find (reverse l) key); reflexivity. }
  split; [apply NoDup_entries_keys, Hwf|].
  split; [intros key value; apply elem_of_entries, Hwf|].
  split; [apply size_entries|]. split; [|exact Hlast].
  intros key. unfold count. rewrite Hlast.
  assert (key ∈ map fst (reverse l) <-> key ∈ map fst l) as Hrev.
  { rewrite !list_elem_of_In, !in_map_iff.
    split; intros (p & Hp & Hin); exists p; (split; [exact Hp|]);
      apply list_elem_of_In; apply list_elem_of_In in Hin.
    - rewrite elem_of_reverse in Hin. exact Hin.
    - rewrite elem_of_reverse. exact Hin. }
  pose proof (bucket_find_None (reverse l) key) as Hnone.
  rewrite <- Hrev.
  destruct (bucket_find (reverse l) key).
  - split; [intros _|reflexivity].
    destruct (decide (key ∈ map fst (reverse l))) as [Hin|Hnin]; [exact Hin|].
    apply Hnone in Hnin. discriminate.
  - split; [discriminate|]. intros Hin. exfalso.
    destruct Hnone as [Hnone _]. apply (Hnone eq_refl), Hin.
Qed.

(** X14.  [operator[]] returns the value found and leaves the
    map alone when the key is present; when it is absent it inserts the
    default value and returns that; afterwards the key is present with the
    returned value, and no other key's lookup has changed. *)
Theorem subscript_value_and_map (dflt : V) (m : t K V) (key : K) :
  (subscript dflt m key).1 = default dflt (find m key) /\
  find (subscript dflt m key).2 key = Some (subscript dflt m key).1 /\
  (forall key', key' <> key ->
     find (subscript dflt m key).2 key' = find m key') /\
  (count m key = true -> (subscript dflt m key).2 = m) /\
  size (subscript dflt m key).2 = (if count m key then size m else S (size m)).
Proof.
  unfold subscript, count.
  destruct (find m key) as [value|] eqn:Hfind; cbn [fst snd default].
  - repeat split; auto.
  - assert (find (insert key dflt m) key = Some dflt) as Hnew.
    { rewrite find_insert. destruct (decide (key = key)); congruence. }
    rewrite Hnew. cbn [default].
    split; [reflexivity|]. split; [reflexivity|]. split; [|split].
    + intros key' Hne. rewrite find_insert.
      destruct (decide (key = key')); congruence.
    + discriminate.
    + rewrite size_insert. unfold count. rewrite Hfind. reflexivity.
Qed.

End MapMore.

End CustomHashMap.

(** ** The C++ library as the engine uses it: strings and streams *)

Module Std.

(** A string literal as bytes. *)
Definition bytes (s : String.string) : list Z :=
  map (fun a => Z.of_nat (Ascii.nat_of_ascii a)) (String.list_ascii_of_string s).

(** [std::isspace] in the "C" locale. *)
Definition isspace (c : Z) : bool := (c =? 32) || ((9 <=? c) && (c <=? 13)).

Definition isdigit (c : Z) : bool := (48 <=? c) && (c <=? 57).

(** *** Formatted output of an [int]: [os << n] and [std::to_string(n)] *)

Equations? digits (n : Z) : list Z by wf (Z.to_nat n) lt :=
  digits n with decide (10 <= n) => {
    | left _ := digits (n / 10) ++ [48 + n mod 10];
    | right _ := [48 + n] }.
Proof.
  assert (n / 10 < n) by (apply Z.div_lt; lia).
  assert (0 <= n / 10) by (apply Z.div_pos; lia).
  lia.
Qed.

Definition to_string (n : Z) : list Z :=
  if n <? 0 then 45 :: digits (- n) else digits n.

(** *** Formatted input *)

(** Skipping leading whitespace ([std::ws], and the first step of [>>]). *)
Fixpoint skip_ws (s : list Z) : list Z :=
  match s with
  | c :: s' => if isspace c then skip_ws s' else s
  | [] => []
  end.

Fixpoint read_digits (s : list Z) (acc : Z) : Z * list Z :=
  match s with
  | c :: s' =>
      if isdigit c then read_digits s' (acc * 10 + (c - 48)) else (acc, s)
  | [] => (acc, [])
  end.

(** An optional sign in front of the digits. *)
Definition read_sign (s : list Z) : bool * list Z :=
  match s with
  | c :: s' =>
      if c =? 45 then (true, s') else if c =? 43 then (false, s') else (false, s)
  | [] => (false, [])
  end.

(** [is >> n] for an [int n]: the value and the rest of the input, or [None]
    when the extraction fails (no digits, or a value outside [int]). *)
Definition read_int (s : list Z) : option (Z * list Z) :=
  let '(negative, s) := read_sign (skip_ws s) in
  match s with
  | c :: _ =>
      if isdigit c then
        let '(n, rest) := read_digits s 0 in
        let n := if negative : bool then - n else n in
        if (- 2 ^ 31 <=? n) && (n <? 2 ^ 31) then Some (n, rest) else None
      else None
  | [] => None
  end.

(** [std::getline(is, line)] on a non-empty input: the characters before the
    first newline, and the input after it. *)
Fixpoint getline (s : list Z) : list Z * list Z :=
  match s with
  | [] => ([], [])
  | c :: s' =>
      if c =? 10 then ([], s')
      else let '(line, rest) := getline s' in (c :: line, rest)
  end.

(** The words that [while (ss >> token)] reads from a [std::stringstream]:
    the maximal runs of non-whitespace characters; [current] is the run being
    read. *)
Fixpoint split_words (s current : list Z) : list (list Z) :=
  match s with
  | [] => match current with [] => [] | _ => [current] end
  | c :: s' =>
      if isspace c then
        match current with
        | [] => split_words s' []
        | _ => current :: split_words s' []
        end
      else split_words s' (current ++ [c])
  end.

(** *** Unformatted input: a [std::ifstream] opened in binary mode *)

Record istream : Type := { rdbuf : list Z; failed : bool }.

Definition open (content : list Z) : istream :=
  {| rdbuf := content; failed := false |}.

(** [is.peek() != EOF] *)
Definition has_next (f : istream) : bool :=
  negb (failed f) && negb (match rdbuf f with [] => true | _ => false end).

(** [is.read(buf, n)]: the bytes stored in [buf] (a prefix of it when the
    input is short) and the stream afterwards; a failed stream reads
    nothing. *)
Definition read (f : istream) (n : nat) : list Z * istream :=
  if failed f then ([], f)
  else if (n <=? length (rdbuf f))%nat
  then (take n (rdbuf f), {| rdbuf := drop n (rdbuf f); failed := false |})
  else (rdbuf f, {| rdbuf := []; failed := true |}).

(** A [uint32_t] in memory (little-endian host). *)
Definition u32_bytes (n : Z) : list Z :=
  [n mod 256; (n / 256) mod 256; (n / 65536) mod 256; (n / 16777216) mod 256].

Definition u32_of_bytes (b : list Z) : Z :=
  nth 0 b 0 + 256 * nth 1 b 0 + 65536 * nth 2 b 0 + 16777216 * nth 3 b 0.

(** *** [std::string] comparison and search *)

(** [a < b] on [std::string]: lexicographic on the bytes. *)
Fixpoint string_lt (a b : list Z) : bool :=
  match a, b with
  | _, [] => false
  | [], _ :: _ => true
  | x :: a', y :: b' => (x <? y) || ((x =? y) && string_lt a' b')
  end.

Fixpoint is_prefix (p s : list Z) : bool :=
  match p, s with
  | [], _ => true
  | _ :: _, [] => false
  | x :: p', y :: s' => (x =? y) && is_prefix p' s'
  end.

(** [s.find(t) != std::string::npos] *)
Fixpoint contains (s t : list Z) : bool :=
  is_prefix t s || match s with [] => false | _ :: s' => contains s' t end.

(** *** Input is consumed *)

Lemma skip_ws_length s : (length (skip_ws s) <= length s)%nat.
Proof.
  induction s as [|c s IH]; simpl; [lia|].
  destruct (isspace c); simpl; lia.
Qed.

Lemma read_digits_length s : forall acc n rest,
  read_digits s acc = (n, rest) -> (length rest <= length s)%nat.
Proof.
  induction s as [|c s IH]; intros acc n rest; simpl.
  - intros [= <- <-]. simpl. lia.
  - destruct (isdigit c).
    + intros H. apply IH in H. lia.
    + intros [= <- <-]. simpl. lia.
Qed.

Lemma read_digits_progress c s acc n rest :
  isdigit c = true -> read_digits (c :: s) acc = (n, rest) ->
  (length rest < length (c :: s))%nat.
Proof.
  simpl. intros ->. intros H. apply read_digits_length in H. lia.
Qed.

Lemma read_sign_length s negative s' :
  read_sign s = (negative, s') -> (length s' <= length s)%nat.
Proof.
  destruct s as [|c s]; simpl; [intros [= <- <-]; simpl; lia|].
  destruct (c =? 45); [intros [= <- <-]; lia|].
  destruct (c =? 43); intros [= <- <-]; simpl; lia.
Qed.

Lemma read_int_length s n rest :
  read_int s = Some (n, rest) -> (length rest < length s)%nat.
Proof.
  unfold read_int. pose proof (skip_ws_length s) as Hws.
  destruct (read_sign (skip_ws s)) as [negative s1] eqn:Hsign.
  apply read_sign_length in Hsign.
  destruct s1 as [|c s1]; [discriminate|].
  destruct (isdigit c) eqn:Hd; [|discriminate].
  destruct (read_digits (c :: s1) 0) as [m rest'] eqn:Hrd.
  apply read_digits_progress in Hrd; [|exact Hd].
  destruct (_ && _); [|discriminate]. intros [= <- <-]. lia.
Qed.

Lemma getline_length c s line rest :
  getline (c :: s) = (line, rest) -> (length rest < length (c :: s))%nat.
Proof.
  revert c line rest. induction s as [|c' s IH]; intros c line rest; simpl.
  - destruct (c =? 10); intros [= <- <-]; simpl; lia.
  - destruct (c =? 10); [intros [= <- <-]; simpl; lia|].
    destruct (c' =? 10) eqn:Hc'.
    + intros [= <- <-]. simpl. lia.
    + specialize (IH c'). simpl in IH. rewrite Hc' in IH.
      destruct (getline s) as [l r]. intros [= <- <-].
      specialize (IH _ _ eq_refl). simpl in *. lia.
Qed.

(** What is left to read: nothing once the stream has failed. *)
Definition remaining (f : istream) : nat :=
  if failed f then 0%nat else length (rdbuf f).

Lemma read_remaining f n bytes f' :
  read f n = (bytes, f') -> (remaining f' <= remaining f)%nat.
Proof.
  unfold read, remaining. destruct (failed f) eqn:Hf.
  - intros [= <- <-]. rewrite Hf. lia.
  - destruct (Nat.leb_spec n (length (rdbuf f))).
    + intros [= <- <-]. simpl. rewrite length_drop. lia.
    + intros [= <- <-]. simpl. lia.
Qed.

Lemma read_progress f n bytes f' :
  (0 < n)%nat -> has_next f = true -> read f n = (bytes, f') ->
  (remaining f' < remaining f)%nat.
Proof.
  unfold read, remaining, has_next. intros Hn.
  destruct (failed f); [discriminate|]. simpl.
  destruct (rdbuf f) as [|c buf] eqn:Hbuf; [discriminate|]. intros _.
  destruct (Nat.leb_spec n (length (c :: buf))).
  - intros [= <- <-]. simpl. rewrite length_drop. simpl in *. lia.
  - intros [= <- <-]. simpl. lia.
Qed.

(** *** Reading back what was written *)

Lemma digits_eq n :
  digits n = if decide (10 <= n) then digits (n / 10) ++ [48 + n mod 10]
             else [48 + n].
Proof.
  rewrite digits_equation_1. destruct (decide (10 <= n)); reflexivity.
Qed.

(** The digits of [n] are digits; read from an accumulator they append [n]
    to it. *)
Lemma read_digits_digits n : 0 <= n ->
  forall rest acc,
    read_digits (digits n ++ rest) acc =
    read_digits rest (acc * 10 ^ Z.of_nat (length (digits n)) + n).
Proof.
  intros Hn0. generalize Hn0. revert n Hn0. apply (Z_lt_induction
    (fun n => 0 <= n -> forall rest acc,
       read_digits (digits n ++ rest) acc =
       read_digits rest (acc * 10 ^ Z.of_nat (length (digits n)) + n))).
  intros n IH Hn rest acc. rewrite digits_eq.
  destruct (decide (10 <= n)) as [Hge|Hlt].
  - assert (0 <= n / 10 < n) as Hdiv
      by (split; [apply Z.div_pos; lia|apply Z.div_lt; lia]).
    pose proof (Z.mod_pos_bound n 10 ltac:(lia)) as Hmod.
    pose proof (Z.div_mod n 10 ltac:(lia)) as Hdm.
    rewrite <- app_assoc, (IH _ Hdiv ltac:(lia)). simpl.
    unfold isdigit.
    destruct (Z.leb_spec 48 (48 + n mod 10)); [|lia].
    destruct (Z.leb_spec (48 + n mod 10) 57); [|lia]. simpl.
    f_equal. rewrite length_app. simpl.
    rewrite Nat2Z.inj_add, Z.pow_add_r by lia. change (10 ^ Z.of_nat 1) with 10.
    lia.
  - simpl. unfold isdigit.
    destruct (Z.leb_spec 48 (48 + n)); [|lia].
    destruct (Z.leb_spec (48 + n) 57); [|lia]. simpl.
    f_equal. lia.
Qed.

Lemma digits_head n : 0 <= n ->
  exists c s, digits n = c :: s /\ isdigit c = true.
Proof.
  intros Hn0. generalize Hn0. revert n Hn0. apply (Z_lt_induction
    (fun n => 0 <= n -> exists c s, digits n = c :: s /\ isdigit c = true)).
  intros n IH Hn. rewrite digits_eq.
  destruct (decide (10 <= n)) as [Hge|Hlt].
  - assert (0 <= n / 10 < n) as Hdiv
      by (split; [apply Z.div_pos; lia|apply Z.div_lt; lia]).
    destruct (IH _ Hdiv ltac:(lia)) as (c & s & -> & Hc).
    exists c, (s ++ [48 + n mod 10]). split; [reflexivity|exact Hc].
  - exists (48 + n), []. split; [reflexivity|].
    unfold isdigit.
    destruct (Z.leb_spec 48 (48 + n)); [|lia].
    destruct (Z.leb_spec (48 + n) 57); [reflexivity|lia].
Qed.

(** The end of a number: the end of the input or a character that is not a
    digit. *)
Definition ends_number (rest : list Z) : Prop :=
  match rest with [] => True | c :: _ => isdigit c = false end.

Lemma read_digits_end rest acc : ends_number rest -> read_digits rest acc = (acc, rest).
Proof. destruct rest as [|c rest]; simpl; [reflexivity|]. intros ->. reflexivity. Qed.

Lemma isdigit_not_space c : isdigit c = true -> isspace c = false.
Proof.
  unfold isdigit, isspace.
  destruct (Z.leb_spec 48 c); [|discriminate].
  destruct (Z.leb_spec c 57); [|discriminate]. intros _.
  destruct (Z.eqb_spec c 32); [lia|].
  destruct (Z.leb_spec 9 c); destruct (Z.leb_spec c 13); simpl; try lia; reflexivity.
Qed.

(** [to_string] starts with a character that is not whitespace. *)
Lemma skip_ws_to_string z rest : skip_ws (to_string z ++ rest) = to_string z ++ rest.
Proof.
  unfold to_string. destruct (Z.ltb_spec z 0); [reflexivity|].
  destruct (digits_head z ltac:(lia)) as (c & s & -> & Hc).
  simpl. rewrite (isdigit_not_space c Hc). reflexivity.
Qed.

Lemma read_int_to_string z rest :
  is_int z -> ends_number rest -> read_int (to_string z ++ rest) = Some (z, rest).
Proof.
  unfold is_int. intros Hz Hend. unfold read_int.
  rewrite skip_ws_to_string. unfold to_string.
  destruct (Z.ltb_spec z 0) as [Hneg|Hpos].
  - cbn [app read_sign]. change (45 =? 45) with true. cbv iota.
    destruct (digits_head (- z) ltac:(lia)) as (c & s & Hd & Hc).
    pose proof (read_digits_digits (- z) ltac:(lia) rest 0) as Hrd.
    rewrite Hd in Hrd |- *. cbn [app] in Hrd |- *. rewrite Hc, Hrd.
    rewrite read_digits_end by exact Hend.
    replace (- (0 * _ + - z)) with z by lia.
    destruct (Z.leb_spec (- 2 ^ 31) z); [|lia].
    destruct (Z.ltb_spec z (2 ^ 31)); [reflexivity|lia].
  - destruct (digits_head z ltac:(lia)) as (c & s & Hd & Hc).
    pose proof (read_digits_digits z ltac:(lia) rest 0) as Hrd.
    rewrite Hd in Hrd |- *. cbn [app read_sign] in Hrd |- *.
    assert ((c =? 45) = false) as ->.
    { unfold isdigit in Hc. destruct (Z.eqb_spec c 45) as [->|]; [|reflexivity].
      discriminate. }
    assert ((c =? 43) = false) as ->.
    { unfold isdigit in Hc. destruct (Z.eqb_spec c 43) as [->|]; [|reflexivity].
      discriminate. }
    rewrite Hc, Hrd. rewrite read_digits_end by exact Hend.
    replace (0 * _ + z) with z by lia.
    destruct (Z.leb_spec (- 2 ^ 31) z); [|lia].
    destruct (Z.ltb_spec z (2 ^ 31)); [reflexivity|lia].
Qed.

Lemma getline_line line rest :
  10 ∉ line -> getline (line ++ 10 :: rest) = (line, rest).
Proof.
  induction line as [|c line IH]; intros Hnl; simpl; [reflexivity|].
  apply not_elem_of_cons in Hnl as [Hc Hnl].
  destruct (Z.eqb_spec c 10); [congruence|].
  rewrite IH by exact Hnl. reflexivity.
Qed.

Lemma u32_of_bytes_u32_bytes n rest :
  0 <= n < 2 ^ 32 -> u32_of_bytes (u32_bytes n ++ rest) = n.
Proof.
  intros Hn. unfold u32_of_bytes, u32_bytes. simpl. Z.div_mod_to_equations. lia.
Qed.

End Std.

(** ** search_engine.cpp *)

Module SearchEngine.

Import CompressionUtils TextUtils.

(** *** The engine's state and its environment *)

Record Config : Type := {
  dataDir : list Z;
  dictPath : list Z;
  invIndexPath : list Z;
  docNamesPath : list Z;
  docLengthsPath : list Z;
  docUrlsPath : list Z;
  minTfIdfScore : float;
  topKResults : nat;
  zipfTopTerms : nat
}.

(** The C++ literal [0.05] is the [double] nearest to it. *)
Definition default_minTfIdfScore : float := 0x1.999999999999ap-5%float.

Record t : Type := {
  m_config : Config;
  m_lemmas : CustomHashMap.t (list Z) (list Z);
  m_invertedIndex : CustomHashMap.t (list Z) (list Z);
  m_docNames : CustomHashMap.t Z (list Z);
  m_docLengths : CustomHashMap.t Z Z;
  m_docUrls : CustomHashMap.t Z (list Z);
  m_totalDocsCount : Z
}.

(** [SearchEngine(const std::string &configDir)] *)
Definition create (configDir : list Z) : t :=
  {| m_config :=
       {| dataDir := configDir ++ Std.bytes "/dataset_txt";
          dictPath := configDir ++ Std.bytes "/resources/lemmas.txt";
          invIndexPath := configDir ++ Std.bytes "/inverted_index.bin";
          docNamesPath := configDir ++ Std.bytes "/doc_names.txt";
          docLengthsPath := configDir ++ Std.bytes "/doc_lengths.txt";
          docUrlsPath := configDir ++ Std.bytes "/urls.txt";
          minTfIdfScore := default_minTfIdfScore;
          topKResults := 10;
          zipfTopTerms := 15 |};
     m_lemmas := CustomHashMap.empty;
     m_invertedIndex := CustomHashMap.empty;
     m_docNames := CustomHashMap.empty;
     m_docLengths := CustomHashMap.empty;
     m_docUrls := CustomHashMap.empty;
     m_totalDocsCount := 0 |}.

(** [SearchEngine(dataDir, dictPath, indexDir)] *)
Definition create3 (dataDir dictPath indexDir : list Z) : t :=
  {| m_config :=
       {| dataDir := dataDir;
          dictPath := dictPath;
          invIndexPath := indexDir ++ Std.bytes "/inverted_index.bin";
          docNamesPath := indexDir ++ Std.bytes "/doc_names.txt";
          docLengthsPath := indexDir ++ Std.bytes "/doc_lengths.txt";
          docUrlsPath := indexDir ++ Std.bytes "/urls.txt";
          minTfIdfScore := default_minTfIdfScore;
          topKResults := 10;
          zipfTopTerms := 15 |};
     m_lemmas := CustomHashMap.empty;
     m_invertedIndex := CustomHashMap.empty;
     m_docNames := CustomHashMap.empty;
     m_docLengths := CustomHashMap.empty;
     m_docUrls := CustomHashMap.empty;
     m_totalDocsCount := 0 |}.

(** The file system as the engine sees it.
    - [files]: the content of each file that can be opened for reading, by
      path.
    - [directory]: the entry names that [fs::directory_iterator] yields for a
      directory, in its enumeration order; [None] when there is no such
      directory.
    - [writable]: whether a [std::ofstream] can be opened at a path.
    - [indeterminate]: the bytes found in a local variable that is read before
      anything was stored in it. *)
Record World : Type := {
  files : gmap (list Z) (list Z);
  directory : list Z -> option (list (list Z));
  writable : list Z -> bool;
  indeterminate : list Z
}.

Definition write_file (w : World) (path content : list Z) : World :=
  {| files := <[path := content]> (files w);
     directory := directory w;
     writable := writable w;
     indeterminate := indeterminate w |}.

(** An [int] left uninitialised. *)
Definition indeterminate_int (w : World) : Z :=
  wrap_int (Std.u32_of_bytes (indeterminate w)).

(** [fs::path::filename]: what follows the last [/]. *)
Fixpoint path_filename_loop (p current : list Z) : list Z :=
  match p with
  | [] => current
  | c :: p' =>
      if c =? 47 then path_filename_loop p' []
      else path_filename_loop p' (current ++ [c])
  end.

Definition path_filename (p : list Z) : list Z := path_filename_loop p [].

(** The position of the last [.] in a file name. *)
Fixpoint last_dot (name : list Z) (i : nat) (found : option nat) : option nat :=
  match name with
  | [] => found
  | c :: name' => last_dot name' (S i) (if c =? 46 then Some i else found)
  end.

(** [fs::path::extension] of a file name: from the last [.] on, unless the
    name is [.] or [..] or its only [.] comes first. *)
Definition extension (name : list Z) : list Z :=
  if decide (name = [46] \/ name = [46; 46]) then []
  else
    match last_dot name 0 None with
    | Some (S i) => drop (S i) name
    | _ => []
    end.

(** *** Indexing *)

(** A [std::map] with [std::string] keys, visited in key order. *)
Definition key_le {V} (a b : list Z * V) : Prop := Std.string_lt b.1 a.1 = false.

#[global] Instance key_le_dec {V} (a b : list Z * V) : Decision (key_le a b).
Proof. unfold key_le. apply _. Defined.

Definition string_map_entries {V} (m : gmap (list Z) V) : list (list Z * V) :=
  merge_sort key_le (map_to_list m).

Record DocumentStats : Type := {
  docId : Z;
  filename : list Z;
  wordCount : Z;
  termFrequencies : gmap (list Z) Z
}.

(** [for (token : tokens) stats.termFrequencies[token]++;] *)
Definition count_terms (tokens : list (list Z)) : gmap (list Z) Z :=
  foldl (fun tf token => <[token := wrap_int (default 0 (tf !! token) + 1)]> tf)
        ∅ tokens.

(** [processDocument]; when the file cannot be opened [wordCount] was never
    assigned. *)
Definition processDocument (w : World) (filePath : list Z) (docId : Z)
  : DocumentStats :=
  match files w !! filePath with
  | None =>
      {| docId := docId; filename := path_filename filePath;
         wordCount := indeterminate_int w; termFrequencies := ∅ |}
  | Some content =>
      let tokens := tokenize content in
      {| docId := docId; filename := path_filename filePath;
         wordCount := wrap_int (Z.of_nat (length tokens));
         termFrequencies := count_terms tokens |}
  end.

(** The body of the loop over the directory entries in [indexDocuments]. *)
Record IndexingState : Type := {
  ix_docId : Z;
  ix_docNames : CustomHashMap.t Z (list Z);
  ix_docLengths : CustomHashMap.t Z Z;
  ix_tempPostings : gmap (list Z) (list (Z * Z))
}.

Definition add_postings (docId : Z) (termFrequencies : gmap (list Z) Z)
  (tempPostings : gmap (list Z) (list (Z * Z))) : gmap (list Z) (list (Z * Z)) :=
  foldl (fun tp termFreq =>
           <[termFreq.1 := default [] (tp !! termFreq.1) ++ [(docId, termFreq.2)]]> tp)
        tempPostings (string_map_entries termFrequencies).

Definition index_entry (w : World) (dir : list Z) (st : IndexingState)
  (name : list Z) : IndexingState :=
  if decide (extension name = Std.bytes ".txt") then
    let docId := wrap_int (ix_docId st + 1) in
    let stats := processDocument w (dir ++ Std.bytes "/" ++ name) docId in
    {| ix_docId := docId;
       ix_docNames := CustomHashMap.insert docId (filename stats) (ix_docNames st);
       ix_docLengths := CustomHashMap.insert docId (wordCount stats) (ix_docLengths st);
       ix_tempPostings := add_postings docId (termFrequencies stats) (ix_tempPostings st) |}
  else st.

(** [std::sort(postings.begin(), postings.end())]: pairs in lexicographic
    order. *)
Definition pair_le (a b : Z * Z) : Prop := a.1 < b.1 \/ (a.1 = b.1 /\ a.2 <= b.2).

#[global] Instance pair_le_dec a b : Decision (pair_le a b).
Proof. unfold pair_le. apply _. Defined.

(** The loop over [tempPostings]: sort, compress, insert. *)
Fixpoint build_index (terms : list (list Z * list (Z * Z)))
  (index : CustomHashMap.t (list Z) (list Z))
  : except (CustomHashMap.t (list Z) (list Z)) :=
  match terms with
  | [] => Ok index
  | (term, postings) :: terms' =>
      let postings := merge_sort pair_le postings in
      compressed ← compressPostingList postings;
      build_index terms' (CustomHashMap.insert term compressed index)
  end.

(** [indexDocuments]; a [Throw] is the exception of [compressPostingList]
    leaving the function. *)
Definition indexDocuments (w : World) (e : t) : except t :=
  let dir := dataDir (m_config e) in
  match directory w dir, files w !! dir with
  | None, None => Ok e
  | None, Some _ =>
      (* [fs::directory_iterator] throws, the [catch] returns *)
      Ok {| m_config := m_config e; m_lemmas := m_lemmas e;
            m_invertedIndex := CustomHashMap.empty;
            m_docNames := CustomHashMap.empty;
            m_docLengths := CustomHashMap.empty;
            m_docUrls := m_docUrls e;
            m_totalDocsCount := m_totalDocsCount e |}
  | Some names, _ =>
      let st := foldl (index_entry w dir)
                  {| ix_docId := 0; ix_docNames := CustomHashMap.empty;
                     ix_docLengths := CustomHashMap.empty;
                     ix_tempPostings := ∅ |} names in
      index ← build_index (string_map_entries (ix_tempPostings st))
                          CustomHashMap.empty;
      Ok {| m_config := m_config e; m_lemmas := m_lemmas e;
            m_invertedIndex := index;
            m_docNames := ix_docNames st;
            m_docLengths := ix_docLengths st;
            m_docUrls := m_docUrls e;
            m_totalDocsCount := ix_docId st |}
  end.

(** *** Saving *)

(** One record of the inverted-index file:
    [u32 termLen | term | u32 dataSize | data]. *)
Definition index_record (entry : list Z * list Z) : list Z :=
  let term := entry.1 in
  let data := entry.2 in
  let termLen := wrap_u32 (Z.of_nat (length term)) in
  let dataSize := wrap_u32 (Z.of_nat (length data)) in
  Std.u32_bytes termLen ++ take (Z.to_nat termLen) term ++
  Std.u32_bytes dataSize ++ take (Z.to_nat dataSize) data.

(** [lenFile << entry.first << " " << entry.second << "\n"] *)
Definition length_line (entry : Z * Z) : list Z :=
  Std.to_string entry.1 ++ [32] ++ Std.to_string entry.2 ++ [10].

(** [namesFile << entry.first << " " << entry.second << "\n"] *)
Definition name_line (entry : Z * list Z) : list Z :=
  Std.to_string entry.1 ++ [32] ++ entry.2 ++ [10].

Definition saveIndex (w : World) (e : t) : bool * World :=
  let config := m_config e in
  if negb (writable w (invIndexPath config)) then (false, w)
  else
    let w := write_file w (invIndexPath config)
               (flat_map index_record (CustomHashMap.entries (m_invertedIndex e))) in
    let w :=
      if writable w (docLengthsPath config)
      then write_file w (docLengthsPath config)
             (flat_map length_line (CustomHashMap.entries (m_docLengths e)))
      else w in
    let w :=
      if writable w (docNamesPath config)
      then write_file w (docNamesPath config)
             (flat_map name_line (CustomHashMap.entries (m_docNames e)))
      else w in
    (true, w).

(** *** Loading *)

(** A buffer of [n] zero bytes overwritten from its start by what was read. *)
Definition read_into_zeros (n : nat) (bytes : list Z) : list Z :=
  bytes ++ replicate (n - length bytes) 0.

(** One iteration of the loop of [loadIndex]; [None] is the [break].  Only the
    read of [termLen] is checked.  [dataSize] is not initialised: the bytes
    that its read does not store keep whatever the variable held
    ([garbage]). *)
Definition load_record (garbage : list Z) (f : Std.istream)
  (index : CustomHashMap.t (list Z) (list Z))
  : option (Std.istream * CustomHashMap.t (list Z) (list Z)) :=
  let '(lenBytes, f) := Std.read f 4 in
  if Std.failed f then None
  else
    let termLen := Z.to_nat (Std.u32_of_bytes lenBytes) in
    let '(termBytes, f) := Std.read f termLen in
    let term := read_into_zeros termLen termBytes in
    let '(sizeBytes, f) := Std.read f 4 in
    let dataSize :=
      Z.to_nat (wrap_u32 (Std.u32_of_bytes
                            (sizeBytes ++ drop (length sizeBytes) garbage))) in
    let '(dataBytes, f) := Std.read f dataSize in
    let data := read_into_zeros dataSize dataBytes in
    Some (f, CustomHashMap.insert term data index).

Lemma load_record_progress garbage f index f' index' :
  Std.has_next f = true ->
  load_record garbage f index = Some (f', index') ->
  (Std.remaining f' < Std.remaining f)%nat.
Proof.
  intros Hnext. unfold load_record.
  destruct (Std.read f 4) as [lenBytes f1] eqn:H1.
  apply Std.read_progress in H1; [|lia|exact Hnext].
  destruct (Std.failed f1); [discriminate|].
  destruct (Std.read f1 _) as [termBytes f2] eqn:H2.
  apply Std.read_remaining in H2.
  destruct (Std.read f2 4) as [sizeBytes f3] eqn:H3.
  apply Std.read_remaining in H3.
  destruct (Std.read f3 _) as [dataBytes f4] eqn:H4.
  apply Std.read_remaining in H4.
  intros [= <- <-]. lia.
Qed.

(** [while (invFile.peek() != EOF)] *)
Equations? load_records (garbage : list Z) (f : Std.istream)
  (index : CustomHashMap.t (list Z) (list Z))
  : CustomHashMap.t (list Z) (list Z) by wf (Std.remaining f) lt :=
  load_records garbage f index with inspect (Std.has_next f) => {
    | exist _ false _ := index;
    | exist _ true Hnext with inspect (load_record garbage f index) => {
      | exist _ None _ := index;
      | exist _ (Some (f', index')) Hrecord :=
          load_records garbage f' index' } }.
Proof. eapply load_record_progress; [exact Hnext|exact Hrecord]. Qed.

(** [while (lenFile >> id >> length) m_docLengths.insert(id, length);] *)
Equations? load_lengths (s : list Z) (m : CustomHashMap.t Z Z)
  : CustomHashMap.t Z Z by wf (length s) lt :=
  load_lengths s m with inspect (Std.read_int s) => {
    | exist _ None _ := m;
    | exist _ (Some (id, s1)) Hid with inspect (Std.read_int s1) => {
      | exist _ None _ := m;
      | exist _ (Some (len, s2)) Hlen :=
          load_lengths s2 (CustomHashMap.insert id len m) } }.
Proof.
  apply Std.read_int_length in Hid, Hlen. lia.
Qed.

(** [while (namesFile >> id >> std::ws && std::getline(namesFile, name))
      if (!name.empty()) m_docNames.insert(id, name);] *)
Equations? load_names (s : list Z) (m : CustomHashMap.t Z (list Z))
  : CustomHashMap.t Z (list Z) by wf (length s) lt :=
  load_names s m with inspect (Std.read_int s) => {
    | exist _ None _ := m;
    | exist _ (Some (id, s1)) Hid with inspect (Std.skip_ws s1) => {
      | exist _ [] _ := m;
      | exist _ (c :: s2) Hws with inspect (Std.getline (c :: s2)) => {
        | exist _ (name, s3) Hline :=
            load_names s3
              (match name with
               | [] => m
               | _ => CustomHashMap.insert id name m
               end) } } }.
Proof.
  apply Std.read_int_length in Hid. apply Std.getline_length in Hline.
  pose proof (Std.skip_ws_length s1) as Hskip. rewrite Hws in Hskip. lia.
Qed.

Definition loadIndexMetadata (w : World) (e : t) : bool * t :=
  match files w !! docLengthsPath (m_config e) with
  | None => (false, e)
  | Some lengths =>
      let docLengths := load_lengths lengths CustomHashMap.empty in
      let docNames :=
        match files w !! docNamesPath (m_config e) with
        | None => m_docNames e
        | Some names => load_names names CustomHashMap.empty
        end in
      (true,
       {| m_config := m_config e; m_lemmas := m_lemmas e;
          m_invertedIndex := m_invertedIndex e;
          m_docNames := docNames; m_docLengths := docLengths;
          m_docUrls := m_docUrls e;
          m_totalDocsCount := m_totalDocsCount e |})
  end.

Definition loadIndex (w : World) (e : t) : bool * t :=
  match files w !! invIndexPath (m_config e) with
  | None => (false, e)
  | Some content =>
      let index :=
        load_records (indeterminate w) (Std.open content) CustomHashMap.empty in
      let e := {| m_config := m_config e; m_lemmas := m_lemmas e;
                  m_invertedIndex := index;
                  m_docNames := m_docNames e; m_docLengths := m_docLengths e;
                  m_docUrls := m_docUrls e;
                  m_totalDocsCount := m_totalDocsCount e |} in
      let '(ok, e) := loadIndexMetadata w e in
      if ok then
        (true,
         {| m_config := m_config e; m_lemmas := m_lemmas e;
            m_invertedIndex := m_invertedIndex e;
            m_docNames := m_docNames e; m_docLengths := m_docLengths e;
            m_docUrls := m_docUrls e;
            m_totalDocsCount := Z.of_nat (CustomHashMap.size (m_docLengths e)) |})
      else (false, e)
  end.

(** *** Boolean queries *)

Record BooleanQuery : Type := {
  requiredTerms : list (list Z);
  excludedTerms : list (list Z);
  optionalTerms : list (list Z)
}.

Definition hasRequiredTerms (q : BooleanQuery) : bool :=
  match requiredTerms q with [] => false | _ => true end.
Definition hasOptionalTerms (q : BooleanQuery) : bool :=
  match optionalTerms q with [] => false | _ => true end.

(** The body of [while (ss >> token)] in [parseBooleanQuery]. *)
Definition parse_token (query : BooleanQuery) (token : list Z) : BooleanQuery :=
  let '(prefix, rawWord) :=
    match token with
    | c :: (_ :: _) as rawWord =>
        if (c =? 43) || (c =? 45) then (c, rawWord) else (32, token)
    | _ => (32, token)
    end in
  match tokenize rawWord with
  | [] => query
  | term :: _ =>
      if prefix =? 43 then
        {| requiredTerms := requiredTerms query ++ [term];
           excludedTerms := excludedTerms query;
           optionalTerms := optionalTerms query |}
      else if prefix =? 45 then
        {| requiredTerms := requiredTerms query;
           excludedTerms := excludedTerms query ++ [term];
           optionalTerms := optionalTerms query |}
      else
        {| requiredTerms := requiredTerms query;
           excludedTerms := excludedTerms query;
           optionalTerms := optionalTerms query ++ [term] |}
  end.

Definition parseBooleanQuery (queryStr : list Z) : BooleanQuery :=
  foldl parse_token
        {| requiredTerms := []; excludedTerms := []; optionalTerms := [] |}
        (Std.split_words queryStr []).

(** A [std::set<int>] is a [gset Z]; [set_elements] visits it in ascending
    order. *)
Definition set_elements (s : gset Z) : list Z := merge_sort Z.le (elements s).

Definition getDocumentsForTerm (e : t) (term : list Z) : except (gset Z) :=
  match CustomHashMap.find (m_invertedIndex e) term with
  | None => Ok ∅
  | Some data =>
      postings ← decompressPostingList data;
      Ok (foldl (fun docIds posting => {[posting.1]} ∪ docIds) ∅ postings)
  end.

Definition getDocumentPath (e : t) (docId : Z) : list Z :=
  match CustomHashMap.find (m_docNames e) docId with
  | None =>
      dataDir (m_config e) ++ Std.bytes "/" ++ Std.to_string docId ++
      Std.bytes ".txt"
  | Some name => dataDir (m_config e) ++ Std.bytes "/" ++ name
  end.

(** [FileUtils::readFileContent]: the empty string when the file cannot be
    opened. *)
Definition readFileContent (w : World) (filePath : list Z) : list Z :=
  default [] (files w !! filePath).

Definition verifyRequiredTermsInDocument (w : World) (e : t) (docId : Z)
  (terms : list (list Z)) : bool :=
  let content := readFileContent w (getDocumentPath e docId) in
  match content with
  | [] => false
  | _ =>
      let lowerContent := toLowerCase content in
      forallb (fun term => Std.contains lowerContent term) terms
  end.

(** The loop over [query.requiredTerms]; [None] is an early
    [return std::vector<int>()]. *)
Fixpoint required_loop (e : t) (terms : list (list Z)) (candidateSet : gset Z)
  (hasCandidates : bool) : except (option (gset Z * bool)) :=
  match terms with
  | [] => Ok (Some (candidateSet, hasCandidates))
  | term :: terms' =>
      termDocs ← getDocumentsForTerm e term;
      if decide (termDocs = ∅) then Ok None
      else
        let candidateSet :=
          if hasCandidates then candidateSet ∩ termDocs else termDocs in
        if decide (candidateSet = ∅) then Ok None
        else required_loop e terms' candidateSet true
  end.

(** The loops that insert every document of every term into a set. *)
Fixpoint union_loop (e : t) (terms : list (list Z)) (docs : gset Z)
  : except (gset Z) :=
  match terms with
  | [] => Ok docs
  | term :: terms' =>
      termDocs ← getDocumentsForTerm e term;
      union_loop e terms' (docs ∪ termDocs)
  end.

Definition executeBooleanQuery (w : World) (e : t) (query : BooleanQuery)
  : except (list Z) :=
  required ←
    (if hasRequiredTerms query
     then required_loop e (requiredTerms query) ∅ false
     else Ok (Some (∅, false)));
  match required with
  | None => Ok []
  | Some (candidateSet, hasCandidates) =>
      '(candidateSet, hasCandidates) ←
        (if negb (hasRequiredTerms query) && hasOptionalTerms query
         then candidateSet ← union_loop e (optionalTerms query) candidateSet;
              Ok (candidateSet, true)
         else Ok (candidateSet, hasCandidates));
      if negb hasCandidates then Ok []
      else
        candidateSet ←
          (match excludedTerms query with
           | [] => Ok candidateSet
           | _ =>
               excludedDocs ← union_loop e (excludedTerms query) ∅;
               Ok (candidateSet ∖ excludedDocs)
           end);
        if hasRequiredTerms query
        then Ok (filter (fun docId =>
                           verifyRequiredTermsInDocument w e docId
                             (requiredTerms query) = true)
                        (set_elements candidateSet))
        else Ok (set_elements candidateSet)
  end.

(** One line of [performBooleanSearch]: the documents it displays. *)
Definition booleanSearch (w : World) (e : t) (queryStr : list Z)
  : except (list Z) :=
  match queryStr with
  | [] => Ok []
  | _ => executeBooleanQuery w e (parseBooleanQuery queryStr)
  end.

(** *** TF-IDF queries *)

Module ScoredDocument.
Record t : Type := { docId : Z; score : float }.
End ScoredDocument.

(** [static_cast<double>(n)] of an integer. *)
Definition double_of_Z (z : Z) : float :=
  if z <? 0 then PrimFloat.opp (PrimFloat.of_uint63 (Uint63.of_Z (- z)))
  else PrimFloat.of_uint63 (Uint63.of_Z z).

(** A [std::map<int, double>], visited in key order. *)
Definition score_le (a b : Z * float) : Prop := a.1 <= b.1.

#[global] Instance score_le_dec a b : Decision (score_le a b).
Proof. unfold score_le. apply _. Defined.

Definition score_entries (scores : gmap Z float) : list (Z * float) :=
  merge_sort score_le (map_to_list scores).

Section Ranking.

(** [std::log] and [std::sort] come from the C++ library. *)
Variable std_log : float -> float.
Variable std_sort : forall A, (A -> A -> bool) -> list A -> list A.

(** The loop over the postings of one term in [calculateTfIdfScores]. *)
Fixpoint score_postings (e : t) (idf : float) (postings : list (Z * Z))
  (scores : gmap Z float) : gmap Z float :=
  match postings with
  | [] => scores
  | (docId, termFreq) :: postings' =>
      match CustomHashMap.find (m_docLengths e) docId with
      | None => score_postings e idf postings' scores
      | Some docLength =>
          if docLength =? 0 then score_postings e idf postings' scores
          else
            let tf := PrimFloat.div (double_of_Z termFreq) (double_of_Z docLength) in
            score_postings e idf postings'
              (<[docId := PrimFloat.add (default PrimFloat.zero (scores !! docId))
                                        (PrimFloat.mul tf idf)]> scores)
      end
  end.

Fixpoint score_terms (e : t) (queryTerms : list (list Z)) (scores : gmap Z float)
  : except (gmap Z float) :=
  match queryTerms with
  | [] => Ok scores
  | term :: queryTerms' =>
      match CustomHashMap.find (m_invertedIndex e) term with
      | None => score_terms e queryTerms' scores
      | Some data =>
          postings ← decompressPostingList data;
          let idf :=
            std_log (PrimFloat.div (double_of_Z (m_totalDocsCount e))
                                   (double_of_Z (Z.of_nat (length postings)))) in
          score_terms e queryTerms' (score_postings e idf postings scores)
      end
  end.

Definition calculateTfIdfScores (e : t) (queryTerms : list (list Z))
  : except (gmap Z float) :=
  score_terms e queryTerms ∅.

(** The loop of [rankDocuments] that keeps [entry.second >= minTfIdfScore]. *)
Fixpoint keep_scores (config : Config) (entries : list (Z * float))
  (results : list ScoredDocument.t) : list ScoredDocument.t :=
  match entries with
  | [] => results
  | entry :: entries' =>
      if DoubleOrder.ge entry.2 (minTfIdfScore config)
      then keep_scores config entries'
             (results ++ [{| ScoredDocument.docId := entry.1;
                             ScoredDocument.score := entry.2 |}])
      else keep_scores config entries' results
  end.

Definition rankDocuments (config : Config) (scores : gmap Z float)
  : list ScoredDocument.t :=
  let results := keep_scores config (score_entries scores) [] in
  std_sort _ (fun a b => DoubleOrder.gt (ScoredDocument.score a)
                                        (ScoredDocument.score b))
           results.

(** One line of [performTfIdfSearch]: the ranked documents. *)
Definition tfIdfSearch (e : t) (queryStr : list Z)
  : except (list ScoredDocument.t) :=
  match queryStr with
  | [] => Ok []
  | _ =>
      match tokenize queryStr with
      | [] => Ok []
      | queryTerms =>
          scores ← calculateTfIdfScores e queryTerms;
          if decide (scores = ∅) then Ok []
          else Ok (rankDocuments (m_config e) scores)
      end
  end.

End Ranking.

(** *** Ranking *)

Lemma keep_scores_filter config entries : forall results,
  keep_scores config entries results =
  results ++
  map (fun entry => {| ScoredDocument.docId := entry.1;
                       ScoredDocument.score := entry.2 |})
      (filter (fun entry => DoubleOrder.ge entry.2 (minTfIdfScore config) = true)
              entries).
Proof.
  induction entries as [|entry entries IH]; intros results; simpl.
  - rewrite app_nil_r. reflexivity.
  - rewrite filter_cons.
    destruct (DoubleOrder.ge entry.2 (minTfIdfScore config)) eqn:Hge.
    + destruct (decide (true = true)); [|congruence].
      rewrite IH, <- app_assoc. reflexivity.
    + destruct (decide (false = true)); [congruence|]. apply IH.
Qed.

Lemma elem_of_score_entries scores d s :
  (d, s) ∈ score_entries scores <-> scores !! d = Some s.
Proof.
  unfold score_entries. rewrite merge_sort_Permutation.
  apply elem_of_map_to_list.
Qed.

Lemma NoDup_score_entries scores : NoDup (map fst (score_entries scores)).
Proof.
  unfold score_entries.
  rewrite (fmap_Permutation fst _ _ (merge_sort_Permutation score_le (map_to_list scores))).
  apply NoDup_fst_map_to_list.
Qed.

(** C6, amended.  With any [std::sort] that meets the standard's contract:
    the ranked list holds exactly the documents of the score map whose
    score is [>= minTfIdfScore = 0.05], each once, in an order in which no
    document is followed by one with a larger score (descending scores).
    Nothing is promised about the order of documents with equal scores. *)
Theorem rankDocuments_threshold_descending
  (std_sort : forall A, (A -> A -> bool) -> list A -> list A)
  (config : Config) (scores : gmap Z float) :
  StdSort.sort_contract std_sort ->
  minTfIdfScore config = default_minTfIdfScore ->
  (forall d s,
     {| ScoredDocument.docId := d; ScoredDocument.score := s |}
       ∈ rankDocuments std_sort config scores <->
     scores !! d = Some s /\ DoubleOrder.ge s default_minTfIdfScore = true) /\
  NoDup (map ScoredDocument.docId (rankDocuments std_sort config scores)) /\
  StronglySorted
    (fun a b => DoubleOrder.ge (ScoredDocument.score a)
                               (ScoredDocument.score b) = true)
    (rankDocuments std_sort config scores).
Proof.
  intros Hsort Hmin. unfold rankDocuments.
  rewrite keep_scores_filter, Hmin. cbn [app].
  set (mk := fun entry : Z * float =>
               {| ScoredDocument.docId := entry.1;
                  ScoredDocument.score := entry.2 |}).
  set (kept := map mk (filter (fun entry =>
                 DoubleOrder.ge entry.2 default_minTfIdfScore = true)
                 (score_entries scores))).
  set (comp := fun a b => DoubleOrder.gt (ScoredDocument.score a)
                                         (ScoredDocument.score b)).
  assert (forall d s, mk (d, s) ∈ kept <->
            scores !! d = Some s /\
            DoubleOrder.ge s default_minTfIdfScore = true) as Hkept.
  { intros d s. unfold kept. rewrite list_elem_of_fmap. split.
    - intros ([d' s'] & Heq & Hin). injection Heq as <- <-.
      apply list_elem_of_filter in Hin as [Hge Hin].
      apply elem_of_score_entries in Hin. auto.
    - intros [Hlook Hge]. exists (d, s). split; [reflexivity|].
      apply list_elem_of_filter. split; [exact Hge|].
      apply elem_of_score_entries, Hlook. }
  assert (forall x, x ∈ kept ->
            DoubleOrder.is_number (ScoredDocument.score x)) as Hnum.
  { intros [d s] Hx. apply (Hkept d s) in Hx as [_ Hge].
    apply DoubleOrder.ge_is_number in Hge. tauto. }
  destruct (Hsort _ comp kept (DoubleOrder.gt_strict_weak_order _ kept Hnum))
    as [Hperm Hsorted].
  split; [|split].
  - intros d s. rewrite Hperm. apply (Hkept d s).
  - rewrite Hperm. unfold kept. rewrite map_map. simpl.
    assert (forall l : list (Z * float), NoDup (map fst l) ->
              NoDup (map fst (filter (fun entry =>
                 DoubleOrder.ge entry.2 default_minTfIdfScore = true) l)))
      as Hfilter.
    { induction l as [|x l IH]; intros Hnd; [constructor|].
      apply NoDup_cons in Hnd as [Hx Hnd]. rewrite filter_cons.
      destruct (decide _); [|apply IH, Hnd].
      simpl. apply NoDup_cons. split; [|apply IH, Hnd].
      intros Hin. apply Hx.
      apply list_elem_of_fmap in Hin as (y & Hy & Hin).
      apply list_elem_of_filter in Hin as [_ Hin].
      apply list_elem_of_fmap. exists y. auto. }
    apply Hfilter, NoDup_score_entries.
  - unfold StdSort.sorted_by in Hsorted.
    assert (forall l, (forall x, x ∈ l -> x ∈ kept) ->
              StronglySorted (fun x y => comp y x = false) l ->
              StronglySorted (fun a b =>
                DoubleOrder.ge (ScoredDocument.score a)
                               (ScoredDocument.score b) = true) l) as Hconv.
    { induction 2 as [|x l Hs IH Hall]; constructor.
      - apply IH. intros y Hy. apply H. right. exact Hy.
      - rewrite Forall_forall in Hall |- *. intros y Hy.
        apply DoubleOrder.gt_false_ge;
          [apply Hnum, H; left|apply Hnum, H; right; exact Hy|].
        apply Hall, Hy. }
    apply Hconv; [|exact Hsorted].
    intros x Hx. rewrite <- Hperm. exact Hx.
Qed.

Lemma rankDocuments_threshold_descending_witness :
  let scores : gmap Z float :=
    <[1 := 0.25%float]> (<[2 := 0.5%float]> (<[3 := 0.03125%float]>
      (<[4 := 0.5%float]> ∅))) in
  (forall d s,
     {| ScoredDocument.docId := d; ScoredDocument.score := s |}
       ∈ rankDocuments StdSort.insertion_sort (m_config (create [])) scores <->
     scores !! d = Some s /\ DoubleOrder.ge s default_minTfIdfScore = true) /\
  NoDup (map ScoredDocument.docId
             (rankDocuments StdSort.insertion_sort (m_config (create [])) scores)) /\
  StronglySorted
    (fun a b => DoubleOrder.ge (ScoredDocument.score a)
                               (ScoredDocument.score b) = true)
    (rankDocuments StdSort.insertion_sort (m_config (create [])) scores).
Proof.
  intros scores.
  apply (rankDocuments_threshold_descending StdSort.insertion_sort
           (m_config (create [])) scores).
  - exact StdSort.insertion_sort_contract.
  - reflexivity.
Defined.

(** C6 as stated fails.  The comparator passed to [std::sort] looks at the
    score only, and libstdc++'s [std::sort] moves equal elements as soon as
    the vector holds more than 16: for seventeen documents of equal score
    the ranking starts with docId 9, and docId 1 comes tenth. *)
Lemma rankDocuments_equal_scores_not_by_docId :
  let scores : gmap Z float :=
    list_to_map
      (map (fun docId => (docId, 0.5%float))
           [1; 2; 3; 4; 5; 6; 7; 8; 9; 10; 11; 12; 13; 14; 15; 16; 17]) in
  rankDocuments Libstdcxx.sort (m_config (create [])) scores =
  map (fun docId => {| ScoredDocument.docId := docId;
                       ScoredDocument.score := 0.5%float |})
      [9; 17; 16; 15; 14; 13; 12; 11; 10; 1; 8; 7; 6; 5; 4; 3; 2].
Proof. vm_compute. reflexivity. Qed.

(** *** Boolean retrieval as set algebra *)

(** Every stored posting list decodes. *)
Definition index_decodable (e : t) : Prop :=
  forall term data,
    CustomHashMap.find (m_invertedIndex e) term = Some data ->
    is_Ok (decompressPostingList data).

(** The index holds the posting lists [postingLists]: a term without an
    entry has the empty list, and the entry of a term is the compressed form
    of its list, as [indexDocuments] stores it. *)
Definition index_stores (e : t) (postingLists : list Z -> list (Z * Z)) : Prop :=
  forall term,
    match CustomHashMap.find (m_invertedIndex e) term with
    | Some data =>
        Forall posting_in_range (postingLists term) /\
        compressPostingList (postingLists term) = Ok data
    | None => postingLists term = []
    end.

(** The posting-list docId set of a term: the docIds of its postings. *)
Definition posting_docIds (postingLists : list Z -> list (Z * Z))
  (term : list Z) : gset Z :=
  list_to_set (map fst (postingLists term)).


(** The set that the code reads for a term: what [getDocumentsForTerm]
    returns, and the empty set when it throws. *)
Definition termDocs (e : t) (term : list Z) : gset Z :=
  match getDocumentsForTerm e term with
  | Ok docIds => docIds
  | Throw _ => ∅
  end.

(** [candidate_set] over the sets that the code reads. *)
Definition spec_candidates (e : t) (query : BooleanQuery) : gset Z :=
  match requiredTerms query with
  | term :: terms =>
      foldl (fun candidates term' => candidates ∩ termDocs e term')
            (termDocs e term) terms
  | [] => ⋃ (termDocs e <$> optionalTerms query)
  end ∖ ⋃ (termDocs e <$> excludedTerms query).

Lemma getDocumentsForTerm_decodable e term :
  index_decodable e -> getDocumentsForTerm e term = Ok (termDocs e term).
Proof.
  intros Hdec. unfold termDocs, getDocumentsForTerm.
  destruct (CustomHashMap.find (m_invertedIndex e) term) as [data|] eqn:Hfind;
    [|reflexivity].
  specialize (Hdec term data Hfind).
  destruct (decompressPostingList data); [reflexivity|destruct Hdec].
Qed.

Lemma union_loop_decodable e terms : forall docs,
  index_decodable e ->
  union_loop e terms docs = Ok (docs ∪ ⋃ (termDocs e <$> terms)).
Proof.
  induction terms as [|term terms IH]; intros docs Hdec; simpl.
  - f_equal. set_solver.
  - rewrite getDocumentsForTerm_decodable by exact Hdec. simpl.
    rewrite IH by exact Hdec. f_equal. set_solver.
Qed.

Lemma foldl_intersection_empty e terms :
  foldl (fun candidates term' => candidates ∩ termDocs e term') ∅ terms = ∅.
Proof.
  induction terms as [|term terms IH]; simpl; [reflexivity|].
  replace (∅ ∩ termDocs e term) with (∅ : gset Z) by set_solver. exact IH.
Qed.



Lemma required_loop_decodable e terms : forall candidateSet,
  index_decodable e -> candidateSet <> ∅ ->
  required_loop e terms candidateSet true =
  Ok (let candidates :=
        foldl (fun candidates term' => candidates ∩ termDocs e term')
              candidateSet terms in
      if decide (candidates = ∅) then None else Some (candidates, true)).
Proof.
  induction terms as [|term terms IH]; intros candidateSet Hdec Hne; simpl.
  - destruct (decide (candidateSet = ∅)); [congruence|reflexivity].
  - rewrite getDocumentsForTerm_decodable by exact Hdec. simpl.
    destruct (decide (termDocs e term = ∅)) as [Hempty|Hterm].
    { rewrite Hempty.
      replace (candidateSet ∩ ∅) with (∅ : gset Z) by set_solver.
      rewrite foldl_intersection_empty.
      destruct (decide (∅ = ∅)); [reflexivity|congruence]. }
    destruct (decide (candidateSet ∩ termDocs e term = ∅)) as [Hempty|Hcand].
    { rewrite Hempty, foldl_intersection_empty.
      destruct (decide (∅ = ∅)); [reflexivity|congruence]. }
    apply IH; assumption.
Qed.

Lemma required_loop_first e term terms :
  index_decodable e ->
  required_loop e (term :: terms) ∅ false =
  Ok (let candidates :=
        foldl (fun candidates term' => candidates ∩ termDocs e term')
              (termDocs e term) terms in
      if decide (candidates = ∅) then None else Some (candidates, true)).
Proof.
  intros Hdec. simpl.
  rewrite getDocumentsForTerm_decodable by exact Hdec. simpl.
  destruct (decide (termDocs e term = ∅)) as [Hempty|Hterm].
  { rewrite Hempty, foldl_intersection_empty.
    destruct (decide (∅ = ∅)); [reflexivity|congruence]. }
  apply required_loop_decodable; assumption.
Qed.

Lemma set_elements_empty : set_elements ∅ = [].
Proof. unfold set_elements. rewrite elements_empty. reflexivity. Qed.

Lemma elem_of_set_elements s d : d ∈ set_elements s <-> d ∈ s.
Proof.
  unfold set_elements. rewrite merge_sort_Permutation. apply elem_of_elements.
Qed.

Lemma set_elements_ascending s : StronglySorted Z.lt (set_elements s).
Proof.
  unfold set_elements.
  assert (StronglySorted Z.le (merge_sort Z.le (elements s))) as Hle
    by (apply StronglySorted_merge_sort; apply _).
  assert (NoDup (merge_sort Z.le (elements s))) as Hnd.
  { rewrite merge_sort_Permutation. apply NoDup_elements. }
  induction Hle as [|x l Hs IH Hall]; constructor.
  - apply IH. apply NoDup_cons in Hnd. tauto.
  - apply NoDup_cons in Hnd as [Hx _].
    rewrite Forall_forall in Hall |- *. intros y Hy.
    specialize (Hall y Hy). destruct (decide (x = y)) as [->|Hne]; [tauto|lia].
Qed.










(** *** The loading loops, unfolded once *)

Lemma load_records_eq garbage f index :
  load_records garbage f index =
  if Std.has_next f then
    match load_record garbage f index with
    | None => index
    | Some (f', index') => load_records garbage f' index'
    end
  else index.
Proof.
  rewrite load_records_equation_1. simpl.
  destruct (Std.has_next f); simpl; [|reflexivity].
  destruct (load_record garbage f index) as [[f' index']|]; reflexivity.
Qed.

Lemma load_lengths_eq s m :
  load_lengths s m =
  match Std.read_int s with
  | None => m
  | Some (id, s1) =>
      match Std.read_int s1 with
      | None => m
      | Some (len, s2) => load_lengths s2 (CustomHashMap.insert id len m)
      end
  end.
Proof.
  rewrite load_lengths_equation_1. simpl.
  destruct (Std.read_int s) as [[id s1]|]; simpl; [|reflexivity].
  destruct (Std.read_int s1) as [[len s2]|]; reflexivity.
Qed.

Lemma load_names_eq s m :
  load_names s m =
  match Std.read_int s with
  | None => m
  | Some (id, s1) =>
      match Std.skip_ws s1 with
      | [] => m
      | c :: s2 =>
          let '(name, s3) := Std.getline (c :: s2) in
          load_names s3
            (match name with
             | [] => m
             | _ => CustomHashMap.insert id name m
             end)
      end
  end.
Proof.
  rewrite load_names_equation_1. cbn -[Std.getline].
  destruct (Std.read_int s) as [[id s1]|]; cbn -[Std.getline]; [|reflexivity].
  destruct (Std.skip_ws s1) as [|c s2]; cbn -[Std.getline]; [reflexivity|].
  destruct (Std.getline (c :: s2)) as [name s3]. reflexivity.
Qed.

(** *** Saved files are read back as written *)

(** The lengths of a term and of its posting-list bytes fit the [u32] fields
    of a record. *)
Definition fits_u32 (entry : list Z * list Z) : Prop :=
  Z.of_nat (length entry.1) < 2 ^ 32 /\ Z.of_nat (length entry.2) < 2 ^ 32.

Lemma u32_of_bytes_inv n : 0 <= n < 2 ^ 32 -> Std.u32_of_bytes (Std.u32_bytes n) = n.
Proof.
  intros Hn. rewrite <- (app_nil_r (Std.u32_bytes n)).
  apply Std.u32_of_bytes_u32_bytes, Hn.
Qed.

Lemma read_app pre rest n :
  length pre = n ->
  Std.read {| Std.rdbuf := pre ++ rest; Std.failed := false |} n =
  (pre, {| Std.rdbuf := rest; Std.failed := false |}).
Proof.
  intros <-. unfold Std.read. simpl.
  destruct (Nat.leb_spec (length pre) (length (pre ++ rest))) as [_|Hlt].
  - rewrite take_app_length, drop_app_length. reflexivity.
  - rewrite length_app in Hlt. lia.
Qed.

Lemma load_record_index_record garbage entry rest index :
  fits_u32 entry ->
  load_record garbage
    {| Std.rdbuf := index_record entry ++ rest; Std.failed := false |} index =
  Some ({| Std.rdbuf := rest; Std.failed := false |},
        CustomHashMap.insert entry.1 entry.2 index).
Proof.
  destruct entry as [term data]. intros [Hterm Hdata]. simpl in Hterm, Hdata.
  unfold load_record, index_record. cbn [fst snd].
  rewrite !wrap_u32_small by lia. rewrite !Nat2Z.id.
  rewrite !firstn_all. rewrite <- !app_assoc.
  rewrite (read_app (Std.u32_bytes _) _ 4) by reflexivity. cbn [Std.failed].
  rewrite !u32_of_bytes_inv by lia. rewrite !Nat2Z.id.
  rewrite (read_app term _ (length term)) by reflexivity.
  rewrite (read_app (Std.u32_bytes _) _ 4) by reflexivity.
  rewrite Std.u32_of_bytes_u32_bytes by lia.
  rewrite wrap_u32_small by lia. rewrite Nat2Z.id.
  rewrite (read_app data _ (length data)) by reflexivity.
  unfold read_into_zeros. rewrite !Nat.sub_diag. cbn [replicate].
  rewrite !app_nil_r. reflexivity.
Qed.

Lemma load_records_saved garbage entries : forall index,
  Forall fits_u32 entries ->
  load_records garbage (Std.open (flat_map index_record entries)) index =
  CustomHashMap.insert_all entries index.
Proof.
  unfold Std.open.
  induction entries as [|entry entries IH]; intros index Hfits.
  - rewrite load_records_eq. reflexivity.
  - apply Forall_cons in Hfits as [Hfit Hfits].
    rewrite load_records_eq. cbn [flat_map].
    assert (Std.has_next {| Std.rdbuf := index_record entry ++
                              flat_map index_record entries;
                            Std.failed := false |} = true) as ->.
    { unfold Std.has_next, index_record, Std.u32_bytes. reflexivity. }
    rewrite load_record_index_record by exact Hfit.
    rewrite IH by exact Hfits. reflexivity.
Qed.

(** A document identifier and a length, as the text files hold them. *)
Definition int_entry (entry : Z * Z) : Prop := is_int entry.1 /\ is_int entry.2.

Lemma read_int_skip c s : Std.isspace c = true -> Std.read_int (c :: s) = Std.read_int s.
Proof. intros Hc. unfold Std.read_int. simpl. rewrite Hc. reflexivity. Qed.

Lemma load_lengths_skip c s m :
  Std.isspace c = true -> load_lengths (c :: s) m = load_lengths s m.
Proof.
  intros Hc. rewrite (load_lengths_eq (c :: s)), (load_lengths_eq s).
  rewrite read_int_skip by exact Hc. reflexivity.
Qed.

Lemma load_lengths_saved entries : forall m,
  Forall int_entry entries ->
  load_lengths (flat_map length_line entries) m =
  CustomHashMap.insert_all entries m.
Proof.
  induction entries as [|[id len] entries IH]; intros m Hints.
  - rewrite load_lengths_eq. reflexivity.
  - apply Forall_cons in Hints as [[Hid Hlen] Hints]. simpl in Hid, Hlen.
    rewrite load_lengths_eq. cbn [flat_map]. unfold length_line at 1.
    cbn [fst snd]. rewrite <- !app_assoc.
    rewrite Std.read_int_to_string by (try exact Hid; reflexivity).
    cbn [app]. rewrite read_int_skip by reflexivity.
    rewrite Std.read_int_to_string by (try exact Hlen; reflexivity).
    rewrite load_lengths_skip by reflexivity.
    rewrite IH by exact Hints. reflexivity.
Qed.

(** A file name that the names file holds unchanged: not empty, not starting
    with whitespace, without a newline. *)
Definition plain_name (name : list Z) : Prop :=
  match name with
  | [] => False
  | c :: _ => Std.isspace c = false
  end /\ 10 ∉ name.

Definition name_entry (entry : Z * list Z) : Prop :=
  is_int entry.1 /\ plain_name entry.2.

Lemma load_names_saved entries : forall m,
  Forall name_entry entries ->
  load_names (flat_map name_line entries) m =
  CustomHashMap.insert_all entries m.
Proof.
  induction entries as [|[id name] entries IH]; intros m Hnames.
  - rewrite load_names_eq. reflexivity.
  - apply Forall_cons in Hnames as [[Hid [Hhead Hnl]] Hnames].
    simpl in Hid, Hhead, Hnl.
    rewrite load_names_eq. cbn [flat_map]. unfold name_line at 1.
    cbn [fst snd]. rewrite <- !app_assoc.
    rewrite Std.read_int_to_string by (try exact Hid; reflexivity).
    destruct name as [|c name]; [destruct Hhead|].
    cbn [app Std.skip_ws]. change (Std.isspace 32) with true. cbv iota.
    rewrite Hhead.
    change (c :: name ++ 10 :: flat_map name_line entries)
      with ((c :: name) ++ 10 :: flat_map name_line entries).
    rewrite Std.getline_line by exact Hnl.
    rewrite IH by exact Hnames. reflexivity.
Qed.

(** *** Queries read the state through lookups only *)

Definition same_state (e1 e2 : t) : Prop :=
  m_config e1 = m_config e2 /\
  CustomHashMap.same_lookups (m_invertedIndex e1) (m_invertedIndex e2) /\
  CustomHashMap.same_lookups (m_docNames e1) (m_docNames e2) /\
  CustomHashMap.same_lookups (m_docLengths e1) (m_docLengths e2) /\
  m_totalDocsCount e1 = m_totalDocsCount e2.

(** The two file systems hold the same documents. *)
Definition same_documents (w1 w2 : World) (dir : list Z) : Prop :=
  forall x, files w1 !! (dir ++ Std.bytes "/" ++ x) =
            files w2 !! (dir ++ Std.bytes "/" ++ x).

Lemma getDocumentsForTerm_same e1 e2 term :
  same_state e1 e2 -> getDocumentsForTerm e1 term = getDocumentsForTerm e2 term.
Proof.
  intros (_ & Hindex & _). unfold getDocumentsForTerm. rewrite Hindex. reflexivity.
Qed.

Lemma required_loop_same e1 e2 terms : forall candidateSet hasCandidates,
  same_state e1 e2 ->
  required_loop e1 terms candidateSet hasCandidates =
  required_loop e2 terms candidateSet hasCandidates.
Proof.
  induction terms as [|term terms IH]; intros candidateSet hasCandidates Hsame;
    [reflexivity|].
  simpl. rewrite (getDocumentsForTerm_same e1 e2) by exact Hsame.
  destruct (getDocumentsForTerm e2 term) as [termDocs|]; [|reflexivity]. simpl.
  destruct (decide (termDocs = ∅)); [reflexivity|].
  destruct (decide _); [reflexivity|]. apply IH, Hsame.
Qed.

Lemma union_loop_same e1 e2 terms : forall docs,
  same_state e1 e2 -> union_loop e1 terms docs = union_loop e2 terms docs.
Proof.
  induction terms as [|term terms IH]; intros docs Hsame; [reflexivity|].
  simpl. rewrite (getDocumentsForTerm_same e1 e2) by exact Hsame.
  destruct (getDocumentsForTerm e2 term) as [termDocs|]; [|reflexivity]. simpl.
  apply IH, Hsame.
Qed.

Lemma verifyRequiredTermsInDocument_same w1 w2 e1 e2 docId terms :
  same_state e1 e2 -> same_documents w1 w2 (dataDir (m_config e1)) ->
  verifyRequiredTermsInDocument w1 e1 docId terms =
  verifyRequiredTermsInDocument w2 e2 docId terms.
Proof.
  intros (Hconfig & _ & Hnames & _) Hdocs.
  unfold verifyRequiredTermsInDocument, readFileContent, getDocumentPath.
  rewrite <- Hnames, <- Hconfig.
  destruct (CustomHashMap.find (m_docNames e1) docId) as [name|].
  - rewrite (Hdocs name). reflexivity.
  - rewrite (Hdocs (Std.to_string docId ++ Std.bytes ".txt")). reflexivity.
Qed.

Lemma executeBooleanQuery_same w1 w2 e1 e2 query :
  same_state e1 e2 -> same_documents w1 w2 (dataDir (m_config e1)) ->
  executeBooleanQuery w1 e1 query = executeBooleanQuery w2 e2 query.
Proof.
  intros Hsame Hdocs. unfold executeBooleanQuery.
  rewrite (required_loop_same e1 e2) by exact Hsame.
  destruct (hasRequiredTerms query) eqn:Hreq.
  - destruct (required_loop e2 (requiredTerms query) ∅ false)
      as [[[candidateSet hasCandidates]|]|]; try reflexivity.
    cbn [mbind except_bind negb andb].
    destruct (negb hasCandidates); [reflexivity|].
    destruct (excludedTerms query) as [|xterm xterms].
    + cbn [mbind except_bind]. f_equal.
      apply list_filter_iff. intros docId.
      rewrite (verifyRequiredTermsInDocument_same w1 w2 e1 e2) by assumption.
      reflexivity.
    + rewrite (union_loop_same e1 e2) by exact Hsame.
      destruct (union_loop e2 (xterm :: xterms) ∅); [|reflexivity].
      cbn [mbind except_bind]. f_equal.
      apply list_filter_iff. intros docId.
      rewrite (verifyRequiredTermsInDocument_same w1 w2 e1 e2) by assumption.
      reflexivity.
  - cbn [mbind except_bind negb andb].
    rewrite (union_loop_same e1 e2 (optionalTerms query)) by exact Hsame.
    destruct (hasOptionalTerms query); cbn [mbind except_bind negb]; [|reflexivity].
    destruct (union_loop e2 (optionalTerms query) ∅); [|reflexivity].
    cbn [mbind except_bind negb].
    rewrite (union_loop_same e1 e2 (excludedTerms query)) by exact Hsame.
    reflexivity.
Qed.

Lemma booleanSearch_same w1 w2 e1 e2 queryStr :
  same_state e1 e2 -> same_documents w1 w2 (dataDir (m_config e1)) ->
  booleanSearch w1 e1 queryStr = booleanSearch w2 e2 queryStr.
Proof.
  intros Hsame Hdocs. unfold booleanSearch.
  destruct queryStr; [reflexivity|]. apply executeBooleanQuery_same; assumption.
Qed.

Lemma score_postings_same std_idf e1 e2 postings : forall scores,
  same_state e1 e2 ->
  score_postings e1 std_idf postings scores =
  score_postings e2 std_idf postings scores.
Proof.
  induction postings as [|[docId termFreq] postings IH]; intros scores Hsame;
    [reflexivity|].
  simpl. destruct Hsame as (? & ? & ? & Hlengths & ?).
  rewrite Hlengths.
  destruct (CustomHashMap.find (m_docLengths e2) docId) as [docLength|];
    [|apply IH; repeat split; assumption].
  destruct (docLength =? 0); apply IH; repeat split; assumption.
Qed.

Lemma tfIdfSearch_same std_log std_sort e1 e2 queryStr :
  same_state e1 e2 ->
  tfIdfSearch std_log std_sort e1 queryStr =
  tfIdfSearch std_log std_sort e2 queryStr.
Proof.
  intros Hsame. unfold tfIdfSearch, calculateTfIdfScores.
  destruct queryStr as [|c queryStr]; [reflexivity|].
  destruct (tokenize (c :: queryStr)) as [|term terms]; [reflexivity|].
  assert (forall queryTerms scores,
            score_terms std_log e1 queryTerms scores =
            score_terms std_log e2 queryTerms scores) as Hterms.
  { induction queryTerms as [|qterm queryTerms IH]; intros scores; [reflexivity|].
    simpl. destruct Hsame as (Hconfig & Hindex & Hnames & Hlengths & Htotal).
    rewrite Hindex, Htotal.
    destruct (CustomHashMap.find (m_invertedIndex e2) qterm) as [data|];
      [|apply IH].
    destruct (decompressPostingList data) as [postings|]; [|reflexivity].
    cbn [mbind except_bind].
    rewrite (score_postings_same _ e1 e2) by (repeat split; assumption).
    apply IH. }
  rewrite Hterms. destruct Hsame as (Hconfig & _). rewrite Hconfig. reflexivity.
Qed.

(** *** The state after a build *)

(** The name of a directory entry that the names file holds unchanged. *)
Definition document_name (name : list Z) : Prop := plain_name name /\ 47 ∉ name.

Lemma wrap_int_is_int z : is_int (wrap_int z).
Proof.
  unfold is_int, wrap_int.
  pose proof (Z.mod_pos_bound (z + 2 ^ 31) (2 ^ 32) ltac:(lia)). lia.
Qed.

Lemma path_filename_loop_plain q : forall current,
  47 ∉ q -> path_filename_loop q current = current ++ q.
Proof.
  induction q as [|c q IH]; intros current Hq; simpl.
  - rewrite app_nil_r. reflexivity.
  - apply not_elem_of_cons in Hq as [Hc Hq].
    destruct (Z.eqb_spec c 47); [congruence|].
    rewrite IH by exact Hq. rewrite <- app_assoc. reflexivity.
Qed.

Lemma path_filename_loop_slash p : forall q current,
  path_filename_loop (p ++ 47 :: q) current = path_filename_loop q [].
Proof.
  induction p as [|c p IH]; intros q current; simpl; [reflexivity|].
  destruct (c =? 47); apply IH.
Qed.

Lemma path_filename_document dir name :
  47 ∉ name -> path_filename (dir ++ Std.bytes "/" ++ name) = name.
Proof.
  intros Hname. unfold path_filename.
  change (Std.bytes "/" ++ name) with (47 :: name).
  rewrite path_filename_loop_slash. apply path_filename_loop_plain, Hname.
Qed.

(** What the loop over the directory maintains. *)
Definition indexing_invariant (st : IndexingState) : Prop :=
  CustomHashMap.wf (ix_docNames st) /\
  CustomHashMap.wf (ix_docLengths st) /\
  Forall name_entry (CustomHashMap.entries (ix_docNames st)) /\
  Forall int_entry (CustomHashMap.entries (ix_docLengths st)) /\
  (forall key, is_Some (CustomHashMap.find (ix_docLengths st) key) ->
               1 <= key <= ix_docId st) /\
  ix_docId st = Z.of_nat (length (CustomHashMap.entries (ix_docLengths st))).

Lemma index_entry_invariant w dir st name :
  indexing_invariant st ->
  (extension name = Std.bytes ".txt" -> document_name name) ->
  ix_docId st + 1 < 2 ^ 31 ->
  indexing_invariant (index_entry w dir st name) /\
  ix_docId st <= ix_docId (index_entry w dir st name) <= ix_docId st + 1.
Proof.
  intros (Hwfn & Hwfl & Hnames & Hlens & Hkeys & Hcount) Hname Hbound.
  unfold index_entry.
  destruct (decide (extension name = Std.bytes ".txt")) as [Hext|_].
  2:{ split; [|lia].
      exact (conj Hwfn (conj Hwfl (conj Hnames (conj Hlens (conj Hkeys Hcount))))). }
  destruct (Hname Hext) as [Hplain Hslash].
  assert (0 <= ix_docId st) as Hnn by lia.
  rewrite wrap_int_small by (unfold is_int; lia).
  assert (CustomHashMap.find (ix_docLengths st) (ix_docId st + 1) = None) as Hfresh.
  { destruct (CustomHashMap.find (ix_docLengths st) (ix_docId st + 1)) eqn:Hf;
      [|reflexivity].
    specialize (Hkeys (ix_docId st + 1) ltac:(rewrite Hf; eauto)). lia. }
  assert (filename (processDocument w (dir ++ Std.bytes "/" ++ name)
                                    (ix_docId st + 1)) = name) as Hfile.
  { unfold processDocument.
    destruct (files w !! _); simpl; apply path_filename_document, Hslash. }
  assert (is_int (wordCount (processDocument w (dir ++ Std.bytes "/" ++ name)
                                             (ix_docId st + 1)))) as Hwc.
  { unfold processDocument, indeterminate_int.
    destruct (files w !! _); simpl; apply wrap_int_is_int. }
  split; [|simpl; lia].
  unfold indexing_invariant. cbn [ix_docId ix_docNames ix_docLengths].
  split; [apply CustomHashMap.wf_insert, Hwfn|].
  split; [apply CustomHashMap.wf_insert, Hwfl|].
  split.
  { apply CustomHashMap.Forall_entries_insert; [exact Hwfn| |exact Hnames].
    rewrite Hfile. split; [simpl; unfold is_int; lia|exact Hplain]. }
  split.
  { apply CustomHashMap.Forall_entries_insert; [exact Hwfl| |exact Hlens].
    split; [simpl; unfold is_int; lia|exact Hwc]. }
  split.
  { intros key. rewrite CustomHashMap.find_insert.
    destruct (decide (ix_docId st + 1 = key)) as [<-|_]; [lia|].
    intros Hsome. apply Hkeys in Hsome. lia. }
  rewrite (Permutation_length
             (CustomHashMap.entries_insert_fresh _ _ _ Hwfl Hfresh)).
  simpl. lia.
Qed.

Lemma indexing_loop_invariant w dir names : forall st,
  indexing_invariant st ->
  Forall (fun name => extension name = Std.bytes ".txt" -> document_name name)
         names ->
  ix_docId st + Z.of_nat (length names) < 2 ^ 31 ->
  indexing_invariant (foldl (index_entry w dir) st names).
Proof.
  induction names as [|name names IH]; intros st Hinv Hnames Hbound;
    [exact Hinv|].
  apply Forall_cons in Hnames as [Hname Hnames]. simpl in Hbound |- *.
  destruct (index_entry_invariant w dir st name Hinv Hname ltac:(lia))
    as [Hinv' Hid].
  apply IH; [exact Hinv'|exact Hnames|lia].
Qed.

Lemma build_index_wf terms : forall index index',
  CustomHashMap.wf index -> build_index terms index = Ok index' ->
  CustomHashMap.wf index'.
Proof.
  induction terms as [|[term postings] terms IH]; intros index index' Hwf; simpl.
  - intros [= <-]. exact Hwf.
  - destruct (compressPostingList _) as [compressed|]; [|discriminate].
    cbn [mbind except_bind]. apply IH, CustomHashMap.wf_insert, Hwf.
Qed.

(** A state whose maps [insert] built, with [m_totalDocsCount] the number
    of document lengths, the lengths being [int]s and the names plain. *)
Definition saveable (e : t) : Prop :=
  CustomHashMap.wf (m_invertedIndex e) /\
  CustomHashMap.wf (m_docNames e) /\
  CustomHashMap.wf (m_docLengths e) /\
  Forall name_entry (CustomHashMap.entries (m_docNames e)) /\
  Forall int_entry (CustomHashMap.entries (m_docLengths e)) /\
  m_totalDocsCount e = Z.of_nat (CustomHashMap.size (m_docLengths e)).

Lemma indexDocuments_saveable w e names built :
  directory w (dataDir (m_config e)) = Some names ->
  Forall (fun name => extension name = Std.bytes ".txt" -> document_name name)
         names ->
  Z.of_nat (length names) < 2 ^ 31 ->
  indexDocuments w e = Ok built ->
  saveable built /\ m_config built = m_config e.
Proof.
  intros Hdir Hnames Hbound. unfold indexDocuments. rewrite Hdir.
  set (st := foldl _ _ names).
  assert (indexing_invariant st) as (Hwfn & Hwfl & Hn & Hl & _ & Hcount).
  { apply indexing_loop_invariant; [|exact Hnames|simpl; lia].
    split; [apply CustomHashMap.wf_empty|].
    split; [apply CustomHashMap.wf_empty|].
    split; [constructor|]. split; [constructor|].
    split; [|reflexivity]. intros key [v Hv]. discriminate. }
  destruct (build_index _ _) as [index|] eqn:Hbuild; [|discriminate].
  cbn [mbind except_bind]. intros [= <-]. cbn.
  split; [|reflexivity].
  split; [eapply build_index_wf; [apply CustomHashMap.wf_empty|exact Hbuild]|].
  split; [exact Hwfn|]. split; [exact Hwfl|].
  split; [exact Hn|]. split; [exact Hl|].
  rewrite CustomHashMap.size_entries. exact Hcount.
Qed.

(** *** Saving, then loading into a fresh engine *)

Lemma saveIndex_loadIndex_same (w : World) (built fresh : t) :
  saveable built ->
  Forall fits_u32 (CustomHashMap.entries (m_invertedIndex built)) ->
  m_config fresh = m_config built ->
  writable w (invIndexPath (m_config built)) = true ->
  writable w (docLengthsPath (m_config built)) = true ->
  writable w (docNamesPath (m_config built)) = true ->
  invIndexPath (m_config built) <> docLengthsPath (m_config built) ->
  invIndexPath (m_config built) <> docNamesPath (m_config built) ->
  docLengthsPath (m_config built) <> docNamesPath (m_config built) ->
  (saveIndex w built).1 = true /\
  (loadIndex (saveIndex w built).2 fresh).1 = true /\
  same_state (loadIndex (saveIndex w built).2 fresh).2 built.
Proof.
  intros (Hwfi & Hwfn & Hwfl & Hnames & Hlens & Htotal) Hfits Hconfig
         Hw1 Hw2 Hw3 Hd12 Hd13 Hd23.
  unfold saveIndex. rewrite Hw1. cbn [negb writable write_file].
  rewrite Hw2. cbn [writable write_file]. rewrite Hw3. cbn [fst snd].
  split; [reflexivity|].
  unfold loadIndex, loadIndexMetadata. cbn [files write_file m_config indeterminate].
  rewrite Hconfig.
  rewrite (lookup_insert_ne _ (docNamesPath _) (invIndexPath _)) by congruence.
  rewrite (lookup_insert_ne _ (docLengthsPath _) (invIndexPath _)) by congruence.
  rewrite lookup_insert_eq.
  rewrite (lookup_insert_ne _ (docNamesPath _) (docLengthsPath _)) by congruence.
  rewrite lookup_insert_eq. rewrite lookup_insert_eq.
  cbn [fst snd m_config m_invertedIndex m_docNames m_docLengths m_totalDocsCount].
  split; [reflexivity|].
  rewrite load_records_saved by exact Hfits.
  rewrite load_lengths_saved by exact Hlens.
  rewrite load_names_saved by exact Hnames.
  unfold same_state.
  cbn [fst snd m_config m_invertedIndex m_docNames m_docLengths m_totalDocsCount].
  split; [reflexivity|].
  split; [apply CustomHashMap.same_lookups_insert_all_entries, Hwfi|].
  split; [apply CustomHashMap.same_lookups_insert_all_entries, Hwfn|].
  split; [apply CustomHashMap.same_lookups_insert_all_entries, Hwfl|].
  rewrite Htotal. f_equal.
  apply CustomHashMap.same_lookups_size;
    [apply CustomHashMap.wf_insert_all, CustomHashMap.wf_empty|exact Hwfl|].
  apply CustomHashMap.same_lookups_insert_all_entries, Hwfl.
Qed.

Lemma files_write_file_ne w path content q :
  q <> path -> files (write_file w path content) !! q = files w !! q.
Proof. intros Hne. simpl. apply lookup_insert_ne. congruence. Qed.

Lemma files_write_file_if (b : bool) w path content q :
  q <> path ->
  files (if b then write_file w path content else w) !! q = files w !! q.
Proof. intros Hne. destruct b; [apply files_write_file_ne, Hne|reflexivity]. Qed.

Lemma saveIndex_same_documents w e dir :
  (forall x,
     dir ++ Std.bytes "/" ++ x <> invIndexPath (m_config e) /\
     dir ++ Std.bytes "/" ++ x <> docLengthsPath (m_config e) /\
     dir ++ Std.bytes "/" ++ x <> docNamesPath (m_config e)) ->
  same_documents (saveIndex w e).2 w dir.
Proof.
  intros Hpaths x. destruct (Hpaths x) as (H1 & H2 & H3).
  unfold saveIndex.
  destruct (negb (writable w (invIndexPath (m_config e)))); [reflexivity|].
  cbn [snd].
  rewrite files_write_file_if by exact H3.
  rewrite files_write_file_if by exact H2.
  apply files_write_file_ne, H1.
Qed.

(** *** A small corpus *)

(** Five documents about cats, dogs and birds, and a file that is not a
    document, under [./dataset_txt]. *)
Definition example_world : World :=
  {| files := list_to_map
       [ (Std.bytes "./dataset_txt/1.txt", Std.bytes "cat dog");
         (Std.bytes "./dataset_txt/2.txt", Std.bytes "cat cat dog");
         (Std.bytes "./dataset_txt/3.txt", Std.bytes "dog bird");
         (Std.bytes "./dataset_txt/4.txt", Std.bytes "cat bird");
         (Std.bytes "./dataset_txt/5.txt", Std.bytes "bird bird bird");
         (Std.bytes "./dataset_txt/notes.md", Std.bytes "cat") ];
     directory := fun dir =>
       if decide (dir = Std.bytes "./dataset_txt")
       then Some [ Std.bytes "1.txt"; Std.bytes "2.txt"; Std.bytes "notes.md";
                   Std.bytes "3.txt"; Std.bytes "4.txt"; Std.bytes "5.txt" ]
       else None;
     writable := fun _ => true;
     indeterminate := [] |}.

Definition example_engine : t :=
  create3 (Std.bytes "./dataset_txt") (Std.bytes "./resources/lemmas.txt")
          (Std.bytes ".").

(** The state a build leaves, when it completes. *)
Definition built_from (w : World) (e : t) : t :=
  match indexDocuments w e with
  | Ok built => built
  | Throw _ => e
  end.

Lemma built_from_Ok w e :
  is_Ok (indexDocuments w e) -> indexDocuments w e = Ok (built_from w e).
Proof.
  unfold built_from. destruct (indexDocuments w e); [reflexivity|intros []].
Defined.

(** One document whose file name starts with a space. *)
Definition spaced_name_world : World :=
  {| files := list_to_map
       [ (Std.bytes "./dataset_txt/ a.txt", Std.bytes "cat") ];
     directory := fun dir =>
       if decide (dir = Std.bytes "./dataset_txt")
       then Some [ Std.bytes " a.txt" ]
       else None;
     writable := fun _ => true;
     indeterminate := [] |}.

(** An index file with the given content beside a well-formed lengths
    file. *)
Definition index_file_world (content : list Z) : World :=
  {| files := list_to_map
       [ (Std.bytes "./inverted_index.bin", content);
         (Std.bytes "./doc_lengths.txt", Std.bytes "1 2" ++ [10]) ];
     directory := fun _ => None;
     writable := fun _ => true;
     indeterminate := [] |}.

Lemma index_decodable_entries e :
  CustomHashMap.wf (m_invertedIndex e) ->
  Forall (fun entry => is_Ok (decompressPostingList entry.2))
         (CustomHashMap.entries (m_invertedIndex e)) ->
  index_decodable e.
Proof.
  intros Hwf Hall term data Hfind. rewrite Forall_forall in Hall.
  apply (Hall (term, data)). apply CustomHashMap.elem_of_entries; assumption.
Qed.

(** C3, amended.  Build an index from a corpus directory whose document
    names are plain (not empty, no leading whitespace, no newline, no [/]),
    with fewer than 2^31 entries; let the build complete with an index whose
    term and posting-list lengths fit the [u32] fields of the index file;
    save it to three writable index files that are not documents of the
    corpus; load them into a fresh engine with the same configuration.
    Then saving and loading succeed, and every boolean query (as a parsed
    query or as a query line) and every TF-IDF query (whatever [std::log] and
    [std::sort] are) returns on the loaded state what it returns on the state
    right after the build. *)
Theorem build_save_load_same_results
  (w : World) (corpusDir dictFile indexDir : list Z) (names : list (list Z))
  (built : t) :
  directory w corpusDir = Some names ->
  Forall (fun name => extension name = Std.bytes ".txt" -> document_name name)
         names ->
  Z.of_nat (length names) < 2 ^ 31 ->
  indexDocuments w (create3 corpusDir dictFile indexDir) = Ok built ->
  Forall fits_u32 (CustomHashMap.entries (m_invertedIndex built)) ->
  writable w (indexDir ++ Std.bytes "/inverted_index.bin") = true ->
  writable w (indexDir ++ Std.bytes "/doc_lengths.txt") = true ->
  writable w (indexDir ++ Std.bytes "/doc_names.txt") = true ->
  (forall x suffix,
     suffix ∈ [ Std.bytes "/inverted_index.bin"; Std.bytes "/doc_lengths.txt";
                Std.bytes "/doc_names.txt" ] ->
     corpusDir ++ Std.bytes "/" ++ x <> indexDir ++ suffix) ->
  (saveIndex w built).1 = true /\
  (loadIndex (saveIndex w built).2 (create3 corpusDir dictFile indexDir)).1 = true /\
  (forall query,
     executeBooleanQuery (saveIndex w built).2
       (loadIndex (saveIndex w built).2 (create3 corpusDir dictFile indexDir)).2
       query =
     executeBooleanQuery w built query) /\
  (forall queryStr,
     booleanSearch (saveIndex w built).2
       (loadIndex (saveIndex w built).2 (create3 corpusDir dictFile indexDir)).2
       queryStr =
     booleanSearch w built queryStr) /\
  (forall std_log std_sort queryStr,
     tfIdfSearch std_log std_sort
       (loadIndex (saveIndex w built).2 (create3 corpusDir dictFile indexDir)).2
       queryStr =
     tfIdfSearch std_log std_sort built queryStr).
Proof.
  intros Hdir Hnames Hcount Hbuild Hfits Hw1 Hw2 Hw3 Hpaths.
  destruct (indexDocuments_saveable w (create3 corpusDir dictFile indexDir)
              names built Hdir Hnames Hcount Hbuild) as [Hsaveable Hconfig].
  assert (m_config (create3 corpusDir dictFile indexDir) = m_config built)
    as Hfresh by (symmetry; exact Hconfig).
  destruct (saveIndex_loadIndex_same w built
              (create3 corpusDir dictFile indexDir) Hsaveable Hfits Hfresh)
    as (Hsave & Hload & Hsame).
  1-3: rewrite Hconfig; assumption.
  1-3: rewrite Hconfig; cbn [m_config create3 invIndexPath docLengthsPath
                              docNamesPath];
       intros Heq; apply app_inv_head in Heq; discriminate.
  assert (same_documents (saveIndex w built).2 w
            (dataDir (m_config
               (loadIndex (saveIndex w built).2
                          (create3 corpusDir dictFile indexDir)).2))) as Hdocs.
  { destruct Hsame as (-> & _).
    apply saveIndex_same_documents. intros x.
    rewrite Hconfig.
    cbn [m_config create3 invIndexPath docLengthsPath docNamesPath].
    repeat split; apply Hpaths; set_solver. }
  split; [exact Hsave|]. split; [exact Hload|].
  split; [|split].
  - intros query. apply executeBooleanQuery_same; assumption.
  - intros queryStr. apply booleanSearch_same; assumption.
  - intros std_log std_sort queryStr. apply tfIdfSearch_same, Hsame.
Qed.

(** *** The small corpus, built *)

Lemma Forall_fits_u32 entries :
  forallb (fun entry : list Z * list Z =>
             (Z.of_nat (length entry.1) <? 2 ^ 32) &&
             (Z.of_nat (length entry.2) <? 2 ^ 32)) entries = true ->
  Forall fits_u32 entries.
Proof.
  rewrite forallb_forall, Forall_forall. intros Hall entry Hin.
  apply list_elem_of_In, Hall in Hin.
  apply andb_true_iff in Hin as [H1 H2].
  apply Z.ltb_lt in H1, H2. split; assumption.
Qed.

Lemma Forall_decodable entries :
  forallb (fun entry : list Z * list Z =>
             match decompressPostingList entry.2 with
             | Ok _ => true
             | Throw _ => false
             end) entries = true ->
  Forall (fun entry => is_Ok (decompressPostingList entry.2)) entries.
Proof.
  rewrite forallb_forall, Forall_forall. intros Hall entry Hin.
  apply list_elem_of_In, Hall in Hin.
  destruct (decompressPostingList entry.2); [exact I|discriminate].
Qed.

Lemma example_names_plain :
  Forall (fun name => extension name = Std.bytes ".txt" -> document_name name)
         [ Std.bytes "1.txt"; Std.bytes "2.txt"; Std.bytes "notes.md";
           Std.bytes "3.txt"; Std.bytes "4.txt"; Std.bytes "5.txt" ].
Proof.
  repeat (apply Forall_cons; split;
          [intros _; split; [split; [reflexivity|]|];
           apply (bool_decide_unpack _); vm_compute; exact I|]).
  apply Forall_nil. exact I.
Qed.

Lemma example_build_completes :
  indexDocuments example_world example_engine =
  Ok (built_from example_world example_engine).
Proof. apply built_from_Ok. vm_compute. exact I. Qed.

Lemma example_index_decodable :
  index_decodable (built_from example_world example_engine).
Proof.
  apply index_decodable_entries.
  - apply (indexDocuments_saveable example_world example_engine _ _
             eq_refl example_names_plain ltac:(vm_compute; reflexivity)
             example_build_completes).
  - apply Forall_decodable. vm_compute. reflexivity.
Qed.




Lemma build_save_load_same_results_witness :
  (saveIndex example_world (built_from example_world example_engine)).1 = true /\
  (loadIndex (saveIndex example_world
                (built_from example_world example_engine)).2
             example_engine).1 = true /\
  (forall query,
     executeBooleanQuery
       (saveIndex example_world (built_from example_world example_engine)).2
       (loadIndex (saveIndex example_world
                     (built_from example_world example_engine)).2
                  example_engine).2 query =
     executeBooleanQuery example_world
       (built_from example_world example_engine) query) /\
  (forall queryStr,
     booleanSearch
       (saveIndex example_world (built_from example_world example_engine)).2
       (loadIndex (saveIndex example_world
                     (built_from example_world example_engine)).2
                  example_engine).2 queryStr =
     booleanSearch example_world
       (built_from example_world example_engine) queryStr) /\
  (forall std_log std_sort queryStr,
     tfIdfSearch std_log std_sort
       (loadIndex (saveIndex example_world
                     (built_from example_world example_engine)).2
                  example_engine).2 queryStr =
     tfIdfSearch std_log std_sort
       (built_from example_world example_engine) queryStr).
Proof.
  apply (build_save_load_same_results example_world
           (Std.bytes "./dataset_txt") (Std.bytes "./resources/lemmas.txt")
           (Std.bytes ".")
           [ Std.bytes "1.txt"; Std.bytes "2.txt"; Std.bytes "notes.md";
             Std.bytes "3.txt"; Std.bytes "4.txt"; Std.bytes "5.txt" ]
           (built_from example_world example_engine)).
  - reflexivity.
  - exact example_names_plain.
  - vm_compute. reflexivity.
  - exact example_build_completes.
  - apply Forall_fits_u32. vm_compute. reflexivity.
  - reflexivity.
  - reflexivity.
  - reflexivity.
  - intros x suffix Hin. vm_compute in Hin.
    repeat (apply elem_of_cons in Hin as [->|Hin]); try (vm_compute; discriminate).
    inversion Hin.
Defined.

(** C3 as stated fails: a document whose file name starts with a space is
    found by [+cat] right after the build and is not found after saving and
    loading, because the loaded name has lost its leading space. *)
Lemma leading_space_name_changes_results :
  is_Ok (indexDocuments spaced_name_world example_engine) /\
  (saveIndex spaced_name_world
     (built_from spaced_name_world example_engine)).1 = true /\
  (loadIndex (saveIndex spaced_name_world
                (built_from spaced_name_world example_engine)).2
             example_engine).1 = true /\
  booleanSearch spaced_name_world
    (built_from spaced_name_world example_engine) (Std.bytes "+cat") = Ok [1] /\
  booleanSearch
    (saveIndex spaced_name_world
       (built_from spaced_name_world example_engine)).2
    (loadIndex (saveIndex spaced_name_world
                  (built_from spaced_name_world example_engine)).2
               example_engine).2
    (Std.bytes "+cat") = Ok [].
Proof.
  split; [vm_compute; exact I|].
  repeat split; vm_compute; reflexivity.
Qed.

(** [loadIndex] fails only when the index file or the lengths file cannot be
    opened: nothing in the index file's content makes it fail. *)
Lemma loadIndex_success w e :
  (loadIndex w e).1 = true <->
  is_Some (files w !! invIndexPath (m_config e)) /\
  is_Some (files w !! docLengthsPath (m_config e)).
Proof.
  unfold loadIndex, loadIndexMetadata.
  destruct (files w !! invIndexPath (m_config e)) as [content|]; cbn [m_config].
  - destruct (files w !! docLengthsPath (m_config e)) as [lengths|]; cbn [fst].
    + split; [intros _; split; eauto|reflexivity].
    + split; [discriminate|intros [_ [x Hx]]; discriminate].
  - split; [discriminate|intros [[x Hx] _]; discriminate].
Qed.

(** C8.  The code on an index file that ends inside a record: [loadIndex]
    returns [true] whether the end of the file falls inside [termLen] (the
    record is dropped), inside the term bytes (a zero-padded term with a
    data length that was never read), inside [dataLen], or inside the data
    bytes (zero-padded data), and the index holds what was partially read. *)
Theorem loadIndex_accepts_truncated_record :
  (loadIndex (index_file_world [3; 0]) example_engine).1 = true /\
  CustomHashMap.entries
    (m_invertedIndex (loadIndex (index_file_world [3; 0]) example_engine).2) = [] /\
  (loadIndex (index_file_world [3; 0; 0; 0; 99; 97]) example_engine).1 = true /\
  CustomHashMap.entries
    (m_invertedIndex
       (loadIndex (index_file_world [3; 0; 0; 0; 99; 97]) example_engine).2) =
  [([99; 97; 0], [])] /\
  (loadIndex (index_file_world [3; 0; 0; 0; 99; 97; 116; 2; 0])
             example_engine).1 = true /\
  CustomHashMap.entries
    (m_invertedIndex
       (loadIndex (index_file_world [3; 0; 0; 0; 99; 97; 116; 2; 0])
                  example_engine).2) =
  [([99; 97; 116], [0; 0])] /\
  (loadIndex (index_file_world [3; 0; 0; 0; 99; 97; 116; 2; 0; 0; 0; 129])
             example_engine).1 = true /\
  CustomHashMap.entries
    (m_invertedIndex
       (loadIndex (index_file_world [3; 0; 0; 0; 99; 97; 116; 2; 0; 0; 0; 129])
                  example_engine).2) =
  [([99; 97; 116], [129; 0])].
Proof. repeat split; vm_compute; reflexivity. Qed.

(** *** Content verification *)

Lemma is_prefix_app t after : Std.is_prefix t (t ++ after) = true.
Proof.
  induction t as [|c t IH]; [reflexivity|].
  simpl. rewrite Z.eqb_refl, IH. reflexivity.
Qed.

Lemma contains_infix before t after :
  Std.contains (before ++ t ++ after) t = true.
Proof.
  induction before as [|c before IH].
  - cbn [app]. pose proof (is_prefix_app t after) as Hpre.
    destruct (t ++ after); simpl; rewrite Hpre; reflexivity.
  - cbn [app Std.contains]. rewrite IH. apply orb_true_r.
Qed.

Lemma contains_token s t :
  t ∈ tokenize s -> Std.contains (toLowerCase s) t = true.
Proof.
  unfold tokenize, toLowerCase. intros Hin.
  apply tokenize_loop_infix in Hin as [Hin|(pre & token & post & -> & Heq)];
    [inversion Hin|].
  rewrite app_nil_l in Heq. rewrite Heq, !codesToString_app.
  apply contains_infix.
Qed.

(** X15.  Content verification never rejects a document for terms
    that the tokenizer finds in it: if the file of [docId] can be read and
    every one of the (at least one) required terms is among the terms of
    its content, [verifyRequiredTermsInDocument] returns [true].  A file
    that cannot be opened, or is empty, is always rejected. *)
Theorem verifyRequiredTermsInDocument_tokens (w : World) (e : t)
  (docId : Z) (terms : list (list Z)) :
  (forall content,
     files w !! getDocumentPath e docId = Some content ->
     terms <> [] ->
     (forall term, term ∈ terms -> term ∈ tokenize content) ->
     verifyRequiredTermsInDocument w e docId terms = true) /\
  (readFileContent w (getDocumentPath e docId) = [] ->
   verifyRequiredTermsInDocument w e docId terms = false).
Proof.
  unfold verifyRequiredTermsInDocument, readFileContent. split.
  - intros content Hfile Hne Hterms. rewrite Hfile. cbn [default].
    destruct content as [|c content].
    { destruct terms as [|term terms]; [congruence|].
      specialize (Hterms term ltac:(left)). inversion Hterms. }
    unfold id. apply forallb_forall. intros term Hin.
    apply contains_token, Hterms, list_elem_of_In, Hin.
  - intros ->. reflexivity.
Qed.

(** *** Parsing a boolean query *)

Lemma toLowerCase_term t : is_term t -> toLowerCase t = t.
Proof.
  intros (token & _ & Hall & ->). unfold toLowerCase.
  rewrite stringToCodes_term by exact Hall. f_equal.
  induction Hall as [|c token [_ Hfix] Hall IH]; [reflexivity|].
  simpl. rewrite Hfix, IH. reflexivity.
Qed.

Definition query_terms (query : BooleanQuery) : list (list Z) :=
  requiredTerms query ++ excludedTerms query ++ optionalTerms query.

Lemma tokenize_is_term s : Forall is_term (tokenize s).
Proof. apply tokenize_loop_terms; constructor. Qed.

Lemma parse_token_terms query token :
  Forall is_term (query_terms query) ->
  Forall is_term (query_terms (parse_token query token)) /\
  (length (query_terms (parse_token query token)) <=
   S (length (query_terms query)))%nat.
Proof.
  unfold query_terms. intros Hall.
  apply Forall_app in Hall as [Hreq Hall].
  apply Forall_app in Hall as [Hexc Hopt].
  unfold parse_token.
  destruct (match token with
            | c :: (_ :: _) as rawWord =>
                if (c =? 43) || (c =? 45) then (c, rawWord) else (32, token)
            | _ => (32, token)
            end) as [prefix rawWord].
  pose proof (tokenize_is_term rawWord) as Hraw.
  destruct (tokenize rawWord) as [|term rest].
  { split; [|lia]. rewrite !Forall_app. auto. }
  apply Forall_cons in Hraw as [Hterm _].
  destruct (prefix =? 43); [|destruct (prefix =? 45)]; cbn [requiredTerms
    excludedTerms optionalTerms]; rewrite !Forall_app, !length_app;
    cbn [length]; (split; [|lia]); repeat split; auto;
    apply Forall_app; split; auto.
Qed.

(** X16.  Every term of a parsed boolean query is a term of the
    analyzer: not empty, left unchanged by [toLowerCase], and tokenized to
    itself; and a query has at most one term per whitespace-separated
    word. *)
Theorem parseBooleanQuery_terms (queryStr : list Z) :
  Forall (fun term =>
            term <> [] /\ toLowerCase term = term /\ tokenize term = [term])
         (requiredTerms (parseBooleanQuery queryStr) ++
          excludedTerms (parseBooleanQuery queryStr) ++
          optionalTerms (parseBooleanQuery queryStr)) /\
  (length (requiredTerms (parseBooleanQuery queryStr) ++
           excludedTerms (parseBooleanQuery queryStr) ++
           optionalTerms (parseBooleanQuery queryStr)) <=
   length (Std.split_words queryStr []))%nat.
Proof.
  unfold parseBooleanQuery.
  assert (forall words query,
            Forall is_term (query_terms query) ->
            Forall is_term (query_terms (foldl parse_token query words)) /\
            (length (query_terms (foldl parse_token query words)) <=
             length (query_terms query) + length words)%nat) as Hfold.
  { induction words as [|word words IH]; intros query Hall; simpl.
    - split; [exact Hall|lia].
    - destruct (parse_token_terms query word Hall) as [Hall' Hlen].
      destruct (IH _ Hall') as [Hall'' Hlen'']. split; [exact Hall''|lia]. }
  destruct (Hfold (Std.split_words queryStr [])
              {| requiredTerms := []; excludedTerms := []; optionalTerms := [] |}
              ltac:(constructor)) as [Hall Hlen].
  split; [|exact Hlen].
  eapply Forall_impl; [exact Hall|]. intros term Hterm. simpl.
  split; [apply is_term_nonempty, Hterm|].
  split; [apply toLowerCase_term, Hterm|apply tokenize_term, Hterm].
Qed.

(** *** What saving and loading do to the files and to the engine *)

(** X17.  [saveIndex] succeeds exactly when the index file can be
    opened for writing; when it fails nothing is written; it writes no file
    but its three; and it reports success even when the lengths file cannot
    be written, in which case that file keeps its old content. *)
Theorem saveIndex_outcome (w : World) (e : t) :
  (saveIndex w e).1 = writable w (invIndexPath (m_config e)) /\
  ((saveIndex w e).1 = false -> (saveIndex w e).2 = w) /\
  (forall path,
     path <> invIndexPath (m_config e) ->
     path <> docLengthsPath (m_config e) ->
     path <> docNamesPath (m_config e) ->
     files (saveIndex w e).2 !! path = files w !! path) /\
  (writable w (docLengthsPath (m_config e)) = false ->
   docLengthsPath (m_config e) <> invIndexPath (m_config e) ->
   docLengthsPath (m_config e) <> docNamesPath (m_config e) ->
   files (saveIndex w e).2 !! docLengthsPath (m_config e) =
   files w !! docLengthsPath (m_config e)).
Proof.
  unfold saveIndex.
  destruct (writable w (invIndexPath (m_config e))) eqn:Hinv; cbn [negb fst snd].
  2:{ repeat split; auto. }
  split; [reflexivity|]. split; [discriminate|]. split.
  - intros path H1 H2 H3.
    rewrite files_write_file_if by exact H3.
    rewrite files_write_file_if by exact H2.
    apply files_write_file_ne, H1.
  - intros Hlen H1 H3.
    rewrite files_write_file_if by exact H3.
    cbn [writable write_file]. rewrite Hlen.
    apply files_write_file_ne, H1.
Qed.

(** X18.  [loadIndex] succeeds exactly when the index file and the
    lengths file can be opened, whatever they hold; on success the number of
    documents is the number of lengths read and the configuration is kept;
    without an index file the engine is left as it was; with an index file
    but no lengths file the load fails although the inverted index has
    already been replaced by what the index file holds. *)
Theorem loadIndex_outcome (w : World) (e : t) :
  ((loadIndex w e).1 = true <->
   is_Some (files w !! invIndexPath (m_config e)) /\
   is_Some (files w !! docLengthsPath (m_config e))) /\
  ((loadIndex w e).1 = true ->
   m_totalDocsCount (loadIndex w e).2 =
   Z.of_nat (CustomHashMap.size (m_docLengths (loadIndex w e).2)) /\
   m_config (loadIndex w e).2 = m_config e) /\
  (files w !! invIndexPath (m_config e) = None -> (loadIndex w e).2 = e) /\
  (forall content,
     files w !! invIndexPath (m_config e) = Some content ->
     files w !! docLengthsPath (m_config e) = None ->
     (loadIndex w e).1 = false /\
     m_invertedIndex (loadIndex w e).2 =
     load_records (indeterminate w) (Std.open content) CustomHashMap.empty).
Proof.
  unfold loadIndex, loadIndexMetadata.
  destruct (files w !! invIndexPath (m_config e)) as [content|]; cbn [m_config].
  - destruct (files w !! docLengthsPath (m_config e)) as [lengths|];
      cbn [fst snd m_totalDocsCount m_docLengths m_config m_invertedIndex].
    + split; [split; [intros _; split; eauto|reflexivity]|].
      split; [intros _; split; reflexivity|].
      split; [discriminate|]. intros content' _ Hnone. discriminate.
    + split; [split; [discriminate|intros [_ [x Hx]]; discriminate]|].
      split; [discriminate|]. split; [discriminate|].
      intros content' [= <-] _. split; reflexivity.
  - cbn [fst snd].
    split; [split; [discriminate|intros [[x Hx] _]; discriminate]|].
    split; [discriminate|]. split; [reflexivity|].
    intros content' Hsome. discriminate.
Qed.

(** *** Which documents get a score *)

(** A document with a stored length other than 0. *)
Definition has_length (e : t) (d : Z) : Prop :=
  exists len, CustomHashMap.find (m_docLengths e) d = Some len /\ len <> 0.

Lemma score_postings_scored e idf postings : forall scores d,
  is_Some (score_postings e idf postings scores !! d) <->
  is_Some (scores !! d) \/ (d ∈ map fst postings /\ has_length e d).
Proof.
  induction postings as [|[docId termFreq] postings IH]; intros scores d.
  - simpl. split; [auto|]. intros [Hs|[Hin _]]; [exact Hs|inversion Hin].
  - cbn [score_postings map fst].
    assert (forall scores',
              (is_Some (scores' !! d) <->
               is_Some (scores !! d) \/ (d = docId /\ has_length e d)) ->
              (is_Some (score_postings e idf postings scores' !! d) <->
               is_Some (scores !! d) \/
               (d ∈ docId :: map fst postings /\ has_length e d))) as Hstep.
    { intros scores' Hs'. rewrite IH, Hs', elem_of_cons. tauto. }
    destruct (CustomHashMap.find (m_docLengths e) docId) as [len|] eqn:Hlen.
    + destruct (Z.eqb_spec len 0) as [->|Hnz].
      * apply Hstep. split; [auto|]. intros [Hs|[-> (len & Hf & Hn)]]; [exact Hs|].
        rewrite Hlen in Hf. congruence.
      * apply Hstep. rewrite lookup_insert_is_Some. split.
        -- intros [->|[_ Hs]]; [|auto]. right. split; [reflexivity|].
           exists len. auto.
        -- intros [Hs|[-> _]]; [|auto].
           destruct (decide (docId = d)); auto.
    + apply Hstep. split; [auto|]. intros [Hs|[-> (len & Hf & Hn)]]; [exact Hs|].
      rewrite Hlen in Hf. congruence.
Qed.

Lemma elem_of_posting_docIds (postings : list (Z * Z)) : forall (docIds : gset Z) d,
  d ∈ foldl (fun docIds posting => {[posting.1]} ∪ docIds) docIds postings <->
  d ∈ docIds \/ d ∈ map fst postings.
Proof.
  induction postings as [|p postings IH]; intros docIds d; simpl.
  - split; [auto|]. intros [Hin|Hin]; [exact Hin|inversion Hin].
  - rewrite IH, elem_of_cons, elem_of_union, elem_of_singleton. tauto.
Qed.

Lemma score_terms_scored std_log e queryTerms : forall scores result d,
  score_terms std_log e queryTerms scores = Ok result ->
  (is_Some (result !! d) <->
   is_Some (scores !! d) \/
   exists term docs,
     term ∈ queryTerms /\ getDocumentsForTerm e term = Ok docs /\
     d ∈ docs /\ has_length e d).
Proof.
  induction queryTerms as [|term queryTerms IH]; intros scores result d.
  - simpl. intros [= <-]. split; [auto|].
    intros [Hs|(term & docs & Hin & _)]; [exact Hs|inversion Hin].
  - cbn [score_terms].
    assert (forall scores' docs,
      getDocumentsForTerm e term = Ok docs ->
      (is_Some (scores' !! d) <->
       is_Some (scores !! d) \/ (d ∈ docs /\ has_length e d)) ->
      score_terms std_log e queryTerms scores' = Ok result ->
      (is_Some (result !! d) <->
       is_Some (scores !! d) \/
       exists term' docs',
         term' ∈ term :: queryTerms /\ getDocumentsForTerm e term' = Ok docs' /\
         d ∈ docs' /\ has_length e d)) as Hstep.
    { intros scores' docs Hdocs Hs' Hres.
      rewrite (IH _ _ d Hres), Hs'. split.
      - intros [[Hs|[Hin Hlen]]|(term' & docs' & Hin & Hd & Hdin & Hlen)].
        + auto.
        + right. exists term, docs. split; [left|]. auto.
        + right. exists term', docs'. split; [right; exact Hin|]. auto.
      - intros [Hs|(term' & docs' & Hin & Hd & Hdin & Hlen)]; [auto|].
        apply elem_of_cons in Hin as [->|Hin].
        + left. right. rewrite Hdocs in Hd. injection Hd as <-. auto.
        + right. exists term', docs'. auto. }
    unfold getDocumentsForTerm in Hstep.
    destruct (CustomHashMap.find (m_invertedIndex e) term) as [data|].
    + destruct (decompressPostingList data) as [postings|]; [|discriminate].
      cbn [mbind except_bind] in *.
      apply (Hstep _ _ eq_refl).
      rewrite score_postings_scored, elem_of_posting_docIds.
      rewrite elem_of_empty. tauto.
    + apply (Hstep _ _ eq_refl). rewrite elem_of_empty. tauto.
Qed.

(** X19.  The documents that [calculateTfIdfScores] gives a score are
    exactly those that occur in the posting list of some query term and
    have a stored length other than 0, whatever [std::log] returns. *)
Theorem calculateTfIdfScores_documents (std_log : float -> float) (e : t)
  (queryTerms : list (list Z)) (scores : gmap Z float) (d : Z) :
  calculateTfIdfScores std_log e queryTerms = Ok scores ->
  (is_Some (scores !! d) <->
   exists term docs len,
     term ∈ queryTerms /\ getDocumentsForTerm e term = Ok docs /\ d ∈ docs /\
     CustomHashMap.find (m_docLengths e) d = Some len /\ len <> 0).
Proof.
  unfold calculateTfIdfScores. intros Hscores.
  rewrite (score_terms_scored _ _ _ _ _ d Hscores), lookup_empty.
  split.
  - intros [[x Hx]|(term & docs & Hin & Hd & Hdin & len & Hf & Hn)];
      [discriminate|].
    exists term, docs, len. auto.
  - intros (term & docs & len & Hin & Hd & Hdin & Hf & Hn).
    right. exists term, docs. split; [exact Hin|]. split; [exact Hd|].
    split; [exact Hdin|]. exists len. auto.
Qed.

Lemma score_terms_known std_log e queryTerms : forall scores,
  score_terms std_log e queryTerms scores =
  score_terms std_log e
    (filter (fun term => CustomHashMap.count (m_invertedIndex e) term = true)
            queryTerms) scores.
Proof.
  induction queryTerms as [|term queryTerms IH]; intros scores; [reflexivity|].
  rewrite filter_cons.
  destruct (decide (CustomHashMap.count (m_invertedIndex e) term = true))
    as [Hcount|Hcount]; unfold CustomHashMap.count in Hcount;
    cbn [score_terms];
    destruct (CustomHashMap.find (m_invertedIndex e) term) as [data|];
    try congruence; try apply IH.
  destruct (decompressPostingList data); [|reflexivity].
  cbn [mbind except_bind]. apply IH.
Qed.

Lemma filter_known_none e (terms : list (list Z)) :
  (forall term, term ∈ terms ->
                CustomHashMap.find (m_invertedIndex e) term = None) ->
  filter (fun term => CustomHashMap.count (m_invertedIndex e) term = true)
         terms = [].
Proof.
  induction terms as [|term terms IH]; intros Hnone; [reflexivity|].
  rewrite filter_cons.
  destruct (decide (CustomHashMap.count (m_invertedIndex e) term = true))
    as [Hcount|_].
  { unfold CustomHashMap.count in Hcount.
    rewrite (Hnone term ltac:(left)) in Hcount. discriminate. }
  apply IH. intros term' Hin. apply Hnone. right. exact Hin.
Qed.

(** X20.  Query terms that the index does not hold have no effect on
    the scores; a TF-IDF query none of whose terms is in the index returns
    no document. *)
Theorem calculateTfIdfScores_ignores_unknown_terms (std_log : float -> float)
  (std_sort : forall A, (A -> A -> bool) -> list A -> list A) (e : t) :
  (forall queryTerms,
     calculateTfIdfScores std_log e queryTerms =
     calculateTfIdfScores std_log e
       (filter (fun term => CustomHashMap.count (m_invertedIndex e) term = true)
               queryTerms)) /\
  (forall queryStr,
     (forall term, term ∈ tokenize queryStr ->
                   CustomHashMap.find (m_invertedIndex e) term = None) ->
     tfIdfSearch std_log std_sort e queryStr = Ok []).
Proof.
  split.
  - intros queryTerms. apply score_terms_known.
  - intros queryStr Hnone. unfold tfIdfSearch.
    destruct queryStr as [|c queryStr]; [reflexivity|].
    destruct (tokenize (c :: queryStr)) as [|term terms] eqn:Htok; [reflexivity|].
    unfold calculateTfIdfScores. rewrite score_terms_known.
    rewrite (filter_known_none _ _ Hnone).
    cbn [score_terms mbind except_bind].
    destruct (decide (∅ = ∅)) as [_|Hne]; [reflexivity|congruence].
Qed.

(** *** What a build puts in the index *)

(** The entries of a corpus directory that are indexed, in enumeration
    order: the [i]-th of them (from 0) becomes document [i + 1]. *)
Definition documents (names : list (list Z)) : list (list Z) :=
  filter (fun name => extension name = Std.bytes ".txt") names.

(** The terms of a document: those of its content; none when the file cannot
    be opened. *)
Definition document_terms (w : World) (path : list Z) : list (list Z) :=
  match files w !! path with
  | Some content => tokenize content
  | None => []
  end.

Lemma elem_of_string_map_entries {V} (m : gmap (list Z) V) key value :
  (key, value) ∈ string_map_entries m <-> m !! key = Some value.
Proof.
  unfold string_map_entries. rewrite merge_sort_Permutation.
  apply elem_of_map_to_list.
Qed.

Lemma NoDup_string_map_entries {V} (m : gmap (list Z) V) :
  NoDup (map fst (string_map_entries m)).
Proof.
  unfold string_map_entries.
  rewrite (fmap_Permutation fst _ _
             (merge_sort_Permutation key_le (map_to_list m))).
  apply NoDup_fst_map_to_list.
Qed.

(** Counting the terms of a document: the loop of [processDocument] from
    the counts [tf]. *)
Definition count_from (tf : gmap (list Z) Z) (tokens : list (list Z))
  : gmap (list Z) Z :=
  foldl (fun tf token => <[token := wrap_int (default 0 (tf !! token) + 1)]> tf)
        tf tokens.

Lemma count_from_keys tokens : forall tf term,
  is_Some (count_from tf tokens !! term) <->
  is_Some (tf !! term) \/ term ∈ tokens.
Proof.
  induction tokens as [|token tokens IH]; intros tf term.
  - simpl. split; [auto|]. intros [Hs|Hin]; [exact Hs|inversion Hin].
  - cbn [count_from foldl]. fold (count_from (<[token := wrap_int (default 0 (tf !! token) + 1)]> tf) tokens).
    rewrite IH, lookup_insert_is_Some, elem_of_cons.
    destruct (decide (token = term)) as [->|Hne]; [tauto|].
    split; [intros [[?|[_ ?]]|?]; auto; congruence|].
    intros [?|[?|?]]; auto; congruence.
Qed.

Lemma count_from_int tokens : forall tf,
  (forall term f, tf !! term = Some f -> is_int f) ->
  forall term f, count_from tf tokens !! term = Some f -> is_int f.
Proof.
  induction tokens as [|token tokens IH]; intros tf Htf; [exact Htf|].
  cbn [count_from foldl]. apply IH. intros term f.
  destruct (decide (token = term)) as [->|Hne].
  - rewrite lookup_insert_eq. intros [= <-]. apply wrap_int_is_int.
  - rewrite lookup_insert_ne by exact Hne. apply Htf.
Qed.

Lemma count_from_bound tokens : forall tf n,
  0 <= n -> (forall term f, tf !! term = Some f -> 1 <= f <= n) ->
  n + Z.of_nat (length tokens) < 2 ^ 31 ->
  forall term f, count_from tf tokens !! term = Some f ->
                 1 <= f <= n + Z.of_nat (length tokens).
Proof.
  induction tokens as [|token tokens IH]; intros tf n Hn Htf Hbound.
  - intros term f Hf. apply Htf in Hf. simpl. lia.
  - cbn [count_from foldl length] in *. intros term f Hf.
    apply (IH _ (n + 1)) in Hf; [lia|lia| |lia].
    clear Hf. intros term' f'.
    destruct (decide (token = term')) as [->|Hne].
    + rewrite lookup_insert_eq. intros [= <-].
      destruct (tf !! term') as [g|] eqn:Hg; cbn [default]; unfold id.
      * apply Htf in Hg. rewrite wrap_int_small by (unfold is_int; lia). lia.
      * rewrite wrap_int_small by (unfold is_int; lia). lia.
    + rewrite lookup_insert_ne by exact Hne. intros Hf'. apply Htf in Hf'. lia.
Qed.

Lemma termFrequencies_processDocument w path docId :
  termFrequencies (processDocument w path docId) =
  count_from ∅ (document_terms w path).
Proof.
  unfold processDocument, document_terms.
  destruct (files w !! path); reflexivity.
Qed.

(** The postings of one document, appended term by term. *)
Lemma add_postings_loop (docId : Z) (l : list (list Z * Z)) :
  NoDup (map fst l) ->
  forall (tp : gmap (list Z) (list (Z * Z))) term,
    let tp' :=
      foldl (fun tp termFreq =>
               <[termFreq.1 :=
                   default [] (tp !! termFreq.1) ++ [(docId, termFreq.2)]]> tp)
            tp l in
    (forall f, (term, f) ∈ l ->
               tp' !! term = Some (default [] (tp !! term) ++ [(docId, f)])) /\
    (term ∉ map fst l -> tp' !! term = tp !! term).
Proof.
  induction l as [|[t f] l IH]; intros Hnd tp term; cbn [foldl].
  - cbv zeta. split; [intros f Hin; inversion Hin|reflexivity].
  - apply NoDup_cons in Hnd as [Ht Hnd]. cbn [fst snd map] in *.
    set (tp1 := <[t := default [] (tp !! t) ++ [(docId, f)]]> tp).
    destruct (IH Hnd tp1 term) as [Hin Hout]. cbv zeta in *. split.
    + intros f0 Hf0. apply elem_of_cons in Hf0 as [[= -> ->]|Hf0].
      * rewrite (Hout Ht). unfold tp1. apply lookup_insert_eq.
      * rewrite (Hin f0 Hf0). unfold tp1.
        assert (t <> term) as Hne.
        { intros ->. apply Ht. apply list_elem_of_fmap.
          exists (term, f0). split; [reflexivity|exact Hf0]. }
        rewrite lookup_insert_ne by exact Hne. reflexivity.
    + intros Hnin. apply not_elem_of_cons in Hnin as [Hne Hnin].
      rewrite (Hout Hnin). unfold tp1.
      rewrite lookup_insert_ne by congruence. reflexivity.
Qed.

Lemma add_postings_lookup (docId : Z) (tf : gmap (list Z) Z)
  (tp : gmap (list Z) (list (Z * Z))) (term : list Z) :
  add_postings docId tf tp !! term =
  match tf !! term with
  | Some f => Some (default [] (tp !! term) ++ [(docId, f)])
  | None => tp !! term
  end.
Proof.
  unfold add_postings.
  destruct (add_postings_loop docId (string_map_entries tf)
              (NoDup_string_map_entries tf) tp term) as [Hin Hout].
  cbv zeta in *.
  destruct (tf !! term) as [f|] eqn:Hf.
  - apply Hin, elem_of_string_map_entries, Hf.
  - apply Hout. intros Hk.
    apply list_elem_of_fmap in Hk as ([k f] & -> & Hk).
    apply elem_of_string_map_entries in Hk. simpl in Hf. congruence.
Qed.

(** The length stored for a document: the number of its terms, or whatever
    the uninitialised [wordCount] holds when the file cannot be opened. *)
Definition document_length (w : World) (path : list Z) : Z :=
  match files w !! path with
  | Some content => wrap_int (Z.of_nat (length (tokenize content)))
  | None => indeterminate_int w
  end.

Lemma processDocument_fields w path docId :
  filename (processDocument w path docId) = path_filename path /\
  wordCount (processDocument w path docId) = document_length w path.
Proof.
  unfold processDocument, document_length.
  destruct (files w !! path); split; reflexivity.
Qed.

(** What the loop over the directory has done once the documents [done]
    are processed. *)
Record indexed (w : World) (dir : list Z) (st : IndexingState)
  (done : list (list Z)) : Prop := {
  indexed_docId : ix_docId st = Z.of_nat (length done);
  indexed_tables : forall (i : nat) name,
    done !! i = Some name ->
    CustomHashMap.find (ix_docNames st) (Z.of_nat i + 1) =
      Some (path_filename (dir ++ Std.bytes "/" ++ name)) /\
    CustomHashMap.find (ix_docLengths st) (Z.of_nat i + 1) =
      Some (document_length w (dir ++ Std.bytes "/" ++ name));
  indexed_keys : forall key,
    is_Some (CustomHashMap.find (ix_docNames st) key) \/
    is_Some (CustomHashMap.find (ix_docLengths st) key) ->
    1 <= key <= Z.of_nat (length done);
  indexed_sizes :
    CustomHashMap.size (ix_docNames st) = length done /\
    CustomHashMap.size (ix_docLengths st) = length done;
  indexed_postings : forall term p,
    p ∈ default [] (ix_tempPostings st !! term) ->
    posting_in_range p /\ 1 <= p.1 /\
    ((forall name, name ∈ done ->
        Z.of_nat (length (document_terms w (dir ++ Std.bytes "/" ++ name)))
        < 2 ^ 31) -> 1 <= p.2);
  indexed_nonempty : forall term, ix_tempPostings st !! term <> Some [];
  indexed_docs : forall term d,
    d ∈ map fst (default [] (ix_tempPostings st !! term)) <->
    exists (i : nat) name,
      done !! i = Some name /\ d = Z.of_nat i + 1 /\
      term ∈ document_terms w (dir ++ Std.bytes "/" ++ name)
}.

Lemma indexed_start w dir :
  indexed w dir
    {| ix_docId := 0; ix_docNames := CustomHashMap.empty;
       ix_docLengths := CustomHashMap.empty; ix_tempPostings := ∅ |} [].
Proof.
  split; cbn [ix_docId ix_docNames ix_docLengths ix_tempPostings].
  - reflexivity.
  - intros i name Hi. discriminate.
  - intros key [[x Hx]|[x Hx]]; discriminate.
  - split; apply CustomHashMap.size_empty.
  - intros term p. rewrite lookup_empty. intros Hin. inversion Hin.
  - intros term. rewrite lookup_empty. discriminate.
  - intros term d. rewrite lookup_empty. split.
    + intros Hin. inversion Hin.
    + intros (i & name & Hi & _). discriminate.
Qed.

Lemma index_entry_indexed w dir st done name :
  indexed w dir st done ->
  extension name = Std.bytes ".txt" ->
  Z.of_nat (length done) + 1 < 2 ^ 31 ->
  indexed w dir (index_entry w dir st name) (done ++ [name]).
Proof.
  intros [Hid Htab Hkeys [Hsn Hsl] Hpost Hnonempty Hdocs] Hext Hbound.
  unfold index_entry.
  destruct (decide (extension name = Std.bytes ".txt")) as [_|Hne];
    [|congruence].
  set (path := dir ++ Std.bytes "/" ++ name).
  rewrite Hid. rewrite wrap_int_small by (unfold is_int; lia).
  set (docId := Z.of_nat (length done) + 1).
  destruct (processDocument_fields w path docId) as [-> ->].
  rewrite termFrequencies_processDocument.
  assert (forall (i : nat) name',
            (done ++ [name]) !! i = Some name' ->
            (done !! i = Some name' /\ Z.of_nat i + 1 <> docId) \/
            (i = length done /\ name' = name)) as Hlookup.
  { intros i name' Hi. apply lookup_app_Some in Hi as [Hi|[Hlen Hi]].
    - left. split; [exact Hi|]. apply lookup_lt_Some in Hi. unfold docId. lia.
    - right. destruct (i - length done)%nat as [|k] eqn:Hk; [|discriminate].
      injection Hi as <-. split; [lia|reflexivity]. }
  assert (CustomHashMap.count (ix_docNames st) docId = false /\
          CustomHashMap.count (ix_docLengths st) docId = false) as [Hcn Hcl].
  { unfold CustomHashMap.count. split.
    - destruct (CustomHashMap.find (ix_docNames st) docId) eqn:Hf; [|reflexivity].
      specialize (Hkeys docId ltac:(left; rewrite Hf; eauto)). unfold docId in Hkeys. lia.
    - destruct (CustomHashMap.find (ix_docLengths st) docId) eqn:Hf; [|reflexivity].
      specialize (Hkeys docId ltac:(right; rewrite Hf; eauto)). unfold docId in Hkeys. lia. }
  split; cbn [ix_docId ix_docNames ix_docLengths ix_tempPostings].
  - rewrite length_app. simpl. unfold docId. lia.
  - intros i name' Hi. rewrite !CustomHashMap.find_insert.
    destruct (Hlookup i name' Hi) as [[Hold Hne]|[-> ->]].
    + destruct (decide (docId = Z.of_nat i + 1)) as [Heq|_]; [congruence|].
      apply Htab, Hold.
    + destruct (decide (docId = Z.of_nat (length done) + 1)) as [_|Hne];
        [|unfold docId in Hne; congruence].
      split; reflexivity.
  - intros key. rewrite !CustomHashMap.find_insert, length_app. simpl.
    destruct (decide (docId = key)) as [<-|_].
    + intros _. unfold docId. lia.
    + intros Hsome. apply Hkeys in Hsome. lia.
  - rewrite !CustomHashMap.size_insert, Hcn, Hcl, Hsn, Hsl, length_app.
    simpl. split; lia.
  - intros term p. rewrite add_postings_lookup.
    assert (forall q, q ∈ default [] (ix_tempPostings st !! term) ->
              posting_in_range q /\ 1 <= q.1 /\
              ((forall name0, name0 ∈ done ++ [name] ->
                  Z.of_nat (length (document_terms w
                                      (dir ++ Std.bytes "/" ++ name0)))
                  < 2 ^ 31) -> 1 <= q.2)) as Hold.
    { intros q Hq. destruct (Hpost term q Hq) as (Hr & Hd & Hf).
      split; [exact Hr|]. split; [exact Hd|]. intros Hsmall. apply Hf.
      intros name0 Hin. apply Hsmall, elem_of_app. left. exact Hin. }
    destruct (count_from ∅ (document_terms w path) !! term) as [f|] eqn:Hf;
      [|apply Hold].
    cbn [default]. unfold id. intros Hin.
    apply elem_of_app in Hin as [Hin|Hin]; [apply Hold, Hin|].
    apply list_elem_of_singleton in Hin. subst p. cbn [fst snd].
    split; [split; cbn [fst snd]|split].
    + unfold is_int, docId. lia.
    + eapply count_from_int; [|exact Hf]. intros term' f'. rewrite lookup_empty.
      discriminate.
    + unfold docId. lia.
    + intros Hsmall.
      pose proof (count_from_bound (document_terms w path) ∅ 0 ltac:(lia)) as Hb.
      specialize (Hb ltac:(intros term' f'; rewrite lookup_empty; discriminate)).
      specialize (Hsmall name ltac:(apply elem_of_app; right; left)).
      fold path in Hsmall. specialize (Hb ltac:(lia) term f Hf). lia.
  - intros term. rewrite add_postings_lookup.
    destruct (count_from ∅ (document_terms w path) !! term); [|apply Hnonempty].
    intros [= Hnil]. apply app_eq_nil in Hnil as [_ Hnil]. discriminate.
  - intros term d. rewrite add_postings_lookup.
    pose proof (count_from_keys (document_terms w path) ∅ term) as Hkey.
    rewrite lookup_empty in Hkey.
    assert (is_Some (count_from ∅ (document_terms w path) !! term) <->
            term ∈ document_terms w path) as Hkey'.
    { rewrite Hkey. split; [intros [[x Hx]|Hin]; [discriminate|exact Hin]|auto]. }
    clear Hkey.
    assert (d ∈ map fst (default [] (ix_tempPostings st !! term)) \/
            (d = docId /\ term ∈ document_terms w path) <->
            exists (i : nat) name0,
              (done ++ [name]) !! i = Some name0 /\ d = Z.of_nat i + 1 /\
              term ∈ document_terms w (dir ++ Std.bytes "/" ++ name0)) as Hnew.
    { rewrite Hdocs. split.
      - intros [(i & name0 & Hi & Hd & Hin)|[Hd Hin]].
        + exists i, name0. split; [|auto].
          apply lookup_app_Some. left. exact Hi.
        + exists (length done), name. split; [|auto].
          apply lookup_app_Some. right. split; [lia|].
          rewrite Nat.sub_diag. reflexivity.
      - intros (i & name0 & Hi & Hd & Hin).
        destruct (Hlookup i name0 Hi) as [[Hold _]|[-> ->]].
        + left. exists i, name0. auto.
        + right. auto. }
    rewrite <- Hnew.
    destruct (count_from ∅ (document_terms w path) !! term) as [f|] eqn:Hf.
    + cbn [default]. unfold id. rewrite map_app, elem_of_app. cbn [map fst].
      rewrite list_elem_of_singleton.
      assert (term ∈ document_terms w path) by (apply Hkey'; eauto). tauto.
    + assert (~ term ∈ document_terms w path) as Hnin.
      { intros Hin. apply Hkey' in Hin as [x Hx]. discriminate. }
      tauto.
Qed.

Lemma index_loop_indexed w dir names : forall st done,
  indexed w dir st done ->
  Z.of_nat (length done) + Z.of_nat (length names) < 2 ^ 31 ->
  indexed w dir (foldl (index_entry w dir) st names) (done ++ documents names).
Proof.
  induction names as [|name names IH]; intros st done Hinv Hbound.
  - simpl. unfold documents. rewrite filter_nil, app_nil_r. exact Hinv.
  - cbn [foldl length] in *. unfold documents. rewrite filter_cons.
    fold (documents names).
    destruct (decide (extension name = Std.bytes ".txt")) as [Hext|Hext].
    + pose proof (index_entry_indexed w dir st done name Hinv Hext ltac:(lia))
        as Hinv'.
      apply IH in Hinv'; [|rewrite length_app; simpl; lia].
      rewrite <- app_assoc in Hinv'. exact Hinv'.
    + assert (index_entry w dir st name = st) as ->.
      { unfold index_entry.
        destruct (decide (extension name = Std.bytes ".txt")); [tauto|reflexivity]. }
      apply IH; [exact Hinv|lia].
Qed.

#[global] Instance pair_le_transitive : Transitive pair_le.
Proof. intros a b c. unfold pair_le. lia. Qed.

#[global] Instance pair_le_total : Total pair_le.
Proof. intros a b. unfold pair_le. lia. Qed.

Lemma sorted_docIds (postings : list (Z * Z)) :
  StronglySorted pair_le postings -> Sorted Z.le (map fst postings).
Proof.
  induction 1 as [|p postings Hs IH Hall]; [constructor|].
  cbn [map]. constructor; [exact IH|].
  destruct postings as [|q postings]; constructor.
  apply Forall_cons in Hall as [Hpq _]. unfold pair_le in Hpq. lia.
Qed.

(** Postings of documents [>= 1] with frequencies [>= 1] are compressed
    without an exception once sorted. *)
Lemma compress_sorted_postings (postings : list (Z * Z)) :
  Forall (fun p => posting_in_range p /\ 1 <= p.1 /\ 1 <= p.2) postings ->
  is_Ok (compressPostingList (merge_sort pair_le postings)).
Proof.
  intros Hall.
  assert (Forall (fun p => posting_in_range p /\ 1 <= p.1 /\ 1 <= p.2)
                 (merge_sort pair_le postings)) as Hsorted.
  { rewrite merge_sort_Permutation. exact Hall. }
  pose proof (StronglySorted_merge_sort pair_le postings) as Hs.
  apply sorted_docIds in Hs.
  destruct (merge_sort pair_le postings) as [|p P]; [exact I|].
  unfold compressPostingList. rewrite compress_loop_accepted; [exact I| |lia|].
  - eapply Forall_impl; [exact Hsorted|]. intros q (Hr & Hd & Hf). exact Hr.
  - apply accepted_from_sorted. split.
    + apply sorted_from_zero; [|exact Hs]. apply Forall_map.
      eapply Forall_impl; [exact Hsorted|]. intros q (Hr & Hd & Hf).
      simpl. lia.
    + eapply Forall_impl; [exact Hsorted|]. intros q (Hr & Hd & Hf). exact Hf.
Qed.

Lemma build_index_find terms : forall index index' term,
  NoDup (map fst terms) -> build_index terms index = Ok index' ->
  (forall postings,
     (term, postings) ∈ terms ->
     exists compressed,
       compressPostingList (merge_sort pair_le postings) = Ok compressed /\
       CustomHashMap.find index' term = Some compressed) /\
  (term ∉ map fst terms ->
   CustomHashMap.find index' term = CustomHashMap.find index term).
Proof.
  induction terms as [|[t postings0] terms IH]; intros index index' term Hnd.
  - simpl. intros [= <-]. split; [intros postings Hin; inversion Hin|reflexivity].
  - apply NoDup_cons in Hnd as [Ht Hnd]. cbn [build_index map fst] in *.
    destruct (compressPostingList (merge_sort pair_le postings0))
      as [compressed0|] eqn:Hc; [|discriminate].
    cbn [mbind except_bind]. intros Hbuild.
    destruct (IH _ _ term Hnd Hbuild) as [Hin Hout]. split.
    + intros postings Hp. apply elem_of_cons in Hp as [[= -> ->]|Hp].
      * exists compressed0. split; [exact Hc|].
        rewrite (Hout Ht), CustomHashMap.find_insert.
        destruct (decide (t = t)); congruence.
      * apply Hin, Hp.
    + intros Hnin. apply not_elem_of_cons in Hnin as [Hne Hnin].
      rewrite (Hout Hnin), CustomHashMap.find_insert.
      destruct (decide (t = term)); congruence.
Qed.

Lemma build_index_succeeds terms : forall index,
  (forall term postings,
     (term, postings) ∈ terms ->
     is_Ok (compressPostingList (merge_sort pair_le postings))) ->
  is_Ok (build_index terms index).
Proof.
  induction terms as [|[t postings0] terms IH]; intros index Hall; [exact I|].
  cbn [build_index].
  pose proof (Hall t postings0 ltac:(left)) as Hc.
  destruct (compressPostingList (merge_sort pair_le postings0)); [|destruct Hc].
  cbn [mbind except_bind]. apply IH.
  intros term postings Hin. apply (Hall term postings). right. exact Hin.
Qed.

(** The state that a completed build returns, in terms of the loop's final
    state. *)
Lemma indexDocuments_indexed w e names built :
  directory w (dataDir (m_config e)) = Some names ->
  Z.of_nat (length names) < 2 ^ 31 ->
  indexDocuments w e = Ok built ->
  exists st,
    indexed w (dataDir (m_config e)) st (documents names) /\
    build_index (string_map_entries (ix_tempPostings st)) CustomHashMap.empty =
      Ok (m_invertedIndex built) /\
    m_docNames built = ix_docNames st /\
    m_docLengths built = ix_docLengths st /\
    m_totalDocsCount built = ix_docId st /\
    m_config built = m_config e.
Proof.
  intros Hdir Hbound. unfold indexDocuments. rewrite Hdir.
  set (st := foldl _ _ names).
  pose proof (index_loop_indexed w (dataDir (m_config e)) names _ []
                (indexed_start w _) ltac:(simpl; lia)) as Hinv.
  fold st in Hinv. rewrite app_nil_l in Hinv.
  destruct (build_index _ _) as [index|] eqn:Hbuild; [|discriminate].
  cbn [mbind except_bind]. intros [= <-]. exists st.
  split; [exact Hinv|]. split; [exact Hbuild|]. repeat split.
Qed.

(** The docId set of a term after a build. *)
Lemma getDocumentsForTerm_built w e names built term :
  directory w (dataDir (m_config e)) = Some names ->
  Z.of_nat (length names) < 2 ^ 31 ->
  indexDocuments w e = Ok built ->
  exists docs,
    getDocumentsForTerm built term = Ok docs /\
    forall docId,
      docId ∈ docs <->
      exists (i : nat) name,
        documents names !! i = Some name /\ docId = Z.of_nat i + 1 /\
        term ∈ document_terms w (dataDir (m_config e) ++ Std.bytes "/" ++ name).
Proof.
  intros Hdir Hbound Hbuilt.
  destruct (indexDocuments_indexed w e names built Hdir Hbound Hbuilt)
    as (st & Hinv & Hbuild & _).
  destruct (build_index_find _ _ _ term (NoDup_string_map_entries _) Hbuild)
    as [Hin Hout].
  pose proof (indexed_docs _ _ _ _ Hinv term) as Hdocs.
  pose proof (indexed_postings _ _ _ _ Hinv term) as Hpost.
  unfold getDocumentsForTerm.
  destruct (ix_tempPostings st !! term) as [postings|] eqn:Hterm.
  - destruct (Hin postings ltac:(apply elem_of_string_map_entries, Hterm))
      as (compressed & Hc & Hfind).
    rewrite Hfind.
    assert (Forall posting_in_range (merge_sort pair_le postings)) as Hrange.
    { rewrite merge_sort_Permutation. apply Forall_forall.
      intros p Hp. apply Hpost, Hp. }
    rewrite (compress_Ok_decompress _ _ Hrange Hc). cbn [mbind except_bind].
    eexists. split; [reflexivity|]. intros docId.
    rewrite elem_of_posting_docIds, elem_of_empty, <- Hdocs.
    cbn [default]. unfold id.
    change (map fst (merge_sort pair_le postings))
      with (fst <$> merge_sort pair_le postings).
    rewrite (fmap_Permutation fst _ _ (merge_sort_Permutation pair_le postings)).
    tauto.
  - rewrite Hout, CustomHashMap.find_empty.
    2:{ intros Hk. apply list_elem_of_fmap in Hk as ([k postings] & -> & Hk).
        apply elem_of_string_map_entries in Hk. simpl in Hterm. congruence. }
    exists ∅. split; [reflexivity|]. intros docId.
    rewrite <- Hdocs. cbn [default map]. rewrite elem_of_empty.
    split; [tauto|]. intros Hnil. inversion Hnil.
Qed.

(** X21.  After a completed build, the posting list of a term
    holds exactly the documents whose content has the term: document
    [i + 1] is the [i]-th entry (from 0) of the corpus directory with
    extension [.txt], and a file that cannot be opened has no terms.  The
    index has no entry for a term exactly when no document has it. *)
Theorem indexDocuments_term_documents (w : World) (e : t)
  (names : list (list Z)) (built : t) (term : list Z) :
  directory w (dataDir (m_config e)) = Some names ->
  Z.of_nat (length names) < 2 ^ 31 ->
  indexDocuments w e = Ok built ->
  (exists docs,
     getDocumentsForTerm built term = Ok docs /\
     forall docId,
       docId ∈ docs <->
       exists (i : nat) name,
         documents names !! i = Some name /\ docId = Z.of_nat i + 1 /\
         term ∈ document_terms w (dataDir (m_config e) ++ Std.bytes "/" ++ name)) /\
  (CustomHashMap.find (m_invertedIndex built) term = None <->
   forall name,
     name ∈ documents names ->
     term ∉ document_terms w (dataDir (m_config e) ++ Std.bytes "/" ++ name)).
Proof.
  intros Hdir Hbound Hbuilt.
  split; [apply getDocumentsForTerm_built; assumption|].
  destruct (indexDocuments_indexed w e names built Hdir Hbound Hbuilt)
    as (st & Hinv & Hbuild & _).
  destruct (build_index_find _ _ _ term (NoDup_string_map_entries _) Hbuild)
    as [Hin Hout].
  pose proof (indexed_docs _ _ _ _ Hinv term) as Hdocs.
  pose proof (indexed_nonempty _ _ _ _ Hinv term) as Hnonempty.
  destruct (ix_tempPostings st !! term) as [postings|] eqn:Hterm.
  - destruct (Hin postings ltac:(apply elem_of_string_map_entries, Hterm))
      as (compressed & _ & Hfind).
    rewrite Hfind. split; [discriminate|]. intros Hnone. exfalso.
    destruct postings as [|[d f] postings]; [congruence|].
    destruct (Hdocs d) as [(i & name & Hi & _ & Hhas) _]; [left|].
    apply (Hnone name); [|exact Hhas].
    apply list_elem_of_lookup. exists i. exact Hi.
  - rewrite Hout, CustomHashMap.find_empty.
    2:{ intros Hk. apply list_elem_of_fmap in Hk as ([k postings] & -> & Hk).
        apply elem_of_string_map_entries in Hk. simpl in Hterm. congruence. }
    split; [|reflexivity]. intros _ name Hname Hhas.
    apply list_elem_of_lookup in Hname as [i Hi].
    destruct (Hdocs (Z.of_nat i + 1)) as [_ Hback].
    specialize (Hback ltac:(exists i, name; auto)). inversion Hback.
Qed.

(** X22.  After a completed build the number of documents is
    the number of [.txt] entries of the corpus directory; document [i + 1]
    has the file name of the [i]-th of them and, as its length, the number
    of terms of its content; no other docId is known; the configuration is
    unchanged. *)
Theorem indexDocuments_document_table (w : World) (e : t)
  (names : list (list Z)) (built : t) :
  directory w (dataDir (m_config e)) = Some names ->
  Z.of_nat (length names) < 2 ^ 31 ->
  indexDocuments w e = Ok built ->
  m_totalDocsCount built = Z.of_nat (length (documents names)) /\
  CustomHashMap.size (m_docNames built) = length (documents names) /\
  CustomHashMap.size (m_docLengths built) = length (documents names) /\
  (forall (i : nat) name,
     documents names !! i = Some name ->
     CustomHashMap.find (m_docNames built) (Z.of_nat i + 1) =
       Some (path_filename (dataDir (m_config e) ++ Std.bytes "/" ++ name)) /\
     CustomHashMap.find (m_docLengths built) (Z.of_nat i + 1) =
       Some (document_length w (dataDir (m_config e) ++ Std.bytes "/" ++ name))) /\
  (forall docId,
     ~ 1 <= docId <= Z.of_nat (length (documents names)) ->
     CustomHashMap.find (m_docNames built) docId = None /\
     CustomHashMap.find (m_docLengths built) docId = None) /\
  m_config built = m_config e.
Proof.
  intros Hdir Hbound Hbuilt.
  destruct (indexDocuments_indexed w e names built Hdir Hbound Hbuilt)
    as (st & [Hid Htab Hkeys [Hsn Hsl] _ _ _] & _ & -> & -> & -> & Hconfig).
  split; [exact Hid|]. split; [exact Hsn|]. split; [exact Hsl|].
  split; [exact Htab|]. split; [|exact Hconfig].
  intros docId Hout. split.
  - destruct (CustomHashMap.find (ix_docNames st) docId) eqn:Hf; [|reflexivity].
    exfalso. apply Hout, Hkeys. left. rewrite Hf. eauto.
  - destruct (CustomHashMap.find (ix_docLengths st) docId) eqn:Hf; [|reflexivity].
    exfalso. apply Hout, Hkeys. right. rewrite Hf. eauto.
Qed.

(** X23.  [indexDocuments] completes without an exception on
    every corpus directory with fewer than 2^31 entries whose documents
    have fewer than 2^31 terms each. *)
Theorem indexDocuments_succeeds (w : World) (e : t) (names : list (list Z)) :
  directory w (dataDir (m_config e)) = Some names ->
  Z.of_nat (length names) < 2 ^ 31 ->
  Forall (fun name =>
            Z.of_nat (length (document_terms
                                w (dataDir (m_config e) ++ Std.bytes "/" ++ name)))
            < 2 ^ 31) (documents names) ->
  is_Ok (indexDocuments w e).
Proof.
  intros Hdir Hbound Hsmall. unfold indexDocuments. rewrite Hdir.
  set (st := foldl _ _ names).
  pose proof (index_loop_indexed w (dataDir (m_config e)) names _ []
                (indexed_start w _) ltac:(simpl; lia)) as Hinv.
  fold st in Hinv. rewrite app_nil_l in Hinv.
  pose proof (build_index_succeeds (string_map_entries (ix_tempPostings st))
                CustomHashMap.empty) as Hok.
  destruct (build_index _ _); [exact I|]. apply Hok.
  intros term postings Hin. apply elem_of_string_map_entries in Hin.
  apply compress_sorted_postings. apply Forall_forall. intros p Hp.
  destruct (indexed_postings _ _ _ _ Hinv term p) as (Hr & Hd & Hf).
  { rewrite Hin. exact Hp. }
  split; [exact Hr|]. split; [exact Hd|]. apply Hf.
  intros name Hname. rewrite Forall_forall in Hsmall. apply Hsmall, Hname.
Qed.

(** *** Boolean queries on a freshly built index *)

(** Document [docId] of the corpus has the term. *)
Definition document_has (w : World) (dir : list Z) (names : list (list Z))
  (term : list Z) (docId : Z) : Prop :=
  exists (i : nat) name,
    documents names !! i = Some name /\ docId = Z.of_nat i + 1 /\
    term ∈ document_terms w (dir ++ Std.bytes "/" ++ name).

Lemma indexDocuments_decodable w e names built :
  directory w (dataDir (m_config e)) = Some names ->
  Z.of_nat (length names) < 2 ^ 31 ->
  indexDocuments w e = Ok built ->
  index_decodable built.
Proof.
  intros Hdir Hbound Hbuilt term data Hfind.
  destruct (getDocumentsForTerm_built w e names built term Hdir Hbound Hbuilt)
    as (docs & Hdocs & _).
  unfold getDocumentsForTerm in Hdocs. rewrite Hfind in Hdocs.
  destruct (decompressPostingList data); [exact I|discriminate].
Qed.

Lemma termDocs_built w e names built term d :
  directory w (dataDir (m_config e)) = Some names ->
  Z.of_nat (length names) < 2 ^ 31 ->
  indexDocuments w e = Ok built ->
  d ∈ termDocs built term <->
  document_has w (dataDir (m_config e)) names term d.
Proof.
  intros Hdir Hbound Hbuilt.
  destruct (getDocumentsForTerm_built w e names built term Hdir Hbound Hbuilt)
    as (docs & Hdocs & Hmem).
  unfold termDocs. rewrite Hdocs. apply Hmem.
Qed.

Lemma executeBooleanQuery_decodable w e query :
  index_decodable e ->
  executeBooleanQuery w e query =
  Ok (if hasRequiredTerms query
      then filter (fun docId =>
                     verifyRequiredTermsInDocument w e docId
                       (requiredTerms query) = true)
                  (set_elements (spec_candidates e query))
      else set_elements (spec_candidates e query)).
Proof.
  intros Hdec.
  unfold executeBooleanQuery, spec_candidates, hasRequiredTerms,
    hasOptionalTerms.
  rewrite ?union_loop_decodable by exact Hdec.
  rewrite ?(union_empty_l_L (⋃ _)).
  destruct (requiredTerms query) as [|term terms] eqn:Hreq.
  - cbn [mbind except_bind negb andb].
    destruct (optionalTerms query) as [|oterm oterms] eqn:Hopt.
    + cbn [mbind except_bind negb andb].
      replace (⋃ (termDocs e <$> []) ∖ ⋃ (termDocs e <$> excludedTerms query))
        with (∅ : gset Z) by set_solver.
      rewrite set_elements_empty. reflexivity.
    + cbn [mbind except_bind negb andb].
      rewrite union_loop_decodable by exact Hdec.
      rewrite (union_empty_l_L (⋃ _)).
      cbn [mbind except_bind negb andb].
      destruct (excludedTerms query) as [|xterm xterms] eqn:Hexc.
      * cbn [mbind except_bind].
        change (⋃ (termDocs e <$> [])) with (∅ : gset Z).
        rewrite (difference_empty_L (⋃ (termDocs e <$> oterm :: oterms))).
        reflexivity.
      * reflexivity.
  - rewrite required_loop_first by exact Hdec.
    cbn [mbind except_bind]. cbv zeta.
    set (candidates :=
           foldl (fun candidates term' => candidates ∩ termDocs e term')
                 (termDocs e term) terms).
    destruct (decide (candidates = ∅)) as [Hempty|Hne].
    + rewrite Hempty.
      replace (∅ ∖ ⋃ (termDocs e <$> excludedTerms query)) with (∅ : gset Z)
        by set_solver.
      rewrite set_elements_empty. reflexivity.
    + cbn [negb andb mbind except_bind].
      destruct (excludedTerms query) as [|xterm xterms] eqn:Hexc.
      * cbn [mbind except_bind].
        change (⋃ (termDocs e <$> [])) with (∅ : gset Z).
        rewrite (difference_empty_L candidates).
        reflexivity.
      * reflexivity.
Qed.

Lemma elem_of_foldl_intersection e terms : forall (candidates : gset Z) d,
  d ∈ foldl (fun candidates term' => candidates ∩ termDocs e term')
            candidates terms <->
  d ∈ candidates /\ forall term, term ∈ terms -> d ∈ termDocs e term.
Proof.
  induction terms as [|term terms IH]; intros candidates d; simpl.
  - split; [intros Hd; split; [exact Hd|]|tauto].
    intros term Hin. inversion Hin.
  - rewrite IH, elem_of_intersection. split.
    + intros [[Hc Ht] Hall]. split; [exact Hc|].
      intros term' Hin. apply elem_of_cons in Hin as [->|Hin]; auto.
    + intros [Hc Hall]. split; [split; [exact Hc|apply Hall; left]|].
      intros term' Hin. apply Hall. right. exact Hin.
Qed.

Lemma elem_of_union_termDocs e (terms : list (list Z)) d :
  d ∈ ⋃ (termDocs e <$> terms) <->
  exists term, term ∈ terms /\ d ∈ termDocs e term.
Proof.
  rewrite elem_of_union_list. split.
  - intros (X & HX & Hd). apply list_elem_of_fmap in HX as (term & -> & Hin).
    eauto.
  - intros (term & Hin & Hd). exists (termDocs e term). split; [|exact Hd].
    apply list_elem_of_fmap. eauto.
Qed.

Lemma elem_of_spec_candidates e query d :
  d ∈ spec_candidates e query <->
  match requiredTerms query with
  | [] => exists term, term ∈ optionalTerms query /\ d ∈ termDocs e term
  | _ => forall term, term ∈ requiredTerms query -> d ∈ termDocs e term
  end /\
  (forall term, term ∈ excludedTerms query -> d ∉ termDocs e term).
Proof.
  unfold spec_candidates. rewrite elem_of_difference.
  assert (d ∉ ⋃ (termDocs e <$> excludedTerms query) <->
          forall term, term ∈ excludedTerms query -> d ∉ termDocs e term) as ->.
  { rewrite elem_of_union_termDocs. split.
    - intros Hnone term Hin Hd. apply Hnone. eauto.
    - intros Hall (term & Hin & Hd). exact (Hall term Hin Hd). }
  destruct (requiredTerms query) as [|term terms].
  - rewrite elem_of_union_termDocs. reflexivity.
  - rewrite elem_of_foldl_intersection. split.
    + intros [[Hfirst Hrest] Hexc]. split; [|exact Hexc].
      intros term' Hin. apply elem_of_cons in Hin as [->|Hin]; auto.
    + intros [Hall Hexc]. split; [|exact Hexc].
      split; [apply Hall; left|]. intros term' Hin. apply Hall. right. exact Hin.
Qed.

Lemma filter_all {A} (P : A -> Prop) `{forall x, Decision (P x)} (l : list A) :
  Forall P l -> filter P l = l.
Proof.
  induction 1 as [|x l Hx Hall IH]; [reflexivity|].
  rewrite filter_cons. destruct (decide (P x)); [|tauto].
  rewrite IH. reflexivity.
Qed.

(** X24.  Boolean retrieval right after a build, on the corpus
    the build read, with file names that hold no [/]: the query returns, in
    ascending docId order, exactly the documents that have every required
    term when there are required terms (the optional terms are then
    ignored), otherwise those that have at least one optional term, and in
    both cases none of the excluded terms; where a document has a term when
    the term is among the terms of its content. *)
Theorem executeBooleanQuery_after_build (w : World) (e : t)
  (names : list (list Z)) (built : t) (query : BooleanQuery) :
  directory w (dataDir (m_config e)) = Some names ->
  Z.of_nat (length names) < 2 ^ 31 ->
  Forall (fun name => 47 ∉ name) (documents names) ->
  indexDocuments w e = Ok built ->
  exists result,
    executeBooleanQuery w built query = Ok result /\
    StronglySorted Z.lt result /\
    forall docId,
      docId ∈ result <->
      match requiredTerms query with
      | [] => exists term,
                term ∈ optionalTerms query /\
                document_has w (dataDir (m_config e)) names term docId
      | _ => forall term,
               term ∈ requiredTerms query ->
               document_has w (dataDir (m_config e)) names term docId
      end /\
      (forall term,
         term ∈ excludedTerms query ->
         ~ document_has w (dataDir (m_config e)) names term docId).
Proof.
  intros Hdir Hbound Hplain Hbuilt.
  pose proof (indexDocuments_decodable w e names built Hdir Hbound Hbuilt) as Hdec.
  assert (forall term d, d ∈ termDocs built term <->
            document_has w (dataDir (m_config e)) names term d) as Hdocs.
  { intros term d. apply termDocs_built; assumption. }
  assert (forall d, d ∈ spec_candidates built query <->
            match requiredTerms query with
            | [] => exists term,
                      term ∈ optionalTerms query /\
                      document_has w (dataDir (m_config e)) names term d
            | _ => forall term,
                     term ∈ requiredTerms query ->
                     document_has w (dataDir (m_config e)) names term d
            end /\
            (forall term,
               term ∈ excludedTerms query ->
               ~ document_has w (dataDir (m_config e)) names term d)) as Hcand.
  { intros d. rewrite elem_of_spec_candidates.
    assert ((forall term, term ∈ excludedTerms query -> d ∉ termDocs built term)
            <-> (forall term, term ∈ excludedTerms query ->
                   ~ document_has w (dataDir (m_config e)) names term d)) as ->.
    { split; intros Hall term Hin Hd; apply (Hall term Hin), Hdocs, Hd. }
    destruct (requiredTerms query) as [|term terms].
    - split; intros [(term & Hin & Hd) Hexc]; (split; [|exact Hexc]);
        exists term; (split; [exact Hin|]); apply Hdocs, Hd.
    - split; intros [Hall Hexc]; (split; [|exact Hexc]);
        intros term' Hin; apply Hdocs, Hall, Hin. }
  exists (set_elements (spec_candidates built query)).
  split; [|split; [apply set_elements_ascending|]].
  2:{ intros d. rewrite elem_of_set_elements. apply Hcand. }
  rewrite executeBooleanQuery_decodable by exact Hdec.
  unfold hasRequiredTerms.
  destruct (requiredTerms query) as [|term0 terms] eqn:Hreq; [reflexivity|].
  f_equal. apply filter_all. apply Forall_forall. intros d Hd.
  apply elem_of_set_elements, Hcand in Hd as [Hall _].
  destruct (indexDocuments_indexed w e names built Hdir Hbound Hbuilt)
    as (st & Hinv & _ & Hnames & _ & _ & Hconfig).
  destruct (Hall term0 ltac:(left)) as (i & name & Hi & -> & Hterm0).
  unfold document_terms in Hterm0.
  destruct (files w !! (dataDir (m_config e) ++ Std.bytes "/" ++ name))
    as [content|] eqn:Hfile; [|inversion Hterm0].
  assert (getDocumentPath built (Z.of_nat i + 1) =
          dataDir (m_config e) ++ Std.bytes "/" ++ name) as Hpath.
  { unfold getDocumentPath. rewrite Hnames, Hconfig.
    destruct (indexed_tables _ _ _ _ Hinv i name Hi) as [-> _].
    rewrite path_filename_document; [reflexivity|].
    rewrite Forall_forall in Hplain. apply Hplain.
    apply list_elem_of_lookup. eauto. }
  unfold verifyRequiredTermsInDocument, readFileContent.
  rewrite Hpath, Hfile. cbn [default].
  destruct content as [|c content]; [inversion Hterm0|].
  unfold id. apply forallb_forall. intros term Hin.
  apply contains_token. apply list_elem_of_In in Hin.
  destruct (Hall term Hin) as (i' & name' & Hi' & Heq & Hterm).
  assert (i' = i) as -> by lia.
  rewrite Hi in Hi'. injection Hi' as <-.
  unfold document_terms in Hterm. rewrite Hfile in Hterm. exact Hterm.
Qed.

(** *** TF-IDF scores on a freshly built index *)

Lemma score_terms_decodable std_log e queryTerms : forall scores,
  index_decodable e -> is_Ok (score_terms std_log e queryTerms scores).
Proof.
  induction queryTerms as [|term queryTerms IH]; intros scores Hdec; [exact I|].
  cbn [score_terms].
  destruct (CustomHashMap.find (m_invertedIndex e) term) as [data|] eqn:Hfind;
    [|apply IH, Hdec].
  specialize (Hdec term data Hfind) as Hdata.
  destruct (decompressPostingList data); [|destruct Hdata].
  cbn [mbind except_bind]. apply IH, Hdec.
Qed.

(** X25.  Right after a build of a corpus whose documents have
    fewer than 2^31 terms each, the documents that a TF-IDF query scores
    are exactly those that have at least one of the query terms, whatever
    [std::log] returns. *)
Theorem calculateTfIdfScores_after_build (std_log : float -> float)
  (w : World) (e : t) (names : list (list Z)) (built : t)
  (queryTerms : list (list Z)) :
  directory w (dataDir (m_config e)) = Some names ->
  Z.of_nat (length names) < 2 ^ 31 ->
  Forall (fun name =>
            Z.of_nat (length (document_terms
                                w (dataDir (m_config e) ++ Std.bytes "/" ++ name)))
            < 2 ^ 31) (documents names) ->
  indexDocuments w e = Ok built ->
  exists scores,
    calculateTfIdfScores std_log built queryTerms = Ok scores /\
    forall docId,
      is_Some (scores !! docId) <->
      exists term,
        term ∈ queryTerms /\
        document_has w (dataDir (m_config e)) names term docId.
Proof.
  intros Hdir Hbound Hsmall Hbuilt.
  pose proof (indexDocuments_decodable w e names built Hdir Hbound Hbuilt) as Hdec.
  unfold calculateTfIdfScores.
  pose proof (score_terms_decodable std_log built queryTerms ∅ Hdec) as Hok.
  destruct (score_terms std_log built queryTerms ∅) as [scores|] eqn:Hscores;
    [|destruct Hok].
  exists scores. split; [reflexivity|]. intros d.
  rewrite (score_terms_scored _ _ _ _ _ d Hscores), lookup_empty.
  destruct (indexDocuments_indexed w e names built Hdir Hbound Hbuilt)
    as (st & Hinv & _ & _ & Hlengths & _).
  split.
  - intros [[x Hx]|(term & docs & Hin & Hdocs & Hd & _)]; [discriminate|].
    exists term. split; [exact Hin|].
    apply (termDocs_built w e names built term d Hdir Hbound Hbuilt).
    unfold termDocs. rewrite Hdocs. exact Hd.
  - intros (term & Hin & Hhas). right.
    pose proof Hhas as Hhas'.
    apply (termDocs_built w e names built term d Hdir Hbound Hbuilt) in Hhas'.
    unfold termDocs in Hhas'.
    destruct (getDocumentsForTerm_decodable built term Hdec).
    exists term, (termDocs built term).
    split; [exact Hin|]. split; [apply getDocumentsForTerm_decodable, Hdec|].
    split; [unfold termDocs; exact Hhas'|].
    destruct Hhas as (i & name & Hi & -> & Hterm).
    exists (document_length w (dataDir (m_config e) ++ Std.bytes "/" ++ name)).
    rewrite Hlengths.
    destruct (indexed_tables _ _ _ _ Hinv i name Hi) as [_ ->].
    split; [reflexivity|].
    rewrite Forall_forall in Hsmall.
    specialize (Hsmall name ltac:(apply list_elem_of_lookup; eauto)).
    unfold document_length, document_terms in *.
    destruct (files w !! (dataDir (m_config e) ++ Std.bytes "/" ++ name))
      as [content|]; [|inversion Hterm].
    destruct (tokenize content) as [|t0 tokens]; [inversion Hterm|].
    rewrite wrap_int_small by (unfold is_int; simpl in *; lia).
    simpl. lia.
Qed.

(** *** Term statistics *)

Module TermStatistics.
Record t : Type := {
  term : list Z;
  totalFrequency : Z;
  documentFrequency : Z
}.
End TermStatistics.

(** The statistics of one term, from its posting list. *)
Definition make_statistics (term : list Z) (postings : list (Z * Z))
  : TermStatistics.t :=
  {| TermStatistics.term := term;
     TermStatistics.totalFrequency :=
       foldl (fun total posting => wrap_int (total + posting.2)) 0 postings;
     TermStatistics.documentFrequency := wrap_int (Z.of_nat (length postings)) |}.

(** The loop over the index in [getTermStatistics]; an exception of
    [decompressPostingList] leaves the function. *)
Fixpoint collect_statistics (entries : list (list Z * list Z))
  (stats : list TermStatistics.t) : except (list TermStatistics.t) :=
  match entries with
  | [] => Ok stats
  | entry :: entries' =>
      postings ← decompressPostingList entry.2;
      collect_statistics entries' (stats ++ [make_statistics entry.1 postings])
  end.

Section Zipf.

Variable std_sort : forall A, (A -> A -> bool) -> list A -> list A.

Definition getTermStatistics (e : t) : except (list TermStatistics.t) :=
  stats ← collect_statistics (CustomHashMap.entries (m_invertedIndex e)) [];
  Ok (std_sort _ (fun a b => TermStatistics.totalFrequency b <?
                             TermStatistics.totalFrequency a)
               stats).

End Zipf.

Lemma collect_statistics_decodable entries : forall stats,
  Forall (fun entry => is_Ok (decompressPostingList entry.2)) entries ->
  exists collected,
    collect_statistics entries stats = Ok (stats ++ collected) /\
    Forall2 (fun entry stat =>
               exists postings,
                 decompressPostingList entry.2 = Ok postings /\
                 stat = make_statistics entry.1 postings)
            entries collected.
Proof.
  induction entries as [|entry entries IH]; intros stats Hall.
  - exists []. rewrite app_nil_r. split; [reflexivity|constructor].
  - apply Forall_cons in Hall as [Hentry Hall]. cbn [collect_statistics].
    destruct (decompressPostingList entry.2) as [postings|] eqn:Hdec;
      [|destruct Hentry].
    cbn [mbind except_bind].
    destruct (IH (stats ++ [make_statistics entry.1 postings]) Hall)
      as (collected & -> & Hcollected).
    exists (make_statistics entry.1 postings :: collected).
    rewrite <- app_assoc. split; [reflexivity|].
    constructor; [|exact Hcollected]. exists postings. auto.
Qed.

(** X26.  On an index built by [insert]s whose posting lists decode,
    and with any [std::sort] that meets the standard's contract,
    [getTermStatistics] returns one entry per term of the index, each with
    the number of postings of the term as its document frequency and their
    frequencies summed as its total frequency, in an order in which the
    total frequency never increases. *)
Theorem getTermStatistics_descending
  (std_sort : forall A, (A -> A -> bool) -> list A -> list A) (e : t) :
  StdSort.sort_contract std_sort ->
  CustomHashMap.wf (m_invertedIndex e) ->
  index_decodable e ->
  exists stats,
    getTermStatistics std_sort e = Ok stats /\
    length stats = CustomHashMap.size (m_invertedIndex e) /\
    StronglySorted (fun a b => TermStatistics.totalFrequency b <=
                               TermStatistics.totalFrequency a) stats /\
    forall stat,
      stat ∈ stats <->
      exists data postings,
        CustomHashMap.find (m_invertedIndex e) (TermStatistics.term stat) =
          Some data /\
        decompressPostingList data = Ok postings /\
        stat = make_statistics (TermStatistics.term stat) postings.
Proof.
  intros Hsort Hwf Hdec. unfold getTermStatistics.
  assert (Forall (fun entry => is_Ok (decompressPostingList entry.2))
                 (CustomHashMap.entries (m_invertedIndex e))) as Hall.
  { apply Forall_forall. intros [term data] Hin.
    apply CustomHashMap.elem_of_entries in Hin; [|exact Hwf].
    apply (Hdec term data Hin). }
  destruct (collect_statistics_decodable _ [] Hall) as (collected & -> & Hcol).
  cbn [mbind except_bind app].
  set (comp := fun a b => TermStatistics.totalFrequency b <?
                          TermStatistics.totalFrequency a).
  assert (StdSort.strict_weak_order_on comp collected) as Hswo.
  { unfold comp. split; [|split].
    - intros x _. apply Z.ltb_irrefl.
    - intros x y z _ _ _. rewrite !Z.ltb_lt. lia.
    - intros x y z _ _ _. rewrite !Z.ltb_ge. lia. }
  destruct (Hsort _ comp collected Hswo) as [Hperm Hsorted].
  eexists. split; [reflexivity|]. split; [|split].
  - rewrite Hperm, CustomHashMap.size_entries. symmetry.
    eapply Forall2_length, Hcol.
  - unfold StdSort.sorted_by in Hsorted.
    revert Hsorted. generalize (std_sort TermStatistics.t comp collected).
    induction 1 as [|a l Hl IH Hfirst]; constructor; [exact IH|].
    eapply Forall_impl; [exact Hfirst|].
    intros b. unfold comp. rewrite Z.ltb_ge. lia.
  - intros stat. rewrite Hperm. split.
    + intros Hin.
      apply list_elem_of_lookup in Hin as [i Hi].
      destruct (Forall2_lookup_r _ _ _ _ _ Hcol Hi)
        as ([term data] & Hentry & postings & Hpost & ->).
      exists data, postings. cbn [make_statistics TermStatistics.term fst snd] in *.
      split; [|auto].
      apply CustomHashMap.elem_of_entries; [exact Hwf|].
      apply list_elem_of_lookup. eauto.
    + intros (data & postings & Hfind & Hpost & Hstat).
      apply CustomHashMap.elem_of_entries in Hfind; [|exact Hwf].
      apply list_elem_of_lookup in Hfind as [i Hi].
      destruct (Forall2_lookup_l _ _ _ _ _ Hcol Hi)
        as (stat' & Hstat' & postings' & Hpost' & ->).
      cbn [fst snd] in *. rewrite Hpost in Hpost'. injection Hpost' as <-.
      rewrite Hstat. apply list_elem_of_lookup. eauto.
Qed.

(** A completed build leaves an index that stores posting lists: for each
    term, the documents that have it. *)
Lemma indexDocuments_stores w e names built :
  directory w (dataDir (m_config e)) = Some names ->
  Z.of_nat (length names) < 2 ^ 31 ->
  indexDocuments w e = Ok built ->
  exists postingLists,
    index_stores built postingLists /\
    forall term docId,
      docId ∈ posting_docIds postingLists term <->
      document_has w (dataDir (m_config e)) names term docId.
Proof.
  intros Hdir Hbound Hbuilt.
  destruct (indexDocuments_indexed w e names built Hdir Hbound Hbuilt)
    as (st & Hinv & Hbuild & _).
  exists (fun term =>
            merge_sort pair_le (default [] (ix_tempPostings st !! term))).
  split.
  - intros term.
    destruct (build_index_find _ _ _ term (NoDup_string_map_entries _) Hbuild)
      as [Hin Hout].
    destruct (ix_tempPostings st !! term) as [postings|] eqn:Hterm.
    + destruct (Hin postings) as (compressed & Hc & ->).
      { apply elem_of_string_map_entries. exact Hterm. }
      cbn [default]. split; [|exact Hc].
      apply Forall_forall. intros p Hp.
      rewrite merge_sort_Permutation in Hp.
      apply (indexed_postings _ _ _ _ Hinv term p). rewrite Hterm. exact Hp.
    + rewrite Hout.
      * reflexivity.
      * intros Hmem. apply list_elem_of_fmap in Hmem as ([term' postings] & -> & Hmem).
        apply elem_of_string_map_entries in Hmem. cbn [fst] in Hterm. congruence.
  - intros term docId. unfold posting_docIds, document_has.
    rewrite elem_of_list_to_set, <- (indexed_docs _ _ _ _ Hinv term docId).
    rewrite merge_sort_Permutation. reflexivity.
Qed.

(** *** The small corpus, indexed *)

Definition example_names : list (list Z) :=
  [ Std.bytes "1.txt"; Std.bytes "2.txt"; Std.bytes "notes.md";
    Std.bytes "3.txt"; Std.bytes "4.txt"; Std.bytes "5.txt" ].

Lemma example_documents_small :
  Forall (fun name =>
            Z.of_nat (length (document_terms
                                example_world
                                (dataDir (m_config example_engine) ++
                                 Std.bytes "/" ++ name)))
            < 2 ^ 31) (documents example_names).
Proof. apply (bool_decide_unpack _). vm_compute. exact I. Qed.

Lemma example_documents_plain :
  Forall (fun name => 47 ∉ name) (documents example_names).
Proof. apply (bool_decide_unpack _). vm_compute. exact I. Qed.

Lemma indexDocuments_succeeds_witness :
  is_Ok (indexDocuments example_world example_engine).
Proof.
  apply (indexDocuments_succeeds example_world example_engine example_names).
  - reflexivity.
  - vm_compute. reflexivity.
  - exact example_documents_small.
Defined.

Lemma indexDocuments_term_documents_witness :
  (exists docs,
     getDocumentsForTerm (built_from example_world example_engine)
                         (Std.bytes "cat") = Ok docs /\
     forall docId,
       docId ∈ docs <->
       exists (i : nat) name,
         documents example_names !! i = Some name /\ docId = Z.of_nat i + 1 /\
         Std.bytes "cat" ∈
           document_terms example_world
             (dataDir (m_config example_engine) ++ Std.bytes "/" ++ name)) /\
  (CustomHashMap.find (m_invertedIndex (built_from example_world example_engine))
                      (Std.bytes "cat") = None <->
   forall name,
     name ∈ documents example_names ->
     Std.bytes "cat" ∉
       document_terms example_world
         (dataDir (m_config example_engine) ++ Std.bytes "/" ++ name)).
Proof.
  apply (indexDocuments_term_documents example_world example_engine
           example_names (built_from example_world example_engine)
           (Std.bytes "cat")).
  - reflexivity.
  - vm_compute. reflexivity.
  - exact example_build_completes.
Defined.

Lemma indexDocuments_document_table_witness :
  m_totalDocsCount (built_from example_world example_engine) = 5 /\
  CustomHashMap.find (m_docNames (built_from example_world example_engine)) 3 =
    Some (Std.bytes "3.txt") /\
  CustomHashMap.find (m_docLengths (built_from example_world example_engine)) 5 =
    Some 3 /\
  CustomHashMap.find (m_docNames (built_from example_world example_engine)) 6 =
    None.
Proof.
  destruct (indexDocuments_document_table example_world example_engine
              example_names (built_from example_world example_engine)
              eq_refl ltac:(vm_compute; reflexivity) example_build_completes)
    as (Hcount & _ & _ & Hknown & Hunknown & _).
  split; [exact Hcount|].
  split; [exact (proj1 (Hknown 2%nat (Std.bytes "3.txt") eq_refl))|].
  split; [exact (proj2 (Hknown 4%nat (Std.bytes "5.txt") eq_refl))|].
  apply Hunknown. vm_compute. intros [_ H]. apply H. reflexivity.
Defined.

Lemma calculateTfIdfScores_Ok std_log e queryTerms :
  is_Ok (calculateTfIdfScores std_log e queryTerms) ->
  calculateTfIdfScores std_log e queryTerms =
  Ok (match calculateTfIdfScores std_log e queryTerms with
      | Ok scores => scores
      | Throw _ => ∅
      end).
Proof.
  destruct (calculateTfIdfScores std_log e queryTerms);
    [reflexivity|intros []].
Qed.

Lemma calculateTfIdfScores_documents_witness :
  let e := built_from example_world example_engine in
  let scores :=
    match calculateTfIdfScores (fun x => x) e [Std.bytes "cat"] with
    | Ok scores => scores
    | Throw _ => ∅
    end in
  is_Some (scores !! 2) <->
  exists term docs len,
    term ∈ [Std.bytes "cat"] /\ getDocumentsForTerm e term = Ok docs /\
    2 ∈ docs /\
    CustomHashMap.find (m_docLengths e) 2 = Some len /\ len <> 0.
Proof.
  apply (calculateTfIdfScores_documents
           (fun x => x) (built_from example_world example_engine)
           [Std.bytes "cat"]).
  apply calculateTfIdfScores_Ok. vm_compute. exact I.
Defined.

Lemma calculateTfIdfScores_after_build_witness :
  exists scores,
    calculateTfIdfScores (fun x => x) (built_from example_world example_engine)
                         [Std.bytes "cat"; Std.bytes "fish"] = Ok scores /\
    forall docId,
      is_Some (scores !! docId) <->
      exists term,
        term ∈ [Std.bytes "cat"; Std.bytes "fish"] /\
        document_has example_world (dataDir (m_config example_engine))
                     example_names term docId.
Proof.
  apply (calculateTfIdfScores_after_build
           (fun x => x) example_world example_engine example_names).
  - reflexivity.
  - vm_compute. reflexivity.
  - exact example_documents_small.
  - exact example_build_completes.
Defined.

Lemma executeBooleanQuery_after_build_witness :
  let query := parseBooleanQuery (Std.bytes "+cat dog -bird") in
  exists result,
    executeBooleanQuery example_world
                        (built_from example_world example_engine) query =
      Ok result /\
    StronglySorted Z.lt result /\
    forall docId,
      docId ∈ result <->
      match requiredTerms query with
      | [] => exists term,
                term ∈ optionalTerms query /\
                document_has example_world (dataDir (m_config example_engine))
                             example_names term docId
      | _ => forall term,
               term ∈ requiredTerms query ->
               document_has example_world (dataDir (m_config example_engine))
                            example_names term docId
      end /\
      (forall term,
         term ∈ excludedTerms query ->
         ~ document_has example_world (dataDir (m_config example_engine))
                        example_names term docId).
Proof.
  apply (executeBooleanQuery_after_build
           example_world example_engine example_names
           (built_from example_world example_engine)
           (parseBooleanQuery (Std.bytes "+cat dog -bird"))).
  - reflexivity.
  - vm_compute. reflexivity.
  - exact example_documents_plain.
  - exact example_build_completes.
Defined.

Lemma getTermStatistics_descending_witness :
  let e := built_from example_world example_engine in
  exists stats,
    getTermStatistics StdSort.insertion_sort e = Ok stats /\
    length stats = CustomHashMap.size (m_invertedIndex e) /\
    StronglySorted (fun a b => TermStatistics.totalFrequency b <=
                               TermStatistics.totalFrequency a) stats /\
    forall stat,
      stat ∈ stats <->
      exists data postings,
        CustomHashMap.find (m_invertedIndex e) (TermStatistics.term stat) =
          Some data /\
        decompressPostingList data = Ok postings /\
        stat = make_statistics (TermStatistics.term stat) postings.
Proof.
  apply (getTermStatistics_descending
           StdSort.insertion_sort (built_from example_world example_engine)).
  - exact StdSort.insertion_sort_contract.
  - apply (indexDocuments_saveable example_world example_engine _ _
             eq_refl example_names_plain ltac:(vm_compute; reflexivity)
             example_build_completes).
  - exact example_index_decodable.
Defined.

End SearchEngine.
